(** * The schema loader of openapi-typescript ([src/load.ts])

    A shallow embedding of [load], [parseHttpHeaders] and [parseSchema],
    and the properties of the loader that the specification states.

    Conventions of the embedding:
    - JavaScript strings are [string]; objects used as dictionaries
      ([SchemaMap], [Headers]) are association lists in insertion order,
      which is the order [Object.keys] and [Object.entries] enumerate;
    - the [Set<string>] of visited URLs is a [gset string];
    - the two heap objects every recursive call shares ([options.schemas]
      and [urlCache]) live in an explicit [Store] that is threaded through
      the calls; a rejected promise is an [Err] result next to the store
      as it is at that moment;
    - the runtime (URL constructor, file system, network, decoders) is a
      record of functions, [Platform];
    - [undefined] is modelled where the loader can meet it: as what
      [yaml.load] returns for an empty text, as what [JSON.stringify]
      returns for a value it does not encode, and as the value of a
      property that holds either. *)

From Stdlib Require Import Ascii String.
From stdpp Require Import base option list strings pretty gmap sets.

Set Warnings "-register-all".

Local Open Scope string_scope.
Local Open Scope list_scope.

(** ** JavaScript string primitives *)

Module Js.

(** The double quote, for the brackets of emitted references. *)
Definition dq : string := String (ascii_of_nat 34) EmptyString.

(** [strip_prefix p s] is [Some r] exactly when [s = p ++ r]. *)
Fixpoint strip_prefix (p s : string) : option string :=
  match p with
  | EmptyString => Some s
  | String a p' =>
      match s with
      | EmptyString => None
      | String b s' => if Ascii.eqb a b then strip_prefix p' s' else None
      end
  end.

(** [String.prototype.startsWith] *)
Definition startsWith (s p : string) : bool :=
  match strip_prefix p s with Some _ => true | None => false end.

(** First occurrence of [p] in [s]: the text before it and the text
    after it. *)
Fixpoint find_sub (p s : string) : option (string * string) :=
  match strip_prefix p s with
  | Some r => Some (EmptyString, r)
  | None =>
      match s with
      | EmptyString => None
      | String c s' =>
          match find_sub p s' with
          | Some (b, r) => Some (String c b, r)
          | None => None
          end
      end
  end.

(** [String.prototype.includes] *)
Definition includes (s p : string) : bool :=
  match find_sub p s with Some _ => true | None => false end.

(** [Array.prototype.join] on an array of strings. *)
Fixpoint join (sep : string) (l : list string) : string :=
  match l with
  | [] => ""
  | [x] => x
  | x :: r => x +:+ sep +:+ join sep r
  end.

(** [String.prototype.split] with a one-character separator. *)
Fixpoint split (sep : ascii) (s : string) : list string :=
  match s with
  | EmptyString => [EmptyString]
  | String c s' =>
      if Ascii.eqb c sep then EmptyString :: split sep s'
      else match split sep s' with
           | x :: r => String c x :: r
           | [] => [String c EmptyString]
           end
  end.

(** The expansion of a replacement string when the pattern of
    [String.prototype.replace] is a string (ECMAScript GetSubstitution
    with no captures): [$$] is a dollar, [$&] the matched text, [$`] the
    text before the match, [$'] the text after it; any other character,
    a [$] followed by anything else included, stands for itself. *)
Fixpoint get_substitution (matched before after rep : string) : string :=
  match rep with
  | EmptyString => EmptyString
  | String c rep' =>
      if Ascii.eqb c "$" then
        match rep' with
        | String d rep'' =>
            if Ascii.eqb d "$" then
              String "$" (get_substitution matched before after rep'')
            else if Ascii.eqb d "&" then
              matched +:+ get_substitution matched before after rep''
            else if Ascii.eqb d "`" then
              before +:+ get_substitution matched before after rep''
            else if Ascii.eqb d "'" then
              after +:+ get_substitution matched before after rep''
            else String c (get_substitution matched before after rep')
        | EmptyString => String c EmptyString
        end
      else String c (get_substitution matched before after rep')
  end.

(** [s.replace(p, rep)] with a string pattern: the first occurrence
    only, the replacement expanded by [get_substitution]. *)
Definition replace (s p rep : string) : string :=
  match find_sub p s with
  | None => s
  | Some (b, r) => b +:+ get_substitution p b r rep +:+ r
  end.

(** A string is truthy when it is not empty. *)
Definition truthy (s : string) : bool :=
  match s with EmptyString => false | _ => true end.

End Js.


(** ** Documents, results and the store *)

(** A decoded schema: the values that survive [JSON.stringify].  Numbers
    are never inspected by the loader; an integer payload stands for them. *)
Inductive Doc : Type :=
  | JNull
  | JBool (b : bool)
  | JNumber (n : Z)
  | JString (s : string)
  | JArray (items : list Doc)
  | JObject (props : list (string * Doc)).

(** The key a reviver of [JSON.parse] is called with: a property name, an
    array index (the canonical numeric strings, none of which is [$ref]),
    or the empty key of the root holder. *)
Inductive Key : Type :=
  | KProp (name : string)
  | KIndex (i : nat)
  | KRoot.

(** What [load] can throw.  The code throws [Error] objects told apart by
    their message; a constructor stands for each throwing site.
    [OutOfFuel] belongs to the model only. *)
Inductive LoadError : Type :=
  | ParseError (msg : string)
  | UnknownFormat (msg : string)
  | UnresolvableReference (msg : string)
  | InvalidURL (input : string)
  | TransportError (target : string)
  (** the [SyntaxError] of [JSON.parse(JSON.stringify(undefined))] *)
  | CloneError
  | OutOfFuel.

Inductive Result (A : Type) : Type :=
  | Ok (a : A)
  | Err (e : LoadError).
Arguments Ok {A} a.
Arguments Err {A} e.

(** A computation over a state that may throw; the state at the time of
    the throw is kept, as the heap is in JavaScript. *)
Definition M (S A : Type) : Type := S -> Result A * S.

Definition ret {S A} (a : A) : M S A := fun s => (Ok a, s).
Definition throw {S A} (e : LoadError) : M S A := fun s => (Err e, s).
Definition bind {S A B} (m : M S A) (f : A -> M S B) : M S B :=
  fun s => match m s with
           | (Ok a, s') => f a s'
           | (Err e, s') => (Err e, s')
           end.

Declare Scope load_scope.
Delimit Scope load_scope with load.
Notation "'do' x <- m ; k" := (bind m (fun x => k))
  (at level 10, x name, m at level 100, k at level 200) : load_scope.
Local Open Scope load_scope.

(** What a property or a variable holds when it may be [undefined]. *)
Inductive OrUndefined (A : Type) : Type :=
  | Value (a : A)
  | Undefined.
Arguments Value {A} a.
Arguments Undefined {A}.

(** JavaScript objects used as dictionaries, in insertion order (the
    order of [Object.keys] for keys that are not array indices, as URLs
    and header names are). *)
Section Obj.
Context {V : Type}.

Fixpoint obj_get (k : string) (o : list (string * V)) : option V :=
  match o with
  | [] => None
  | (k', v) :: r => if String.eqb k k' then Some v else obj_get k r
  end.

(** [o[k] = v]: an existing property keeps its place. *)
Fixpoint obj_set (k : string) (v : V) (o : list (string * V)) : list (string * V) :=
  match o with
  | [] => [(k, v)]
  | (k', v') :: r =>
      if String.eqb k k' then (k, v) :: r else (k', v') :: obj_set k v r
  end.

(** [delete o[k]] *)
Fixpoint obj_delete (k : string) (o : list (string * V)) : list (string * V) :=
  match o with
  | [] => []
  | (k', v') :: r =>
      if String.eqb k k' then obj_delete k r else (k', v') :: obj_delete k r
  end.

(** [Object.keys] *)
Definition obj_keys (o : list (string * V)) : list string := map fst o.
End Obj.

(** [schemas]: a property holds a document, or [undefined] when that is
    what the decoder returned. *)
Definition SchemaMap : Type := list (string * OrUndefined Doc).

(** The headers object: declared [Record<string, string>], it holds
    [undefined] where [JSON.stringify] returned it. *)
Definition Headers : Type := list (string * OrUndefined string).

(** ** [JSON.parse(JSON.stringify(doc), reviver)]

    The round trip through text is the identity on [Doc]; what is left is
    the walk of [JSON.parse]: the reviver is called on every property and
    element after its own children, in order, and last on the root. *)
Section Internalize.
Context {S : Type} (reviver : Key -> Doc -> M S Doc).

Fixpoint internalize (k : Key) (d : Doc) (s : S) {struct d} : Result Doc * S :=
  match d with
  | JArray items =>
      let fix elems (i : nat) (l : list Doc) (s : S) {struct l}
          : Result (list Doc) * S :=
        match l with
        | [] => (Ok [], s)
        | x :: r =>
            match internalize (KIndex i) x s with
            | (Ok x', s1) =>
                match elems (Datatypes.S i) r s1 with
                | (Ok r', s2) => (Ok (x' :: r'), s2)
                | (Err e, s2) => (Err e, s2)
                end
            | (Err e, s1) => (Err e, s1)
            end
        end in
      match elems 0 items s with
      | (Ok items', s') => reviver k (JArray items') s'
      | (Err e, s') => (Err e, s')
      end
  | JObject props =>
      let fix fields (l : list (string * Doc)) (s : S) {struct l}
          : Result (list (string * Doc)) * S :=
        match l with
        | [] => (Ok [], s)
        | (name, x) :: r =>
            match internalize (KProp name) x s with
            | (Ok x', s1) =>
                match fields r s1 with
                | (Ok r', s2) => (Ok ((name, x') :: r'), s2)
                | (Err e, s2) => (Err e, s2)
                end
            | (Err e, s1) => (Err e, s1)
            end
        end in
      match fields props s with
      | (Ok props', s') => reviver k (JObject props') s'
      | (Err e, s') => (Err e, s')
      end
  | _ => reviver k d s
  end.

(** The two inner loops, as functions of their own. *)
Fixpoint internalize_elems (i : nat) (l : list Doc) (s : S)
    : Result (list Doc) * S :=
  match l with
  | [] => (Ok [], s)
  | x :: r =>
      match internalize (KIndex i) x s with
      | (Ok x', s1) =>
          match internalize_elems (Datatypes.S i) r s1 with
          | (Ok r', s2) => (Ok (x' :: r'), s2)
          | (Err e, s2) => (Err e, s2)
          end
      | (Err e, s1) => (Err e, s1)
      end
  end.

Fixpoint internalize_fields (l : list (string * Doc)) (s : S)
    : Result (list (string * Doc)) * S :=
  match l with
  | [] => (Ok [], s)
  | (name, x) :: r =>
      match internalize (KProp name) x s with
      | (Ok x', s1) =>
          match internalize_fields r s1 with
          | (Ok r', s2) => (Ok ((name, x') :: r'), s2)
          | (Err e, s2) => (Err e, s2)
          end
      | (Err e, s1) => (Err e, s1)
      end
  end.
End Internalize.

(** ** [path.posix]

    [dirname] follows Node's scan of the string.  [resolve] and [relative]
    work on the list of segments of the resolved path: [resolve] always
    yields a normalized absolute path, which is its segments joined by
    slashes after a leading slash, and on such paths Node's character scan
    of [relative] agrees with dropping the common leading segments. *)
Module PathPosix.

Definition is_slash (c : ascii) : bool := Ascii.eqb c "/".

Fixpoint drop_while (f : ascii -> bool) (l : list ascii) : list ascii :=
  match l with
  | [] => []
  | c :: r => if f c then drop_while f r else l
  end.

(** [path.posix.dirname]: trailing slashes and the last name are cut, at
    the slash before that name; the character at index 0 is not looked at. *)
Definition dirname (path : string) : string :=
  match list_ascii_of_string path with
  | [] => "."
  | c0 :: rest =>
      let hasRoot := is_slash c0 in
      let r1 := drop_while is_slash (rev rest) in
      let r2 := drop_while (fun c => negb (is_slash c)) r1 in
      match r2 with
      | [] => if hasRoot then "/" else "."
      | _ :: r3 =>
          match r3 with
          | [] => if hasRoot then "//" else String c0 EmptyString
          | _ => string_of_list_ascii (c0 :: rev r3)
          end
      end
  end.

(** The non-empty names between slashes. *)
Definition segments (path : string) : list string :=
  filter (fun x => Js.truthy x = true) (Js.split "/" path).

(** [normalizeString] of an absolute path: [.] is skipped, [..] pops. *)
Fixpoint normalize (stack : list string) (segs : list string) : list string :=
  match segs with
  | [] => rev stack
  | x :: r =>
      if String.eqb x "." then normalize stack r
      else if String.eqb x ".." then normalize (tail stack) r
      else normalize (x :: stack) r
  end.

(** [path.posix.resolve(p)], as the segments of its result. *)
Definition resolve (cwd path : string) : list string :=
  if Js.startsWith path "/" then normalize [] (segments path)
  else normalize [] (segments cwd ++ segments path).

Fixpoint drop_common (a b : list string) : list string * list string :=
  match a, b with
  | x :: a', y :: b' => if String.eqb x y then drop_common a' b' else (a, b)
  | _, _ => (a, b)
  end.

(** [path.posix.relative(from, to)] *)
Definition relative (cwd from to : string) : string :=
  if String.eqb from to then ""
  else
    let '(up, down) := drop_common (resolve cwd from) (resolve cwd to) in
    Js.join "/" (map (fun _ => "..") up ++ down).

End PathPosix.

(** ** The collaborators of [load] *)

(** Modelled from the spec: [parseRef] of [./utils], which is not among
    the sources.  A Reference Pointer has the form [url#/path] or [#/path]:
    the url-part is the text before the fragment delimiter, the path Parts
    are the names of the fragment; a string with no delimiter has neither.
    The empty string stands for the absent ([undefined]) url-part, which
    the loader only tests for truthiness. *)
Definition parseRef (ref : string) : string * list string :=
  match Js.find_sub "#" ref with
  | None => ("", [])
  | Some (url, fragment) =>
      (url, filter (fun part => Js.truthy part = true) (Js.split "/" fragment))
  end.

(** The two fields of a WHATWG [URL] object the loader reads. *)
Record URL : Type := mkURL { href : string; protocol : string }.

Definition VIRTUAL_JSON_URL : string := "file:///_json".

(** The runtime the loader calls into.  A constructor or promise that
    throws or rejects yields [None]; a decoder that throws yields the
    text of its error. *)
Record Platform : Type := {
  (** [new URL(input)] and [new URL(input, base)] *)
  new_URL : string -> option URL -> option URL;
  (** the [slash] package *)
  slash : string -> string;
  (** [process.cwd()] *)
  cwd : string;
  (** [fs.promises.readFile(url, "utf8")] *)
  fs_readFile : URL -> option string;
  (** [mime.getType(path)], [None] for [null] *)
  mime_getType : string -> option string;
  (** [fetch(url, {method, headers})]: the [Content-Type] response header
      and the body text *)
  fetch : string -> string -> Headers -> option (option string * string);
  (** [JSON.parse(text)] *)
  JSON_parse : string -> string + Doc;
  (** [yaml.load(text)], on texts whose value is a JSON value, and on
      those with no value (an empty text, or comments only), for which it
      returns [undefined]; a value that is no JSON value (a timestamp,
      which it makes a [Date] of) is taken as the JSON value the clone of
      line 170 makes of it *)
  yaml_load : string -> string + OrUndefined Doc;
  (** [JSON.stringify] on a JSON value *)
  JSON_stringify : Doc -> string
}.

(** A value of type [any] given as an HTTP header: a JSON value, which
    [JSON.stringify] encodes; a value for which it returns [undefined]
    ([undefined] itself, a function, a symbol); or a value it throws on (a
    [BigInt], a cyclic object). *)
Inductive JsAny : Type :=
  | AnyJson (d : Doc)
  | AnyUndefined
  | AnyUnserializable.

(** The fields of [LoadOptions] that [load] reads, the two shared objects
    apart, which are in the [Store]. *)
Record LoadOptions : Type := {
  rootURL : URL;
  auth : option string;
  httpHeaders : option (list (string * JsAny));
  httpMethod : option string
}.

(** What the loader does to the outside, in order: reads, requests and
    [console.error] lines. *)
Inductive Event : Type :=
  | EvReadFile (target : string)
  | EvFetch (target method : string) (headers : Headers)
  | EvWarn (msg : string).

(** The objects shared by every recursive call of one load, and the trace
    of its effects. *)
Record Store : Type := mkStore {
  schemas : SchemaMap;
  urlCache : gset string;
  events : list Event
}.

(** [schema]: a [URL], or a document passed in by the caller. *)
Inductive Source : Type :=
  | SrcURL (u : URL)
  | SrcJSON (d : Doc).

Section Loader.
Context (P : Platform).

(** *** [parseSchema] and the choice of decoder *)

Inductive SchemaType : Type := YAML | JSON.

Definition parseSchema (schema : string) (type : SchemaType)
    : Result (OrUndefined Doc) :=
  match type with
  | YAML =>
      match yaml_load P schema with
      | inr v => Ok v
      | inl err => Err (ParseError ("YAML: " +:+ err))
      end
  | JSON =>
      match JSON_parse P schema with
      | inr d => Ok (Value d)
      | inl err => Err (ParseError ("JSON: " +:+ err))
      end
  end.

Definition unknown_format (contentType : string) : string :=
  "Unknown format"
  +:+ (if Js.truthy contentType then ": " +:+ Js.dq +:+ contentType +:+ Js.dq else "")
  +:+ ". Only YAML or JSON supported.".

(** Lines 145-165: the decoder is chosen by the content type; when the
    type is not a known one, JSON is tried, then YAML. *)
Definition decode (contents contentType : string) : Result (OrUndefined Doc) :=
  let isYAML := String.eqb contentType "application/openapi+yaml"
                || String.eqb contentType "text/yaml" in
  let isJSON := String.eqb contentType "application/json"
                || String.eqb contentType "application/json5"
                || String.eqb contentType "application/openapi+json" in
  if isYAML then parseSchema contents YAML
  else if isJSON then parseSchema contents JSON
  else
    match parseSchema contents JSON with
    | Ok v => Ok v
    | Err _ =>
        match parseSchema contents YAML with
        | Ok v => Ok v
        | Err _ => Err (UnknownFormat (unknown_format contentType))
        end
    end.

(** *** [parseHttpHeaders] *)

Definition cannot_parse_key (k : string) : string :=
  "Cannot parse key: " +:+ k
  +:+ " into JSON format. Continuing with the next HTTP header that is specified".

(** The loop over [Object.entries(httpHeaders)], with [finalHeaders] and
    the lines written to [console.error] so far. *)
Fixpoint parseHttpHeaders_from (entries : list (string * JsAny))
    (finalHeaders : Headers) (warnings : list string) : Headers * list string :=
  match entries with
  | [] => (finalHeaders, warnings)
  | (k, v) :: rest =>
      match v with
      | AnyJson (JString s) =>
          parseHttpHeaders_from rest (obj_set k (Value s) finalHeaders) warnings
      | AnyJson d =>
          parseHttpHeaders_from rest
            (obj_set k (Value (JSON_stringify P d)) finalHeaders) warnings
      | AnyUndefined =>
          parseHttpHeaders_from rest (obj_set k Undefined finalHeaders) warnings
      | AnyUnserializable =>
          parseHttpHeaders_from rest finalHeaders (warnings ++ [cannot_parse_key k])
      end
  end.

Definition parseHttpHeaders (httpHeaders : list (string * JsAny)) : Headers * list string :=
  parseHttpHeaders_from httpHeaders [] [].

(** *** The request of a remote document (lines 127-140) *)

Fixpoint assign_all (entries : Headers) (headers : Headers) : Headers :=
  match entries with
  | [] => headers
  | (k, v) :: rest => assign_all rest (obj_set k v headers)
  end.

(** The headers the loader sets by itself. *)
Definition own_headers (o : LoadOptions) : Headers :=
  let headers := [("User-Agent", Value "openapi-typescript")] in
  match auth o with
  | Some token =>
      if Js.truthy token then obj_set "Authorizaton" (Value token) headers else headers
  | None => headers
  end.

Definition request_headers (o : LoadOptions) : Headers * list string :=
  match httpHeaders o with
  | Some custom =>
      let '(parsedHeaders, warnings) := parseHttpHeaders custom in
      (assign_all parsedHeaders (own_headers o), warnings)
  | None => (own_headers o, [])
  end.

Definition request_method (o : LoadOptions) : string :=
  match httpMethod o with
  | Some m => if Js.truthy m then m else "GET"
  | None => "GET"
  end.

Definition isFile (url : URL) : bool := String.eqb (protocol url) "file:".

(** *** The part of a call of [load] on a URL that runs before its first
    [await]: the test of the cache, and the read or request it starts. *)
Definition load_begin (o : LoadOptions) (schema : URL) (st : Store) : bool * Store :=
  let schemaID := href schema in
  if decide (schemaID ∈ urlCache st) then (false, st)
  else
    let cache := {[schemaID]} ∪ urlCache st in
    if isFile schema then
      (true, mkStore (schemas st) cache (events st ++ [EvReadFile schemaID]))
    else
      let '(headers, warnings) := request_headers o in
      (true, mkStore (schemas st) cache
               (events st ++ map EvWarn warnings
                ++ [EvFetch schemaID (request_method o) headers])).

(** What the awaited read or request gives: the contents and the content
    type. *)
Definition receive (o : LoadOptions) (schema : URL) : Result (string * string) :=
  let schemaID := href schema in
  if isFile schema then
    match fs_readFile P schema with
    | Some contents => Ok (contents, default "" (mime_getType P schemaID))
    | None => Err (TransportError schemaID)
    end
  else
    match fetch P schemaID (request_method o) (fst (request_headers o)) with
    | Some (contentType, contents) => Ok (contents, default "" contentType)
    | None => Err (TransportError schemaID)
    end.

(** *** The scan of the references of one document (lines 169-194) *)

Definition is_ref_key (k : Key) : bool :=
  match k with
  | KProp name => String.eqb name "$ref"
  | _ => false
  end.

Definition is_remote (refURL : string) : bool :=
  Js.startsWith refURL "http://" || Js.startsWith refURL "https://".

Definition cannot_load_dynamic (refURL : string) : string :=
  "Can’t load URL " +:+ Js.dq +:+ refURL +:+ Js.dq
  +:+ " from dynamic JSON. Load this schema from a URL instead.".

(** [new URL(refURL)] for a remote reference, [new URL(slash(refURL),
    schema)] for one relative to the document. *)
Definition next_URL (schema : Source) (refURL : string) : option URL :=
  if is_remote refURL then new_URL P refURL None
  else new_URL P (slash P refURL)
         (match schema with SrcURL u => Some u | SrcJSON _ => None end).

(** The reviver of the scan.  Its state is the store and the children
    whose load did not return at once, in the order they were started. *)
Definition scan_reviver (o : LoadOptions) (schema : Source) (k : Key) (v : Doc)
    : M (Store * list URL) Doc :=
  fun st =>
    match v with
    | JString ref =>
        if is_ref_key k then
          let refURL := fst (parseRef ref) in
          if Js.truthy refURL then
            let isJSON := match schema with SrcJSON _ => true | SrcURL _ => false end in
            if isJSON && negb (is_remote refURL) then
              (Err (UnresolvableReference (cannot_load_dynamic refURL)), st)
            else
              match next_URL schema refURL with
              | None => (Err (InvalidURL refURL), st)
              | Some nextURL =>
                  let '(pending, st') := load_begin o nextURL (fst st) in
                  (Ok (JString (Js.replace ref refURL (href nextURL))),
                   (st', if pending then snd st ++ [nextURL] else snd st))
              end
          else (Ok v, st)
        else (Ok v, st)
    | _ => (Ok v, st)
    end.

(** *** The transformation of the references (lines 198-249) *)

Definition bracket (s : string) : string := "[" +:+ Js.dq +:+ s +:+ Js.dq +:+ "]".

(** The separator of [parts.join]. *)
Definition bracket_sep : string := Js.dq +:+ "][" +:+ Js.dq.

Definition emit_external (relativeURL : string) (parts : list string) : string :=
  "external[" +:+ Js.dq +:+ relativeURL +:+ Js.dq +:+ "]["
  +:+ Js.dq +:+ Js.join bracket_sep parts +:+ Js.dq +:+ "]".

(** [const [base, ...rest] = parts]; a missing [base] prints as
    [undefined]. *)
Definition emit_root (parts : list string) : string :=
  match parts with
  | [] => "undefined[" +:+ Js.dq +:+ Js.dq +:+ "]"
  | base :: rest => base +:+ "[" +:+ Js.dq +:+ Js.join bracket_sep rest +:+ Js.dq +:+ "]"
  end.

(** [if (parts[parts.length - 2] === "properties") parts.splice(parts.length - 2, 1)] *)
Definition collapse_properties (parts : list string) : list string :=
  let n := length parts in
  if Nat.leb 2 n then
    match parts !! (n - 2) with
    | Some x => if String.eqb x "properties" then delete (n - 2) parts else parts
    | None => parts
    end
  else parts.

(** The relative key of an external schema. *)
Definition relative_id (o : LoadOptions) (u : URL) (target : string) : string :=
  if isFile u && isFile (rootURL o)
  then PathPosix.relative (cwd P) (PathPosix.dirname (href (rootURL o))) target
  else target.

Definition transform_ref (o : LoadOptions) (subschemaURL v : string) : Result string :=
  if negb (Js.includes v "#") then Ok v
  else
    let '(url, parts) := parseRef v in
    if Js.truthy url then
      match new_URL P url None with
      | None => Err (InvalidURL url)
      | Some u =>
          if negb (String.eqb (href u) (href (rootURL o))) then
            (* scenario 1 *)
            Ok (emit_external (relative_id o u url) parts)
          else
            (* scenario 3 *)
            Ok (emit_root (collapse_properties parts))
      end
    else if negb (String.eqb subschemaURL (href (rootURL o))) then
      (* scenario 2 *)
      match new_URL P subschemaURL None with
      | None => Err (InvalidURL subschemaURL)
      | Some u => Ok (emit_external (relative_id o u subschemaURL) parts)
      end
    else
      (* scenario 3 *)
      Ok (emit_root (collapse_properties parts)).

Definition transform_reviver (o : LoadOptions) (subschemaURL : string)
    (k : Key) (v : Doc) : M unit Doc :=
  match v with
  | JString ref =>
      if is_ref_key k then
        match transform_ref o subschemaURL ref with
        | Ok ref' => ret (JString ref')
        | Err e => throw e
        end
      else ret v
  | _ => ret v
  end.

(** One turn of the loop over [Object.keys(schemas)]. *)
Definition transform_entry (o : LoadOptions) (subschemaURL : string)
    : M SchemaMap unit :=
  fun m =>
    match obj_get subschemaURL m with
    | Some (Value d) =>
        match internalize (transform_reviver o subschemaURL) KRoot d tt with
        | (Err e, _) => (Err e, m)
        | (Ok d', _) =>
            let m1 := obj_set subschemaURL (Value d') m in
            if negb (String.eqb subschemaURL (href (rootURL o))) then
              match new_URL P subschemaURL None with
              | None => (Err (InvalidURL subschemaURL), m1)
              | Some u =>
                  let relativeURL := relative_id o u subschemaURL in
                  if negb (String.eqb relativeURL subschemaURL) then
                    (Ok tt, obj_delete subschemaURL (obj_set relativeURL (Value d') m1))
                  else (Ok tt, m1)
              end
            else (Ok tt, m1)
        end
    | Some Undefined | None => (Err CloneError, m)
    end.

Fixpoint transform_keys (o : LoadOptions) (keys : list string) : M SchemaMap unit :=
  match keys with
  | [] => ret tt
  | subschemaURL :: rest =>
      do u <- transform_entry o subschemaURL; transform_keys o rest
  end.

Definition transform (o : LoadOptions) : M SchemaMap unit :=
  fun m => transform_keys o (obj_keys m) m.

(** *** [load] *)

(** [new URL(VIRTUAL_JSON_URL).href] is the reserved URL itself. *)
Definition schema_id (schema : Source) : string :=
  match schema with
  | SrcJSON _ => VIRTUAL_JSON_URL
  | SrcURL u => href u
  end.

Definition set_schema (schemaID : string) (v : OrUndefined Doc) (st : Store) : Store :=
  mkStore (obj_set schemaID v (schemas st)) (urlCache st) (events st).

(** [await Promise.all(refPromises)]: the started children run to their
    end one after the other, in the order they were started; the first
    rejection rejects the whole.  This is one of the orders in which the
    awaited reads and requests can complete.  The children that have not
    run when one fails are still in flight: the store next to the error is
    the store at the rejection. *)
Fixpoint join_all (run : URL -> M Store unit) (children : list URL) : M Store unit :=
  match children with
  | [] => ret tt
  | c :: rest => do u <- run c; join_all run rest
  end.

(** A call of [load] from the point where its document is at hand: the
    document is stored and scanned, the clone is stored, the children are
    awaited, and the root transforms.  [recur] is [load] on a child, from
    the point where the child's read or request has been started. *)
Definition load_document (recur : URL -> M Store unit) (o : LoadOptions)
    (schema : Source) (d : Doc) (st : Store) : Result unit * Store :=
  let schemaID := schema_id schema in
  let st1 := set_schema schemaID (Value d) st in
  match internalize (scan_reviver o schema) KRoot d (st1, []) with
  | (Err e, (st2, _)) => (Err e, st2)
  | (Ok d', (st2, refPromises)) =>
      let st3 := set_schema schemaID (Value d') st2 in
      match join_all recur refPromises st3 with
      | (Err e, st4) => (Err e, st4)
      | (Ok _, st4) =>
          if String.eqb schemaID (href (rootURL o)) then
            match transform o (schemas st4) with
            | (Ok _, m) => (Ok tt, mkStore m (urlCache st4) (events st4))
            | (Err e, m) => (Err e, mkStore m (urlCache st4) (events st4))
            end
          else (Ok tt, st4)
      end
  end.

(** The document of a call: the value passed in, or the decoded contents
    of the awaited read or request. *)
Definition obtain (o : LoadOptions) (schema : Source) : Result (OrUndefined Doc) :=
  match schema with
  | SrcJSON d => Ok (Value d)
  | SrcURL u =>
      match receive o u with
      | Ok (contents, contentType) => decode contents contentType
      | Err e => Err e
      end
  end.

(** A call of [load] after its first [await].  [fuel] bounds the length of
    the chains of documents that refer to one another.  When the decoder
    returned [undefined], that is stored, and the clone of line 170 throws. *)
Fixpoint load_rest (fuel : nat) (o : LoadOptions) (schema : Source) (st : Store)
    : Result unit * Store :=
  match fuel with
  | 0 => (Err OutOfFuel, st)
  | S fuel' =>
      match obtain o schema with
      | Err e => (Err e, st)
      | Ok Undefined => (Err CloneError, set_schema (schema_id schema) Undefined st)
      | Ok (Value d) =>
          load_document (fun c => load_rest fuel' o (SrcURL c)) o schema d st
      end
  end.

(** [load(schema, options)], on the store that holds [options.schemas] and
    [options.urlCache] (a new empty set when the option is absent).  The
    value returned is the shared [schemas] object. *)
Definition load (fuel : nat) (o : LoadOptions) (schema : Source) (st : Store)
    : Result SchemaMap * Store :=
  match schema with
  | SrcJSON _ =>
      match load_rest fuel o schema st with
      | (Ok _, st') => (Ok (schemas st'), st')
      | (Err e, st') => (Err e, st')
      end
  | SrcURL u =>
      let '(pending, st1) := load_begin o u st in
      if pending then
        match load_rest fuel o schema st1 with
        | (Ok _, st') => (Ok (schemas st'), st')
        | (Err e, st') => (Err e, st')
        end
      else (Ok (schemas st1), st1)
  end.

End Loader.

(** ** Vocabulary of the statements *)

(** The Reference Pointers of a document: the strings under a [$ref] key,
    in the order the reviver meets them. *)
Fixpoint pointers (d : Doc) : list string :=
  match d with
  | JArray items =>
      (fix elems (l : list Doc) : list string :=
         match l with
         | [] => []
         | x :: r => pointers x ++ elems r
         end) items
  | JObject props =>
      (fix fields (l : list (string * Doc)) : list string :=
         match l with
         | [] => []
         | (name, x) :: r =>
             pointers x
             ++ match x with
                | JString ref => if String.eqb name "$ref" then [ref] else []
                | _ => []
                end
             ++ fields r
         end) props
  | _ => []
  end.

(** The pointer a reviver is handed, when the value at key [k] is one. *)
Definition own_pointer (k : Key) (d : Doc) : list string :=
  match d with
  | JString ref => if is_ref_key k then [ref] else []
  | _ => []
  end.

Definition url_part (ref : string) : string := fst (parseRef ref).
Definition path_parts (ref : string) : list string := snd (parseRef ref).

(** The content types the loader knows. *)
Definition known_type (contentType : string) : Prop :=
  contentType ∈ ["application/openapi+yaml"; "text/yaml"; "application/json";
                 "application/json5"; "application/openapi+json"].

(** The key under which the transformation leaves the schema stored at
    [k]: the root keeps its key, another schema gets its relative key. *)
Definition final_key (P : Platform) (o : LoadOptions) (k : string) : option string :=
  if String.eqb k (href (rootURL o)) then Some k
  else
    match new_URL P k None with
    | Some u => Some (relative_id P o u k)
    | None => None
    end.

(** The relative keys of distinct schemas are distinct, and none of them
    is the key some schema has before the transformation. *)
Definition keys_compatible (P : Platform) (o : LoadOptions) (keys : list string) : Prop :=
  (forall k1 k2 r, k1 ∈ keys -> k2 ∈ keys ->
     final_key P o k1 = Some r -> final_key P o k2 = Some r -> k1 = k2)
  /\ (forall k k' r, k ∈ keys -> k' ∈ keys ->
        final_key P o k = Some r -> r <> k -> r <> k').

(** A name of a path: not empty, and not starting with a slash. *)
Definition is_name (x : string) : Prop :=
  match x with
  | EmptyString => False
  | String a _ => a <> "/"%char
  end.

(** In a map [m] reached from [m0] in the loop of the transformation:
    the schemas still to be visited are as they were. *)
Definition untouched (m0 : SchemaMap) (todo : list string) (m : SchemaMap) : Prop :=
  forall k, k ∈ todo -> obj_get k m = obj_get k m0.

(** The schemas visited are transformed and stored under their final
    key, and their former key is gone when the two differ. *)
Definition moved (P : Platform) (o : LoadOptions) (m0 : SchemaMap)
    (done : list string) (m : SchemaMap) : Prop :=
  forall k d, k ∈ done -> obj_get k m0 = Some (Value d) ->
    exists r d',
      final_key P o k = Some r
      /\ internalize (transform_reviver P o k) KRoot d tt = (Ok d', tt)
      /\ obj_get r m = Some (Value d')
      /\ (r <> k -> obj_get k m = None).

(** Every key is one still to be visited or the final key of one visited. *)
Definition accounted (P : Platform) (o : LoadOptions)
    (done todo : list string) (m : SchemaMap) : Prop :=
  forall x, obj_get x m <> None ->
    x ∈ todo \/ exists k, k ∈ done /\ final_key P o k = Some x.

(** A pointer to another document that is not given by a remote URL. *)
Definition relative_pointer (ref : string) : Prop :=
  url_part ref <> "" /\ is_remote (url_part ref) = false.

(** A pointer whose url-part, when remote, is accepted by [new URL]. *)
Definition valid_remote (P : Platform) (ref : string) : Prop :=
  is_remote (url_part ref) = true -> new_URL P (url_part ref) None <> None.

(** The error of a relative reference in a document passed in. *)
Definition unresolvable (e : LoadError) : Prop :=
  exists ref, relative_pointer ref
    /\ e = UnresolvableReference (cannot_load_dynamic (url_part ref)).

Definition not_unresolvable (e : LoadError) : Prop :=
  forall msg, e <> UnresolvableReference msg.

(** Nothing leaves the set of visited URLs. *)
Definition cache_grows (st st' : Store) : Prop := urlCache st ⊆ urlCache st'.

(** The URLs read or requested, in order. *)
Fixpoint io_targets (es : list Event) : list string :=
  match es with
  | [] => []
  | EvReadFile target :: r => target :: io_targets r
  | EvFetch target _ _ :: r => target :: io_targets r
  | EvWarn _ :: r => io_targets r
  end.

(** No URL was read or requested twice, and all that were are in the set
    of visited URLs. *)
Definition fetched_once (st : Store) : Prop :=
  NoDup (io_targets (events st))
  /\ forall target, target ∈ io_targets (events st) -> target ∈ urlCache st.

(** The headers given by the caller, coerced by [parseHttpHeaders]. *)
Definition custom_headers (P : Platform) (o : LoadOptions) : Headers :=
  match httpHeaders o with
  | Some custom => fst (parseHttpHeaders P custom)
  | None => []
  end.

(** A string with no dollar sign. *)
Fixpoint plain (s : string) : bool :=
  match s with
  | EmptyString => true
  | String c r => negb (Ascii.eqb c "$") && plain r
  end.

(** [["p1"]["p2"]...], one bracket for each Part. *)
Fixpoint brackets (parts : list string) : string :=
  match parts with
  | [] => ""
  | p :: r => bracket p +:+ brackets r
  end.

(** The form of an external reference: [external["id"]["p1"]["p2"]...]. *)
Definition external_form (id : string) (parts : list string) : string :=
  "external" +:+ bracket id +:+ brackets parts.

(** The form of a reference into the root: [p1["p2"]["p3"]...]. *)
Definition root_form (base : string) (rest : list string) : string :=
  base +:+ brackets rest.

(** ** A small runtime for the examples

    It stands for Node on the few inputs the examples use: URLs are given
    in canonical form, a relative reference is a file name next to its
    base, and the decoders know a handful of texts. *)
Module Demo.

Definition scheme_of (input : string) : option string :=
  if Js.startsWith input "http://" then Some "http:"
  else if Js.startsWith input "https://" then Some "https:"
  else if Js.startsWith input "file:///" then Some "file:"
  else None.

(** An [http] URL needs a host: [new URL("http://")] throws. *)
Definition has_host (input : string) : bool :=
  match Js.strip_prefix "http://" input, Js.strip_prefix "https://" input with
  | Some r, _ => Js.truthy r
  | _, Some r => Js.truthy r
  | _, _ => true
  end.

Definition parse_url (input : string) (base : option URL) : option URL :=
  match scheme_of input with
  | Some p => if has_host input then Some (mkURL input p) else None
  | None =>
      match base with
      | Some b =>
          let name :=
            match Js.strip_prefix "./" input with Some r => r | None => input end in
          Some (mkURL (PathPosix.dirname (href b) +:+ "/" +:+ name) (protocol b))
      | None => None
      end
  end.

Definition decode_with (table : list (string * Doc)) (text : string) : string + Doc :=
  match obj_get text table with
  | Some d => inr d
  | None => inl "SyntaxError: unexpected input"
  end.

Definition ref (s : string) : Doc := JObject [("$ref", JString s)].

(** The texts [JSON.parse] accepts, and what they decode to. *)
Definition json_texts : list (string * Doc) :=
  [ ("<a.json>",
     JObject [("dog", ref "./b.json#/components/schemas/Dog");
              ("name", ref "#/components/schemas/Pet/properties/name")]);
    ("<b.json>", JObject [("cat", ref "#/components/schemas/Cat")]);
    ("<c.json>", JObject [("pet", ref "https://example.com/pet.json#/Pet")]);
    ("<e.json>", JObject [("x", ref "./broken#/x")]);
    ("<pet.json>", JObject [("type", JString "object")]) ].

(** The texts only [yaml.load] accepts. *)
Definition yaml_texts : list (string * Doc) :=
  [ ("<d.yaml>", JObject [("openapi", JString "3.0.0")]) ].

(** [yaml.load]: an empty text has no value. *)
Definition yaml (text : string) : string + OrUndefined Doc :=
  if String.eqb text "" then inr Undefined
  else
    match decode_with (json_texts ++ yaml_texts) text with
    | inr d => inr (Value d)
    | inl err => inl err
    end.

Definition files : list (string * string) :=
  [ ("file:///specs/a.json", "<a.json>");
    ("file:///specs/b.json", "<b.json>");
    ("file:///specs/c.json", "<c.json>");
    ("file:///specs/d", "<d.yaml>");
    ("file:///specs/e.json", "<e.json>");
    ("file:///specs/broken", "<<<");
    ("file:///specs/empty", "") ].

Definition remote : list (string * (option string * string)) :=
  [ ("https://example.com/pet.json", (Some "application/json", "<pet.json>"));
    ("https://example.com/a$&b.json", (Some "application/json", "<pet.json>")) ].

Definition stringify (d : Doc) : string :=
  match d with
  | JNull => "null"
  | JBool true => "true"
  | JBool false => "false"
  | JNumber n => pretty n
  | JString s => Js.dq +:+ s +:+ Js.dq
  | JArray _ => "[...]"
  | JObject _ => "{...}"
  end.

Definition platform : Platform := {|
  new_URL := parse_url;
  slash := fun s => s;
  cwd := "/home/user";
  fs_readFile := fun u => obj_get (href u) files;
  mime_getType := fun s => if Js.includes s ".json" then Some "application/json" else None;
  fetch := fun target method headers => obj_get target remote;
  JSON_parse := decode_with json_texts;
  yaml_load := yaml;
  JSON_stringify := stringify
|}.

Definition file_url (path : string) : URL := mkURL path "file:".

Definition options_for (root : URL) : LoadOptions :=
  {| rootURL := root; auth := None; httpHeaders := None; httpMethod := None |}.

Definition root_a : URL := file_url "file:///specs/a.json".
Definition root_c : URL := file_url "file:///specs/c.json".
Definition pet_url : URL := mkURL "https://example.com/pet.json" "https:".

Definition options_auth : LoadOptions :=
  {| rootURL := pet_url; auth := Some "secret"; httpHeaders := None;
     httpMethod := None |}.

(** The caller gives a header named as the loader's own. *)
Definition options_override : LoadOptions :=
  {| rootURL := pet_url; auth := Some "secret";
     httpHeaders := Some [("Authorizaton", AnyJson (JString "other"))];
     httpMethod := None |}.

Definition root_e : URL := file_url "file:///specs/e.json".

Definition empty : Store := mkStore [] ∅ [].

(** A store in which the reserved URL of in-memory documents is visited. *)
Definition virtual_visited : Store := mkStore [] {[VIRTUAL_JSON_URL]} [].

(** The schemas of [a.json] and [b.json] after the scan. *)
Definition scanned_ab : SchemaMap :=
  [ ("file:///specs/a.json",
     Value (JObject [("dog", ref "file:///specs/b.json#/components/schemas/Dog")]));
    ("file:///specs/b.json",
     Value (JObject [("cat", ref "#/components/schemas/Cat")])) ].

(** The same schemas after the transformation at the root [a.json]. *)
Definition transformed_ab : SchemaMap :=
  [ ("file:///specs/a.json",
     Value (JObject [("dog", ref (external_form "b.json"
                                    ["components"; "schemas"; "Dog"]))]));
    ("b.json",
     Value (JObject [("cat", ref (external_form "b.json"
                                    ["components"; "schemas"; "Cat"]))])) ].

(** Documents passed in by the caller. *)
Definition doc_remote : Doc := JObject [("pet", ref "https://example.com/pet.json#/Pet")].
Definition doc_relative : Doc := JObject [("pet", ref "./b.json#/Pet")].
Definition doc_invalid_first : Doc :=
  JObject [("a", ref "http://#/x"); ("b", ref "./b.json#/y")].
Definition doc_dollar : Doc := JObject [("pet", ref "https://example.com/a$&b.json#/Pet")].

(** A document that refers to a remote document that is not there. *)
Definition doc_missing : Doc := JObject [("x", ref "https://example.com/missing.json#/X")].



(** The reserved URL as root, for a document passed in. *)
Definition root_virtual : URL := file_url VIRTUAL_JSON_URL.

End Demo.

(** ** [resolveSchema] (lines 37-55) *)

(** What [resolveSchema] can throw: the error of the URL constructor and
    its own two errors, with their messages. *)
Inductive ResolveError : Type :=
  | BadURL (input : string)
  | CouldNotLocate (msg : string)
  | IsDirectory (msg : string).

(** The file system and the native [path] module, as [resolveSchema]
    uses them. *)
Record Files : Type := {
  (** [path.isAbsolute(p)] *)
  path_isAbsolute : string -> bool;
  (** [fs.existsSync(url)] *)
  fs_existsSync : URL -> bool;
  (** [fs.statSync(url).isDirectory()] *)
  fs_isDirectory : URL -> bool
}.

(** [new URL(input, base)] with a string for base: the base is parsed
    first, and the constructor throws when either part is rejected. *)
Definition new_URL_on (P : Platform) (input base : string) : option URL :=
  match new_URL P base None with
  | Some b => new_URL P input (Some b)
  | None => None
  end.

(** [localPath] (lines 44-46): an absolute path is used as it is, another
    one is looked for in the current directory. *)
Definition local_path (P : Platform) (F : Files) (url : string) : option URL :=
  if path_isAbsolute F url
  then new_URL_on P "" ("file://" +:+ slash P url)
  else new_URL_on P url ("file://" +:+ slash P (cwd P) +:+ "/").

Definition resolveSchema (P : Platform) (F : Files) (url : string)
    : ResolveError + URL :=
  (* option 1: remote *)
  if Js.startsWith url "http://" || Js.startsWith url "https://" then
    match new_URL P url None with
    | Some u => inr u
    | None => inl (BadURL url)
    end
  else
    (* option 2: local *)
    match local_path P F url with
    | None => inl (BadURL url)
    | Some localPath =>
        if negb (fs_existsSync F localPath) then
          inl (CouldNotLocate ("Could not locate " +:+ url))
        else if fs_isDirectory F localPath then
          inl (IsDirectory (href localPath +:+ " is a directory not a file"))
        else inr localPath
    end.

(** ** More vocabulary *)




(** The YAML and the JSON content types. *)
Definition yaml_type (contentType : string) : Prop :=
  contentType = "application/openapi+yaml" \/ contentType = "text/yaml".

Definition json_type (contentType : string) : Prop :=
  contentType = "application/json" \/ contentType = "application/json5"
  \/ contentType = "application/openapi+json".

(** A file name: one name with no slash, other than the two dots. *)
Definition plain_name (x : string) : Prop :=
  Js.split "/" x = [x] /\ x <> "" /\ x <> "." /\ x <> "..".

(** A pointer into its own document. *)
Definition local_pointer (ref : string) : Prop := url_part ref = "".

(** A pointer already transformed: it has no fragment delimiter. *)
Definition transformed_pointer (ref : string) : Prop := Js.includes ref "#" = false.

(** The URL of the child a pointer of [schema] refers to is visited. *)
Definition target_visited (P : Platform) (schema : Source) (cache : gset string)
    (ref : string) : Prop :=
  url_part ref = ""
  \/ exists nextURL, next_URL P schema (url_part ref) = Some nextURL
                     /\ href nextURL ∈ cache.

(** Between two stores of a session: the set of visited URLs has grown,
    and, unless the root is visited by now, so have the keys of the
    schemas. *)
Definition keys_kept (o : LoadOptions) (st st' : Store) : Prop :=
  urlCache st ⊆ urlCache st'
  /\ (href (rootURL o) ∈ urlCache st'
      \/ forall k, k ∈ obj_keys (schemas st) -> k ∈ obj_keys (schemas st')).

(** The children to await have all been started. *)
Definition children_started (s : Store * list URL) : Prop :=
  forall c, c ∈ snd s -> href c ∈ urlCache (fst s).

(** The source of a call that has been started. *)
Definition call_started (o : LoadOptions) (schema : Source) (st : Store) : Prop :=
  match schema with
  | SrcURL u => href u ∈ urlCache st
  | SrcJSON _ => href (rootURL o) <> VIRTUAL_JSON_URL
  end.

(** A second runtime for the examples of [resolveSchema]: as [Demo]'s,
    with the empty reference resolved to its base and a directory for
    base. *)
Module Demo2.

Fixpoint ends_with_slash (s : string) : bool :=
  match s with
  | EmptyString => false
  | String c EmptyString => Ascii.eqb c "/"
  | String _ r => ends_with_slash r
  end.

(** A name relative to a base that is a directory is a file in it. *)
Definition parse_url (input : string) (base : option URL) : option URL :=
  if String.eqb input "" then base
  else
    match Demo.scheme_of input, base with
    | None, Some b =>
        if ends_with_slash (href b)
        then Some (mkURL (href b +:+ input) (protocol b))
        else Demo.parse_url input base
    | _, _ => Demo.parse_url input base
    end.

Definition platform : Platform := {|
  new_URL := parse_url;
  slash := fun s => s;
  cwd := "/specs";
  fs_readFile := fun u => obj_get (href u) Demo.files;
  mime_getType := fun s => if Js.includes s ".json" then Some "application/json" else None;
  fetch := fun target method headers => obj_get target Demo.remote;
  JSON_parse := Demo.decode_with Demo.json_texts;
  yaml_load := Demo.yaml;
  JSON_stringify := Demo.stringify
|}.

(** The files of [Demo], and the directory they are in. *)
Definition files : Files := {|
  path_isAbsolute := fun p => Js.startsWith p "/";
  fs_existsSync := fun u =>
    match obj_get (href u) Demo.files with
    | Some _ => true
    | None => String.eqb (href u) "file:///specs"
    end;
  fs_isDirectory := fun u => String.eqb (href u) "file:///specs"
|}.

(** A store in which [b.json] is visited. *)
Definition b_visited : Store := mkStore [] {["file:///specs/b.json"]} [].

End Demo2.

(** ** Vocabulary of the statements on whole loads *)

(** The pointer the scan leaves for the pointer [ref] of a document of
    [schema]: the url-part, when there is one that resolves, is replaced
    by the URL of the child. *)
Definition rewrite_pointer (P : Platform) (schema : Source) (ref : string) : string :=
  if Js.truthy (url_part ref) then
    match next_URL P schema (url_part ref) with
    | Some nextURL => Js.replace ref (url_part ref) (href nextURL)
    | None => ref
    end
  else ref.

(** A document with [f] applied to each of its pointers, and nothing else
    changed. *)
Fixpoint map_pointers (f : string -> string) (d : Doc) : Doc :=
  match d with
  | JArray items =>
      JArray ((fix elems (l : list Doc) : list Doc :=
                 match l with
                 | [] => []
                 | x :: r => map_pointers f x :: elems r
                 end) items)
  | JObject props =>
      JObject ((fix fields (l : list (string * Doc)) : list (string * Doc) :=
                  match l with
                  | [] => []
                  | (name, x) :: r =>
                      (name,
                       match x with
                       | JString ref =>
                           if String.eqb name "$ref" then JString (f ref) else x
                       | _ => map_pointers f x
                       end) :: fields r
                  end) props)
  | _ => d
  end.

(** The value a reviver that applies [f] to the pointers returns at the
    key [k]. *)
Definition map_at (f : string -> string) (k : Key) (d : Doc) : Doc :=
  match d with
  | JString ref => if is_ref_key k then JString (f ref) else d
  | _ => map_pointers f d
  end.



(** The source of a call that has been started, with the URLs in [cache]
    visited. *)
Definition visited (cache : gset string) (schema : Source) : Prop :=
  match schema with
  | SrcURL u => href u ∈ cache
  | SrcJSON _ => True
  end.

(** The errors the steps of a load throw, when the URLs in [cache] are
    visited: the error of the read, the request or the decoder of a visited
    document; that of the clone of [undefined], when that is what the
    decoder returned; the error of the scan of a visited document; and the
    error of a transformation.  ([OutOfFuel] is the model's.) *)
Definition raised (P : Platform) (o : LoadOptions) (cache : gset string)
    (e : LoadError) : Prop :=
  (exists schema, visited cache schema /\ obtain P o schema = Err e)
  \/ (exists schema,
        visited cache schema /\ obtain P o schema = Ok Undefined /\ e = CloneError)
  \/ (exists schema d s s',
        visited cache schema /\ obtain P o schema = Ok (Value d)
        /\ internalize (scan_reviver P o schema) KRoot d s = (Err e, s'))
  \/ (exists m m', transform P o m = (Err e, m'))
  \/ e = OutOfFuel.





(** The load of every document a pointer of [d] refers to ends well, in
    whatever store it is run. *)
Definition children_load (P : Platform) (fuel : nat) (o : LoadOptions)
    (schema : Source) (d : Doc) : Prop :=
  forall ref, ref ∈ pointers d -> url_part ref <> "" ->
    exists c,
      next_URL P schema (url_part ref) = Some c
      /\ forall st, exists st', load_rest P fuel o (SrcURL c) st = (Ok tt, st').

(** * Properties *)

(** ** JavaScript strings *)

#[local] Arguments String.append !_ _ : simpl nomatch.

Lemma app_assoc_s (a b c : string) : (a +:+ b) +:+ c = a +:+ b +:+ c.
Proof. induction a as [|x a IH]; simpl; [reflexivity | f_equal; exact IH]. Qed.

Lemma app_empty_r (a : string) : a +:+ "" = a.
Proof. induction a as [|x a IH]; simpl; [reflexivity | f_equal; exact IH]. Qed.

Lemma strip_prefix_app (p r : string) : Js.strip_prefix p (p +:+ r) = Some r.
Proof.
  induction p as [|a p IH]; simpl; [reflexivity|].
  now rewrite Ascii.eqb_refl.
Qed.

Lemma strip_prefix_Some (p s r : string) :
  Js.strip_prefix p s = Some r -> s = p +:+ r.
Proof.
  revert s; induction p as [|a p IH]; simpl; intros s H.
  - now inversion H.
  - destruct s as [|b s]; [discriminate|].
    destruct (Ascii.eqb_spec a b) as [->|]; [|discriminate].
    now rewrite (IH _ H).
Qed.

Lemma find_sub_Some (p s b r : string) :
  Js.find_sub p s = Some (b, r) -> s = b +:+ p +:+ r.
Proof.
  revert b; induction s as [|c s IH]; intros b; simpl.
  - destruct (Js.strip_prefix p "") eqn:E; [|discriminate].
    intros [= <- <-]. now apply strip_prefix_Some in E.
  - destruct (Js.strip_prefix p (String c s)) eqn:E.
    + intros [= <- <-]. now apply strip_prefix_Some in E.
    + destruct (Js.find_sub p s) as [[b' r']|]; [|discriminate].
      intros [= <- <-]. simpl. now rewrite <- (IH b').
Qed.

Lemma find_sub_here (p r : string) : Js.find_sub p (p +:+ r) = Some ("", r).
Proof.
  destruct (p +:+ r) eqn:E; simpl; rewrite <- E, strip_prefix_app; reflexivity.
Qed.


Lemma get_substitution_plain (matched before after rep : string) :
  plain rep = true -> Js.get_substitution matched before after rep = rep.
Proof.
  induction rep as [|c rep IH]; simpl; [reflexivity|].
  intros [Hc Hr]%andb_prop. apply negb_true_iff in Hc. rewrite Hc.
  now rewrite IH.
Qed.

Lemma replace_prefix (p r rep : string) :
  Js.replace (p +:+ r) p rep = Js.get_substitution p "" r rep +:+ r.
Proof. unfold Js.replace. now rewrite find_sub_here. Qed.

Lemma join_brackets (p : string) (r : list string) :
  "[" +:+ Js.dq +:+ Js.join bracket_sep (p :: r) +:+ Js.dq +:+ "]" = brackets (p :: r).
Proof.
  revert p; induction r as [|q r IH]; intros p.
  - simpl. now rewrite app_empty_r.
  - change (Js.join bracket_sep (p :: q :: r))
      with (p +:+ bracket_sep +:+ Js.join bracket_sep (q :: r)).
    change (brackets (p :: q :: r)) with (bracket p +:+ brackets (q :: r)).
    rewrite <- IH. unfold bracket, bracket_sep, Js.dq. simpl.
    rewrite !app_assoc_s. reflexivity.
Qed.

Lemma join_empty_brackets :
  "[" +:+ Js.dq +:+ Js.join bracket_sep [] +:+ Js.dq +:+ "]" = bracket "".
Proof. reflexivity. Qed.

(** ** Objects *)

Section ObjFacts.
Context {V : Type}.
Implicit Types (o : list (string * V)) (k : string) (v : V).

Lemma obj_get_set_eq k v o : obj_get k (obj_set k v o) = Some v.
Proof.
  induction o as [|[k' v'] o IH]; simpl.
  - now rewrite String.eqb_refl.
  - destruct (String.eqb k k') eqn:E; simpl.
    + now rewrite String.eqb_refl.
    + now rewrite E.
Qed.

Lemma obj_get_set_ne k k' v o : k <> k' -> obj_get k' (obj_set k v o) = obj_get k' o.
Proof.
  intros Hne. induction o as [|[k2 v2] o IH]; simpl.
  - apply String.eqb_neq in Hne. rewrite String.eqb_sym in Hne. now rewrite Hne.
  - destruct (String.eqb_spec k k2) as [->|Hk]; simpl.
    + destruct (String.eqb_spec k' k2) as [->|]; [congruence | reflexivity].
    + destruct (String.eqb k' k2); [reflexivity | exact IH].
Qed.

Lemma obj_get_delete_eq k o : obj_get k (obj_delete k o) = None.
Proof.
  induction o as [|[k' v'] o IH]; simpl; [reflexivity|].
  destruct (String.eqb k k') eqn:E; simpl; [exact IH | now rewrite E].
Qed.

Lemma obj_get_delete_ne k k' o : k <> k' -> obj_get k' (obj_delete k o) = obj_get k' o.
Proof.
  intros Hne. induction o as [|[k2 v2] o IH]; simpl; [reflexivity|].
  destruct (String.eqb_spec k k2) as [->|Hk]; simpl.
  - destruct (String.eqb_spec k' k2) as [->|]; [congruence | exact IH].
  - destruct (String.eqb k' k2); [reflexivity | exact IH].
Qed.

Lemma obj_get_Some_keys k v o : obj_get k o = Some v -> k ∈ obj_keys o.
Proof.
  induction o as [|[k' v'] o IH]; simpl; [discriminate|].
  destruct (String.eqb_spec k k') as [->|]; intros H.
  - apply list_elem_of_here.
  - apply list_elem_of_further, IH, H.
Qed.

Lemma obj_get_None_keys k o : obj_get k o = None <-> k ∉ obj_keys o.
Proof.
  induction o as [|[k' v'] o IH]; simpl.
  - split; [intros _; apply not_elem_of_nil | reflexivity].
  - destruct (String.eqb_spec k k') as [->|Hne].
    + split; [discriminate|]. intros H. exfalso. apply H, list_elem_of_here.
    + rewrite IH. rewrite not_elem_of_cons. tauto.
Qed.

Lemma obj_get_elem_of k v o :
  NoDup (obj_keys o) -> (k, v) ∈ o -> obj_get k o = Some v.
Proof.
  induction o as [|[k' v'] o IH]; simpl; intros Hnd Hin.
  - now apply elem_of_nil in Hin.
  - apply NoDup_cons in Hnd as [Hk' Hnd].
    apply elem_of_cons in Hin as [[= <- <-]|Hin].
    + now rewrite String.eqb_refl.
    + destruct (String.eqb_spec k k') as [->|]; [|now apply IH].
      exfalso. apply Hk'. apply list_elem_of_fmap. now exists (k', v).
Qed.
End ObjFacts.

(** ** The choice of decoder *)

Lemma decode_unknown_type (P : Platform) (contents contentType : string) :
  ~ known_type contentType ->
  decode P contents contentType =
    match parseSchema P contents JSON with
    | Ok d => Ok d
    | Err _ =>
        match parseSchema P contents YAML with
        | Ok d => Ok d
        | Err _ => Err (UnknownFormat (unknown_format contentType))
        end
    end.
Proof.
  intros Hk. unfold decode.
  assert (forall t, t ∈ ["application/openapi+yaml"; "text/yaml"; "application/json";
                         "application/json5"; "application/openapi+json"] ->
                    String.eqb contentType t = false) as Hne.
  { intros t Ht. apply String.eqb_neq. intros ->. exact (Hk Ht). }
  rewrite !Hne by (repeat (first [apply list_elem_of_here | apply list_elem_of_further])).
  reflexivity.
Qed.

(** ** HTTP headers *)

Lemma obj_keys_set {V} (k k' : string) (v : V) (o : list (string * V)) :
  k' ∈ obj_keys (obj_set k v o) <-> k' = k \/ k' ∈ obj_keys o.
Proof.
  induction o as [|[k2 v2] o IH]; simpl.
  - rewrite list_elem_of_singleton. split; [auto|]. intros [?|H]; [auto|].
    now apply elem_of_nil in H.
  - destruct (String.eqb_spec k k2) as [->|Hne]; simpl; rewrite !elem_of_cons.
    + tauto.
    + unfold obj_keys in IH. rewrite IH. tauto.
Qed.

Lemma obj_set_NoDup {V} (k : string) (v : V) (o : list (string * V)) :
  NoDup (obj_keys o) -> NoDup (obj_keys (obj_set k v o)).
Proof.
  induction o as [|[k2 v2] o IH]; simpl; intros Hnd.
  - apply NoDup_singleton.
  - apply NoDup_cons in Hnd as [Hk2 Hnd].
    destruct (String.eqb_spec k k2) as [->|Hne]; simpl.
    + apply NoDup_cons. split; assumption.
    + apply NoDup_cons. split; [|now apply IH].
      intros H. apply (obj_keys_set k k2 v o) in H as [?|?]; [congruence | contradiction].
Qed.

Section HeaderFacts.
Context (P : Platform).






Lemma parse_from_NoDup entries acc w :
  NoDup (obj_keys acc) ->
  NoDup (obj_keys (fst (parseHttpHeaders_from P entries acc w))).
Proof.
  revert acc w; induction entries as [|[k0 v0] rest IH]; intros acc w Hnd; simpl.
  - exact Hnd.
  - destruct v0 as [d| |]; [destruct d| |]; apply IH;
      try exact Hnd; now apply obj_set_NoDup.
Qed.

Lemma assign_all_get (entries headers : Headers) (k : string) :
  NoDup (obj_keys entries) ->
  obj_get k (assign_all entries headers) =
    match obj_get k entries with
    | Some v => Some v
    | None => obj_get k headers
    end.
Proof.
  revert headers; induction entries as [|[k0 v0] rest IH]; intros headers Hnd; simpl.
  - reflexivity.
  - simpl in Hnd. apply NoDup_cons in Hnd as [Hk0 Hnd]. rewrite IH by exact Hnd.
    destruct (String.eqb_spec k k0) as [->|Hne].
    + apply obj_get_None_keys in Hk0. rewrite Hk0. apply obj_get_set_eq.
    + destruct (obj_get k rest); [reflexivity|].
      apply obj_get_set_ne. congruence.
Qed.

(** The headers given by the caller, after [parseHttpHeaders]. *)
Lemma request_headers_get (o : LoadOptions) (k : string) :
  obj_get k (fst (request_headers P o)) =
    match obj_get k (custom_headers P o) with
    | Some v => Some v
    | None => obj_get k (own_headers o)
    end.
Proof.
  unfold request_headers, custom_headers. destruct (httpHeaders o) as [custom|].
  - pose proof (parse_from_NoDup custom [] [] (NoDup_nil_2)) as Hnd.
    unfold parseHttpHeaders.
    destruct (parseHttpHeaders_from P custom [] []) as [parsed warns]. simpl in *.
    now apply assign_all_get.
  - reflexivity.
Qed.

End HeaderFacts.




(** C10 as amended: with a non-empty [auth], the headers the loader sets
    by itself hold the token under the key [Authorizaton] and nothing
    under [Authorization]; the headers of the request are these, overridden
    by the headers of the caller: the token is sent under [Authorizaton]
    unless the caller gives a header of that very name, and a header
    [Authorization] is sent only when the caller gives one.  These are the
    headers of the request that a call on a remote URL starts. *)
Theorem C10_auth_header (P : Platform) (o : LoadOptions) (token : string) :
  auth o = Some token -> token <> "" ->
  obj_get "Authorizaton" (own_headers o) = Some (Value token)
  /\ obj_get "Authorization" (own_headers o) = None
  /\ obj_get "Authorizaton" (fst (request_headers P o))
     = Some (default (Value token) (obj_get "Authorizaton" (custom_headers P o)))
  /\ obj_get "Authorization" (fst (request_headers P o))
     = obj_get "Authorization" (custom_headers P o)
  /\ forall (u : URL) (st : Store),
       isFile u = false -> href u ∉ urlCache st ->
       events (snd (load_begin P o u st))
       = events st ++ map EvWarn (snd (request_headers P o))
         ++ [EvFetch (href u) (request_method o) (fst (request_headers P o))].
Proof.
  intros Hauth Htok.
  assert (own_headers o =
          [("User-Agent", Value "openapi-typescript"); ("Authorizaton", Value token)])
    as Hown.
  { unfold own_headers. rewrite Hauth. destruct token; [congruence | reflexivity]. }
  split; [now rewrite Hown|]. split; [now rewrite Hown|].
  split; [|split].
  - rewrite request_headers_get. rewrite Hown.
    destruct (obj_get "Authorizaton" (custom_headers P o)); reflexivity.
  - rewrite request_headers_get. rewrite Hown.
    destruct (obj_get "Authorization" (custom_headers P o)); reflexivity.
  - intros u st Hf Hc. unfold load_begin.
    rewrite decide_False by exact Hc. rewrite Hf.
    destruct (request_headers P o) as [headers warns]. reflexivity.
Qed.

Lemma C10_auth_header_witness :
  obj_get "Authorizaton" (fst (request_headers Demo.platform Demo.options_auth))
  = Some (Value "secret")
  /\ obj_get "Authorization" (fst (request_headers Demo.platform Demo.options_auth))
     = None.
Proof.
  assert ("secret" <> "") as Hne by discriminate.
  pose proof (C10_auth_header Demo.platform Demo.options_auth "secret" eq_refl Hne)
    as (_ & _ & H1 & H2 & _).
  split; [exact H1 | exact H2].
Defined.

(** C10 as stated fails when the caller gives a header [Authorizaton]:
    the request carries that value, and the token nowhere. *)
Lemma C10_counterexample :
  auth Demo.options_override = Some "secret"
  /\ events (snd (load_begin Demo.platform Demo.options_override Demo.pet_url Demo.empty))
     = [EvFetch "https://example.com/pet.json" "GET"
          [("User-Agent", Value "openapi-typescript"); ("Authorizaton", Value "other")]]
  /\ obj_get "Authorizaton"
       (fst (request_headers Demo.platform Demo.options_override))
     <> Some (Value "secret").
Proof. split; [reflexivity|]. split; [reflexivity|]. discriminate. Qed.

(** ** The transformation of one reference *)

Lemma parseRef_url_includes (ref url : string) (parts : list string) :
  parseRef ref = (url, parts) -> url <> "" \/ parts <> [] ->
  Js.includes ref "#" = true.
Proof.
  unfold parseRef, Js.includes. destruct (Js.find_sub "#" ref) as [[u f]|].
  - reflexivity.
  - intros [= <- <-]. intros [H|H]; congruence.
Qed.

Lemma truthy_ne (s : string) : s <> "" -> Js.truthy s = true.
Proof. destruct s; [congruence | reflexivity]. Qed.

Lemma emit_external_form (id : string) (parts : list string) :
  emit_external id parts =
    match parts with
    | [] => "external" +:+ bracket id +:+ bracket ""
    | _ => external_form id parts
    end.
Proof.
  destruct parts as [|p r].
  - unfold emit_external, bracket, Js.dq. simpl. now rewrite !app_assoc_s.
  - unfold external_form. rewrite <- join_brackets. unfold emit_external, bracket.
    simpl. now rewrite !app_assoc_s.
Qed.

Lemma emit_root_form (base : string) (rest : list string) :
  emit_root (base :: rest) =
    match rest with
    | [] => base +:+ bracket ""
    | _ => root_form base rest
    end.
Proof.
  destruct rest as [|p r].
  - reflexivity.
  - unfold root_form. rewrite <- join_brackets. reflexivity.
Qed.

Lemma collapse_properties_middle (pre : list string) (last : string) :
  collapse_properties (pre ++ ["properties"; last]) = pre ++ [last].
Proof.
  unfold collapse_properties. rewrite length_app.
  change (length ["properties"; last]) with 2.
  replace (length pre + 2 - 2) with (length pre) by lia.
  replace (Nat.leb 2 (length pre + 2)) with true
    by (symmetry; apply Nat.leb_le; lia).
  rewrite list_lookup_middle by reflexivity.
  rewrite String.eqb_refl. apply delete_middle.
Qed.

(** C1 as amended: a reference with a url-part whose URL is not the one
    of the root becomes [external["id"]["p1"]["p2"]...] with its Parts in
    order, when it has at least one Part; with no Part it becomes
    [external["id"][""]].  The [id] is the url-part, made relative to the
    directory of the root when both are file URLs. *)
Theorem C1_external_reference (P : Platform) (o : LoadOptions)
    (subschemaURL ref url : string) (parts : list string) (u : URL) :
  parseRef ref = (url, parts) ->
  url <> "" ->
  new_URL P url None = Some u ->
  href u <> href (rootURL o) ->
  let id :=
    if isFile u && isFile (rootURL o)
    then PathPosix.relative (cwd P) (PathPosix.dirname (href (rootURL o))) url
    else url in
  transform_reviver P o subschemaURL (KProp "$ref") (JString ref) tt =
    (Ok (JString match parts with
                 | [] => "external" +:+ bracket id +:+ bracket ""
                 | _ => external_form id parts
                 end), tt).
Proof.
  intros Hp Hurl Hu Hne id.
  unfold transform_reviver. cbn [is_ref_key]. rewrite String.eqb_refl.
  unfold transform_ref.
  rewrite (parseRef_url_includes _ _ _ Hp) by now left.
  cbn [negb]. rewrite Hp, (truthy_ne _ Hurl), Hu.
  apply String.eqb_neq in Hne. rewrite Hne. cbn [negb].
  unfold relative_id. fold id. now rewrite emit_external_form.
Qed.

Lemma C1_external_reference_witness :
  transform_reviver Demo.platform (Demo.options_for Demo.root_a)
    "file:///specs/a.json" (KProp "$ref")
    (JString "file:///specs/b.json#/components/schemas/Dog") tt
  = (Ok (JString (external_form "b.json" ["components"; "schemas"; "Dog"])), tt).
Proof.
  apply (C1_external_reference Demo.platform (Demo.options_for Demo.root_a)
           "file:///specs/a.json" "file:///specs/b.json#/components/schemas/Dog"
           "file:///specs/b.json" ["components"; "schemas"; "Dog"]
           (Demo.file_url "file:///specs/b.json"));
    [reflexivity | discriminate | reflexivity | discriminate].
Defined.

(** C1 as stated fails for a reference with no Part: the code emits one
    bracket with the empty string, where the stated form has none. *)
Lemma C1_counterexample :
  parseRef "https://example.com/pet.json#" = ("https://example.com/pet.json", [])
  /\ new_URL Demo.platform "https://example.com/pet.json" None = Some Demo.pet_url
  /\ href Demo.pet_url <> href Demo.root_a
  /\ transform_reviver Demo.platform (Demo.options_for Demo.root_a)
       "file:///specs/a.json" (KProp "$ref")
       (JString "https://example.com/pet.json#") tt
     = (Ok (JString ("external" +:+ bracket "https://example.com/pet.json"
                     +:+ bracket "")), tt)
  /\ "external" +:+ bracket "https://example.com/pet.json" +:+ bracket ""
     <> external_form "https://example.com/pet.json" [].
Proof. repeat split; try reflexivity; discriminate. Qed.

(** C4 as amended: the segment [properties] in the second-to-last place
    is dropped from the references that are emitted without the external
    wrapper: those with no url-part inside the root document, and those
    whose url-part is the URL of the root. *)
Theorem C4_shorthand_collapse (P : Platform) (o : LoadOptions)
    (subschemaURL ref url : string) (pre : list string) (last : string) :
  parseRef ref = (url, pre ++ ["properties"; last]) ->
  (url = "" /\ subschemaURL = href (rootURL o))
  \/ (url <> "" /\ exists u, new_URL P url None = Some u /\ href u = href (rootURL o)) ->
  transform_reviver P o subschemaURL (KProp "$ref") (JString ref) tt =
    (Ok (JString match pre with
                 | [] => last +:+ bracket ""
                 | base :: rest => root_form base (rest ++ [last])
                 end), tt).
Proof.
  intros Hp Hroot.
  unfold transform_reviver. cbn [is_ref_key]. rewrite String.eqb_refl.
  unfold transform_ref.
  rewrite (parseRef_url_includes _ _ _ Hp)
    by (right; destruct pre; discriminate).
  cbn [negb]. rewrite Hp, collapse_properties_middle.
  assert (emit_root (pre ++ [last]) =
          match pre with
          | [] => last +:+ bracket ""
          | base :: rest => root_form base (rest ++ [last])
          end) as Hemit.
  { destruct pre as [|base rest]; [reflexivity|].
    change ((base :: rest) ++ [last]) with (base :: (rest ++ [last])).
    rewrite emit_root_form. destruct rest; reflexivity. }
  destruct Hroot as [[-> ->]|[Hurl (u & Hu & Hh)]].
  - cbn [Js.truthy]. rewrite String.eqb_refl. cbn [negb]. now rewrite Hemit.
  - rewrite (truthy_ne _ Hurl), Hu, Hh, String.eqb_refl. cbn [negb].
    now rewrite Hemit.
Qed.

Lemma C4_shorthand_collapse_witness :
  transform_reviver Demo.platform (Demo.options_for Demo.root_a)
    "file:///specs/a.json" (KProp "$ref")
    (JString "#/components/schemas/Pet/properties/name") tt
  = (Ok (JString (root_form "components" ["schemas"; "Pet"; "name"])), tt).
Proof.
  apply (C4_shorthand_collapse Demo.platform (Demo.options_for Demo.root_a)
           "file:///specs/a.json" "#/components/schemas/Pet/properties/name" ""
           ["components"; "schemas"; "Pet"] "name");
    [reflexivity | left; split; reflexivity].
Defined.

(** C4 as stated fails for an external reference: its [properties]
    segment is emitted. *)
Lemma C4_counterexample :
  path_parts "file:///specs/b.json#/components/schemas/Pet/properties/name"
  = ["components"; "schemas"; "Pet"; "properties"; "name"]
  /\ transform_reviver Demo.platform (Demo.options_for Demo.root_a)
       "file:///specs/a.json" (KProp "$ref")
       (JString "file:///specs/b.json#/components/schemas/Pet/properties/name") tt
     = (Ok (JString (external_form "b.json"
                       ["components"; "schemas"; "Pet"; "properties"; "name"])), tt)
  /\ external_form "b.json" ["components"; "schemas"; "Pet"; "properties"; "name"]
     <> external_form "b.json" ["components"; "schemas"; "Pet"; "name"].
Proof. repeat split; try reflexivity; discriminate. Qed.

(** ** The walk of the reviver *)

(** Induction on documents, with the hypothesis on every child. *)
Lemma Doc_induction (Q : Doc -> Prop) :
  Q JNull -> (forall b, Q (JBool b)) -> (forall n, Q (JNumber n)) ->
  (forall s, Q (JString s)) ->
  (forall items, Forall Q items -> Q (JArray items)) ->
  (forall props, Forall (fun p => Q (snd p)) props -> Q (JObject props)) ->
  forall d, Q d.
Proof.
  intros Hnull Hbool Hnum Hstr Harr Hobj.
  fix IH 1. intros [| b | n | s | items | props].
  - exact Hnull.
  - apply Hbool.
  - apply Hnum.
  - apply Hstr.
  - apply Harr. induction items as [|x r IHr]; constructor; [apply IH | exact IHr].
  - apply Hobj. induction props as [|[k x] r IHr]; constructor; [apply IH | exact IHr].
Qed.

Section InternalizeFacts.
Context {S : Type} (rv : Key -> Doc -> M S Doc).

Lemma internalize_array (k : Key) (items : list Doc) (s : S) :
  internalize rv k (JArray items) s =
    match internalize_elems rv 0 items s with
    | (Ok items', s') => rv k (JArray items') s'
    | (Err e, s') => (Err e, s')
    end.
Proof.
  simpl. generalize 0 as i. revert s.
  assert (forall l i s,
    (fix elems (i : nat) (l : list Doc) (s : S) {struct l} : Result (list Doc) * S :=
       match l with
       | [] => (Ok [], s)
       | x :: r =>
           match internalize rv (KIndex i) x s with
           | (Ok x', s1) =>
               match elems (Datatypes.S i) r s1 with
               | (Ok r', s2) => (Ok (x' :: r'), s2)
               | (Err e, s2) => (Err e, s2)
               end
           | (Err e, s1) => (Err e, s1)
           end
       end) i l s = internalize_elems rv i l s) as H.
  { induction l as [|x r IHr]; intros i s; simpl; [reflexivity|].
    destruct (internalize rv (KIndex i) x s) as [[x'|e] s1]; [|reflexivity].
    now rewrite IHr. }
  intros s i. now rewrite H.
Qed.

Lemma internalize_object (k : Key) (props : list (string * Doc)) (s : S) :
  internalize rv k (JObject props) s =
    match internalize_fields rv props s with
    | (Ok props', s') => rv k (JObject props') s'
    | (Err e, s') => (Err e, s')
    end.
Proof.
  simpl. revert s.
  assert (forall l s,
    (fix fields (l : list (string * Doc)) (s : S) {struct l}
       : Result (list (string * Doc)) * S :=
       match l with
       | [] => (Ok [], s)
       | (name, x) :: r =>
           match internalize rv (KProp name) x s with
           | (Ok x', s1) =>
               match fields r s1 with
               | (Ok r', s2) => (Ok ((name, x') :: r'), s2)
               | (Err e, s2) => (Err e, s2)
               end
           | (Err e, s1) => (Err e, s1)
           end
       end) l s = internalize_fields rv l s) as H.
  { induction l as [|[name x] r IHr]; intros s; simpl; [reflexivity|].
    destruct (internalize rv (KProp name) x s) as [[x'|e] s1]; [|reflexivity].
    now rewrite IHr. }
  intros s. now rewrite H.
Qed.

Lemma internalize_scalar (k : Key) (d : Doc) (s : S) :
  match d with JArray _ | JObject _ => False | _ => True end ->
  internalize rv k d s = rv k d s.
Proof. destruct d; simpl; tauto. Qed.

(** *** What a walk does to the state

    A relation that every call of the reviver respects, and that is
    reflexive and transitive, holds between the states before and after the
    walk, whether it ends well or throws. *)
Section Preserves.
Context (R : S -> S -> Prop).
Context (R_refl : forall s, R s s) (R_trans : forall a b c, R a b -> R b c -> R a c).
Context (rv_R : forall k d s, R s (snd (rv k d s))).

Lemma internalize_preserves (d : Doc) :
  forall k s, R s (snd (internalize rv k d s)).
Proof.
  induction d as [| b | n | str | items IH | props IH] using Doc_induction;
    intros k s; try apply rv_R.
  - rewrite internalize_array.
    assert (forall i s, R s (snd (internalize_elems rv i items s))) as Hl.
    { induction IH as [|x r Hx _ IHr]; intros i s0; simpl; [apply R_refl|].
      specialize (Hx (KIndex i) s0).
      destruct (internalize rv (KIndex i) x s0) as [[x'|e] s1]; [|exact Hx].
      specialize (IHr (Datatypes.S i) s1).
      destruct (internalize_elems rv (Datatypes.S i) r s1) as [[r'|e] s2];
        simpl in *; eapply R_trans; eassumption. }
    specialize (Hl 0 s).
    destruct (internalize_elems rv 0 items s) as [[items'|e] s']; [|exact Hl].
    eapply R_trans; [exact Hl | apply rv_R].
  - rewrite internalize_object.
    assert (forall s, R s (snd (internalize_fields rv props s))) as Hl.
    { induction IH as [|[name x] r Hx _ IHr]; intros s0; simpl; [apply R_refl|].
      specialize (Hx (KProp name) s0). simpl in Hx.
      destruct (internalize rv (KProp name) x s0) as [[x'|e] s1]; [|exact Hx].
      specialize (IHr s1).
      destruct (internalize_fields rv r s1) as [[r'|e] s2];
        simpl in *; eapply R_trans; eassumption. }
    specialize (Hl s).
    destruct (internalize_fields rv props s) as [[props'|e] s']; [|exact Hl].
    eapply R_trans; [exact Hl | apply rv_R].
Qed.
End Preserves.

(** *** How a walk ends

    Let the reviver leave alone what is not a pointer, and on a pointer
    that satisfies [pre] either return, and then [good] holds of the
    pointer, or throw an error in [bad].  Then a walk over a document whose
    pointers satisfy [pre] either returns, and all pointers are [good], or
    throws an error in [bad]. *)
Section Outcome.
Context (pre good : string -> Prop) (bad : LoadError -> Prop).
Context (rv_other : forall k d s, own_pointer k d = [] -> exists d' s', rv k d s = (Ok d', s')).
Context (rv_pointer : forall k ref s, own_pointer k (JString ref) = [ref] -> pre ref ->
           match rv k (JString ref) s with
           | (Ok _, _) => good ref
           | (Err e, _) => bad e
           end).

Lemma internalize_outcome (d : Doc) :
  forall k s, Forall pre (pointers d ++ own_pointer k d) ->
    match internalize rv k d s with
    | (Ok _, _) => Forall good (pointers d ++ own_pointer k d)
    | (Err e, _) => bad e
    end.
Proof.
  induction d as [| b | n | str | items IH | props IH] using Doc_induction;
    intros k s Hpre.
  - destruct (rv_other k JNull s eq_refl) as (d' & s' & E). simpl. rewrite E. constructor.
  - destruct (rv_other k (JBool b) s eq_refl) as (d' & s' & E). simpl. rewrite E. constructor.
  - destruct (rv_other k (JNumber n) s eq_refl) as (d' & s' & E). simpl. rewrite E. constructor.
  - simpl internalize. simpl in Hpre |- *.
    destruct (is_ref_key k) eqn:Ek.
    + assert (own_pointer k (JString str) = [str]) as Hown by (simpl; now rewrite Ek).
      apply Forall_cons in Hpre as [Hpre _].
      pose proof (rv_pointer k str s Hown Hpre) as H.
      destruct (rv k (JString str) s) as [[d'|e] s']; [|exact H].
      constructor; [exact H | constructor].
    + assert (own_pointer k (JString str) = []) as Hown by (simpl; now rewrite Ek).
      destruct (rv_other k (JString str) s Hown) as (d' & s' & E). rewrite E. constructor.
  - rewrite internalize_array. simpl own_pointer in *. rewrite app_nil_r in *.
    assert (forall i s, Forall pre (pointers (JArray items)) ->
              match internalize_elems rv i items s with
              | (Ok _, _) => Forall good (pointers (JArray items))
              | (Err e, _) => bad e
              end) as Hl.
    { clear Hpre. induction IH as [|x r Hx _ IHr]; intros i s0 Hpre; simpl; [constructor|].
      simpl in Hpre. apply Forall_app in Hpre as [Hpx Hpr].
      specialize (Hx (KIndex i) s0). simpl own_pointer in Hx.
      assert (own_pointer (KIndex i) x = []) as Hown by (destruct x; reflexivity).
      rewrite Hown, app_nil_r in Hx. specialize (Hx Hpx).
      destruct (internalize rv (KIndex i) x s0) as [[x'|e] s1]; [|exact Hx].
      specialize (IHr (Datatypes.S i) s1 Hpr).
      destruct (internalize_elems rv (Datatypes.S i) r s1) as [[r'|e] s2]; [|exact IHr].
      apply Forall_app. split; assumption. }
    specialize (Hl 0 s Hpre).
    destruct (internalize_elems rv 0 items s) as [[items'|e] s']; [|exact Hl].
    destruct (rv_other k (JArray items') s' eq_refl) as (d' & s'' & E). now rewrite E.
  - rewrite internalize_object. simpl own_pointer in *. rewrite app_nil_r in *.
    assert (forall s, Forall pre (pointers (JObject props)) ->
              match internalize_fields rv props s with
              | (Ok _, _) => Forall good (pointers (JObject props))
              | (Err e, _) => bad e
              end) as Hl.
    { clear Hpre. induction IH as [|[name x] r Hx _ IHr]; intros s0 Hpre; simpl; [constructor|].
      simpl in Hpre. rewrite app_assoc in Hpre. apply Forall_app in Hpre as [Hpx Hpr].
      specialize (Hx (KProp name) s0 Hpx). simpl snd in Hx.
      destruct (internalize rv (KProp name) x s0) as [[x'|e] s1]; [|exact Hx].
      specialize (IHr s1 Hpr).
      destruct (internalize_fields rv r s1) as [[r'|e] s2]; [|exact IHr].
      rewrite app_assoc. apply Forall_app. split; assumption. }
    specialize (Hl s Hpre).
    destruct (internalize_fields rv props s) as [[props'|e] s']; [|exact Hl].
    destruct (rv_other k (JObject props') s' eq_refl) as (d' & s'' & E). now rewrite E.
Qed.
End Outcome.

End InternalizeFacts.

(** ** The scan of a document *)

Section ScanFacts.
Context (P : Platform) (o : LoadOptions).

Lemma truthy_true (s : string) : Js.truthy s = true <-> s <> "".
Proof. destruct s; simpl; split; congruence. Qed.

Lemma scan_reviver_other schema k d s :
  own_pointer k d = [] -> scan_reviver P o schema k d s = (Ok d, s).
Proof.
  destruct d; try reflexivity. simpl.
  destruct (is_ref_key k); [discriminate | reflexivity].
Qed.

(** A pointer with no url-part is left as it is, and nothing is loaded. *)
Lemma scan_reviver_same_document schema ref s :
  url_part ref = "" ->
  scan_reviver P o schema (KProp "$ref") (JString ref) s = (Ok (JString ref), s).
Proof. unfold url_part. intros H. unfold scan_reviver. simpl. now rewrite H. Qed.

(** A pointer with a url-part, when the URL of the child has no dollar
    sign: the url-part is replaced by that URL and the rest of the pointer
    is kept. *)
Lemma scan_reviver_rewrites schema ref url fragment nextURL s :
  Js.find_sub "#" ref = Some (url, fragment) ->
  url <> "" ->
  (match schema with SrcJSON _ => is_remote url = true | SrcURL _ => True end) ->
  next_URL P schema url = Some nextURL ->
  plain (href nextURL) = true ->
  fst (scan_reviver P o schema (KProp "$ref") (JString ref) s)
  = Ok (JString (href nextURL +:+ "#" +:+ fragment)).
Proof.
  intros Hf Hurl Hmode Hnext Hplain.
  unfold scan_reviver. cbn [is_ref_key]. rewrite String.eqb_refl.
  unfold parseRef. rewrite Hf. cbn [fst]. rewrite (truthy_ne _ Hurl).
  assert ((match schema with SrcJSON _ => true | SrcURL _ => false end)
          && negb (is_remote url) = false) as ->.
  { destruct schema; [reflexivity|]. now rewrite Hmode. }
  rewrite Hnext. destruct (load_begin P o nextURL (fst s)) as [pending st'].
  cbn [fst]. rewrite (find_sub_Some _ _ _ _ Hf), replace_prefix.
  now rewrite get_substitution_plain.
Qed.

Lemma load_begin_grows u st : cache_grows st (snd (load_begin P o u st)).
Proof.
  unfold cache_grows, load_begin.
  destruct (decide (href u ∈ urlCache st)); [set_solver|].
  destruct (isFile u); [simpl; set_solver|].
  destruct (request_headers P o). simpl. set_solver.
Qed.

Lemma load_begin_fresh u st :
  href u ∉ urlCache st ->
  fst (load_begin P o u st) = true
  /\ href u ∈ urlCache (snd (load_begin P o u st))
  /\ schemas (snd (load_begin P o u st)) = schemas st.
Proof.
  intros Hc. unfold load_begin. rewrite decide_False by exact Hc.
  destruct (isFile u); [simpl; set_solver|].
  destruct (request_headers P o). simpl. set_solver.
Qed.

(** The scan of a document passed in: when its remote url-parts are valid
    URLs, it ends well only if no pointer is relative, and it throws only
    the error of a relative reference. *)
Lemma scan_json_outcome d0 d s :
  Forall (valid_remote P) (pointers d) ->
  match internalize (scan_reviver P o (SrcJSON d0)) KRoot d s with
  | (Ok _, _) => Forall (fun ref => ~ relative_pointer ref) (pointers d)
  | (Err e, _) => unresolvable e
  end.
Proof.
  intros Hv.
  pose proof (internalize_outcome (scan_reviver P o (SrcJSON d0))
                (valid_remote P) (fun ref => ~ relative_pointer ref) unresolvable) as H.
  specialize (H (fun k d s Ho => ex_intro _ d (ex_intro _ s (scan_reviver_other _ k d s Ho)))).
  assert (Hptr : forall k ref s, own_pointer k (JString ref) = [ref] -> valid_remote P ref ->
            match scan_reviver P o (SrcJSON d0) k (JString ref) s with
            | (Ok _, _) => ~ relative_pointer ref
            | (Err e, _) => unresolvable e
            end).
  { clear. intros k ref s Hown Hvalid. simpl in Hown. unfold scan_reviver.
    destruct (is_ref_key k); [|discriminate]. fold (url_part ref).
    destruct (Js.truthy (url_part ref)) eqn:Et.
    - cbn [andb]. destruct (is_remote (url_part ref)) eqn:Er; cbn [negb].
      + unfold next_URL. rewrite Er.
        destruct (new_URL P (url_part ref) None) as [nextURL|] eqn:En.
        * destruct (load_begin P o nextURL (fst s)). intros [_ H]. congruence.
        * exfalso. now apply Hvalid.
      + exists ref. split; [|reflexivity]. split; [now apply truthy_true | exact Er].
    - intros [H _]. apply truthy_true in H. congruence. }
  specialize (H Hptr d KRoot s). cbn [own_pointer] in H.
  destruct d; rewrite ?app_nil_r in H; apply H; rewrite ?app_nil_r; exact Hv.
Qed.

(** The scan of a document passed in ends well when none of its pointers
    is relative and its remote url-parts are valid URLs. *)
Lemma scan_json_succeeds d0 d s :
  Forall (fun ref => ~ relative_pointer ref) (pointers d) ->
  Forall (valid_remote P) (pointers d) ->
  exists d' s', internalize (scan_reviver P o (SrcJSON d0)) KRoot d s = (Ok d', s').
Proof.
  intros Hrel Hv.
  pose proof (internalize_outcome (scan_reviver P o (SrcJSON d0))
                (fun ref => ~ relative_pointer ref /\ valid_remote P ref)
                (fun _ => True) (fun _ => False)) as H.
  specialize (H (fun k d s Ho => ex_intro _ d (ex_intro _ s (scan_reviver_other _ k d s Ho)))).
  assert (Hptr : forall k ref s, own_pointer k (JString ref) = [ref] ->
            ~ relative_pointer ref /\ valid_remote P ref ->
            match scan_reviver P o (SrcJSON d0) k (JString ref) s with
            | (Ok _, _) => True
            | (Err e, _) => False
            end).
  { clear. intros k ref s Hown [Hrel Hvalid]. simpl in Hown. unfold scan_reviver.
    destruct (is_ref_key k); [|discriminate]. fold (url_part ref).
    destruct (Js.truthy (url_part ref)) eqn:Et; [|exact I].
    cbn [andb]. destruct (is_remote (url_part ref)) eqn:Er; cbn [negb].
    - unfold next_URL. rewrite Er.
      destruct (new_URL P (url_part ref) None) as [nextURL|] eqn:En.
      + now destruct (load_begin P o nextURL (fst s)).
      + now apply Hvalid.
    - apply Hrel. split; [now apply truthy_true | exact Er]. }
  specialize (H Hptr d KRoot s). cbn [own_pointer] in H.
  assert (Forall (fun ref => ~ relative_pointer ref /\ valid_remote P ref) (pointers d))
    as Hall.
  { rewrite Forall_forall in Hrel, Hv. apply Forall_forall. intros ref Hin.
    split; [now apply Hrel | now apply Hv]. }
  destruct d; rewrite ?app_nil_r in H; specialize (H Hall);
    destruct (internalize _ _ _ _) as [[d'|e] s']; try contradiction; eauto.
Qed.

(** A scan throws the error of a relative reference only for a document
    passed in that has a relative pointer. *)
Lemma scan_not_unresolvable schema d s :
  (match schema with
   | SrcJSON _ => Forall (fun ref => ~ relative_pointer ref) (pointers d)
   | SrcURL _ => True
   end) ->
  match internalize (scan_reviver P o schema) KRoot d s with
  | (Ok _, _) => True
  | (Err e, _) => not_unresolvable e
  end.
Proof.
  intros Hmode.
  pose proof (internalize_outcome (scan_reviver P o schema)
                (fun ref => match schema with
                            | SrcJSON _ => ~ relative_pointer ref
                            | SrcURL _ => True
                            end)
                (fun _ => True) not_unresolvable) as H.
  specialize (H (fun k d s Ho => ex_intro _ d (ex_intro _ s (scan_reviver_other _ k d s Ho)))).
  assert (Hptr : forall k ref s, own_pointer k (JString ref) = [ref] ->
            match schema with
            | SrcJSON _ => ~ relative_pointer ref
            | SrcURL _ => True
            end ->
            match scan_reviver P o schema k (JString ref) s with
            | (Ok _, _) => True
            | (Err e, _) => not_unresolvable e
            end).
  { clear. intros k ref s Hown Hpre. simpl in Hown. unfold scan_reviver.
    destruct (is_ref_key k); [|discriminate]. fold (url_part ref).
    destruct (Js.truthy (url_part ref)) eqn:Et; [|exact I].
    destruct schema as [u|d0]; cbn [andb].
    - destruct (next_URL P (SrcURL u) (url_part ref)) as [nextURL|].
      + now destruct (load_begin P o nextURL (fst s)).
      + intros msg. discriminate.
    - destruct (is_remote (url_part ref)) eqn:Er; cbn [negb].
      + destruct (next_URL P (SrcJSON d0) (url_part ref)) as [nextURL|].
        * now destruct (load_begin P o nextURL (fst s)).
        * intros msg. discriminate.
      + exfalso. apply Hpre. split; [now apply truthy_true | exact Er]. }
  specialize (H Hptr d KRoot s). cbn [own_pointer] in H.
  assert (Forall (fun ref => match schema with
                             | SrcJSON _ => ~ relative_pointer ref
                             | SrcURL _ => True
                             end) (pointers d)) as Hall.
  { destruct schema; [apply Forall_forall; auto | exact Hmode]. }
  destruct d; rewrite ?app_nil_r in H; specialize (H Hall);
    destruct (internalize _ _ _ _) as [[?|?] ?]; auto.
Qed.

End ScanFacts.

(** ** Calls of [load] *)

Section LoadFacts.
Context (P : Platform) (o : LoadOptions).

Lemma load_rest_S fuel schema st :
  load_rest P (S fuel) o schema st =
    match obtain P o schema with
    | Err e => (Err e, st)
    | Ok Undefined => (Err CloneError, set_schema (schema_id schema) Undefined st)
    | Ok (Value d) =>
        load_document P (fun c => load_rest P fuel o (SrcURL c)) o schema d st
    end.
Proof. reflexivity. Qed.

(** *** What a load does to the store

    A reflexive and transitive relation between stores that holds across
    the start of a call, and does not look at the schemas, holds across
    every load, whether it ends well or throws. *)
Section StoreRelation.
Context (R : Store -> Store -> Prop).
Context (R_refl : forall st, R st st).
Context (R_trans : forall a b c, R a b -> R b c -> R a c).
Context (R_begin : forall u st, R st (snd (load_begin P o u st))).
Context (R_schemas : forall st m, R st (mkStore m (urlCache st) (events st))).

Lemma scan_reviver_rel schema k d (s : Store * list URL) :
  R (fst s) (fst (snd (scan_reviver P o schema k d s))).
Proof.
  unfold scan_reviver.
  destruct d; try apply R_refl.
  destruct (is_ref_key k); [|apply R_refl].
  destruct (Js.truthy _); [|apply R_refl].
  destruct (_ && _); [apply R_refl|].
  destruct (next_URL P schema _) as [nextURL|]; [|apply R_refl].
  pose proof (R_begin nextURL (fst s)) as H.
  destruct (load_begin P o nextURL (fst s)) as [pending st']. exact H.
Qed.

Lemma scan_rel schema d (s : Store * list URL) :
  R (fst s) (fst (snd (internalize (scan_reviver P o schema) KRoot d s))).
Proof.
  apply (internalize_preserves (scan_reviver P o schema)
           (fun a b => R (fst a) (fst b))).
  - intros a. apply R_refl.
  - intros a b c. apply R_trans.
  - intros k d' s'. apply scan_reviver_rel.
Qed.

Lemma join_all_rel (recur : URL -> M Store unit) children st :
  (forall c st, R st (snd (recur c st))) ->
  R st (snd (join_all recur children st)).
Proof.
  intros Hrec. revert st. induction children as [|c rest IH]; intros st; simpl.
  - apply R_refl.
  - unfold bind. specialize (Hrec c st).
    destruct (recur c st) as [[[]|e] st1]; [|exact Hrec].
    eapply R_trans; [exact Hrec | apply IH].
Qed.

Lemma load_document_rel (recur : URL -> M Store unit) schema d st :
  (forall c st, R st (snd (recur c st))) ->
  R st (snd (load_document P recur o schema d st)).
Proof.
  intros Hrec. unfold load_document.
  pose proof (scan_rel schema d (set_schema (schema_id schema) (Value d) st, []))
    as Hscan.
  assert (R st (set_schema (schema_id schema) (Value d) st)) as H0 by apply R_schemas.
  destruct (internalize _ _ _ _) as [[d'|e] [st2 pend]]; cbn [fst snd] in Hscan;
    [|eapply R_trans; eassumption].
  pose proof (join_all_rel recur pend (set_schema (schema_id schema) (Value d') st2) Hrec)
    as Hjoin.
  assert (R st2 (set_schema (schema_id schema) (Value d') st2)) as H2 by apply R_schemas.
  assert (R st (snd (join_all recur pend (set_schema (schema_id schema) (Value d') st2))))
    as H.
  { eapply R_trans; [exact H0|]. eapply R_trans; [exact Hscan|].
    eapply R_trans; [exact H2 | exact Hjoin]. }
  destruct (join_all _ _ _) as [[[]|e] st4]; cbn [snd] in *; [|exact H].
  destruct (String.eqb _ _); [|exact H].
  destruct (transform P o (schemas st4)) as [[[]|e] m]; cbn [snd];
    (eapply R_trans; [exact H | apply R_schemas]).
Qed.

Lemma load_rest_rel fuel schema st : R st (snd (load_rest P fuel o schema st)).
Proof.
  revert schema st. induction fuel as [|fuel IH]; intros schema st.
  - apply R_refl.
  - rewrite load_rest_S.
    destruct (obtain P o schema) as [[d|]|e]; [|apply R_schemas|apply R_refl].
    apply load_document_rel. intros c st'. apply IH.
Qed.

Lemma load_rel fuel schema st : R st (snd (load P fuel o schema st)).
Proof.
  unfold load. destruct schema as [u|d].
  - pose proof (R_begin u st) as Hb.
    destruct (load_begin P o u st) as [pending st1]. destruct pending; [|exact Hb].
    pose proof (load_rest_rel fuel (SrcURL u) st1) as Hr.
    destruct (load_rest P fuel o (SrcURL u) st1) as [[[]|e] st'];
      eapply R_trans; eassumption.
  - pose proof (load_rest_rel fuel (SrcJSON d) st) as Hr.
    now destruct (load_rest P fuel o (SrcJSON d) st) as [[[]|e] st'].
Qed.
End StoreRelation.

(** *** The set of visited URLs only grows *)

Lemma cache_grows_refl st : cache_grows st st.
Proof. unfold cache_grows. set_solver. Qed.

Lemma cache_grows_trans a b c : cache_grows a b -> cache_grows b c -> cache_grows a c.
Proof. unfold cache_grows. set_solver. Qed.

Lemma load_rest_grows fuel schema st :
  cache_grows st (snd (load_rest P fuel o schema st)).
Proof.
  apply (load_rest_rel cache_grows cache_grows_refl cache_grows_trans
           (load_begin_grows P o)).
  intros st0 m. unfold cache_grows. simpl. set_solver.
Qed.


(** *** No URL is read or requested twice *)

Lemma io_targets_app (a b : list Event) :
  io_targets (a ++ b) = io_targets a ++ io_targets b.
Proof.
  induction a as [|[t|t m h|w] a IH]; simpl; [reflexivity| | |exact IH];
    now rewrite IH.
Qed.

Lemma io_targets_warnings (ws : list string) : io_targets (map EvWarn ws) = [].
Proof. induction ws as [|w ws IH]; [reflexivity | exact IH]. Qed.

Lemma load_begin_io u st :
  href u ∉ urlCache st ->
  io_targets (events (snd (load_begin P o u st))) = io_targets (events st) ++ [href u]
  /\ urlCache (snd (load_begin P o u st)) = {[href u]} ∪ urlCache st.
Proof.
  intros Hc. unfold load_begin. rewrite decide_False by exact Hc.
  destruct (isFile u).
  - simpl. now rewrite io_targets_app.
  - destruct (request_headers P o) as [headers warns]. simpl.
    now rewrite !io_targets_app, io_targets_warnings.
Qed.

Lemma load_begin_once u st :
  fetched_once st -> fetched_once (snd (load_begin P o u st)).
Proof.
  intros [Hnd Hin]. destruct (decide (href u ∈ urlCache st)) as [Hc|Hc].
  - unfold load_begin. rewrite decide_True by exact Hc. now split.
  - destruct (load_begin_io u st Hc) as [Hev Hcache].
    unfold fetched_once. rewrite Hev, Hcache. split.
    + apply NoDup_app. split; [exact Hnd|]. split; [|apply NoDup_singleton].
      intros t Ht Ht'. apply list_elem_of_singleton in Ht' as ->. apply Hc, Hin, Ht.
    + intros t Ht. apply elem_of_app in Ht as [Ht|Ht].
      * apply elem_of_union. right. now apply Hin.
      * apply list_elem_of_singleton in Ht as ->. apply elem_of_union. left.
        now apply elem_of_singleton.
Qed.

Lemma load_once fuel schema st :
  fetched_once st -> fetched_once (snd (load P fuel o schema st)).
Proof.
  apply (load_rel (fun a b => fetched_once a -> fetched_once b)).
  - auto.
  - auto.
  - intros u st0. apply load_begin_once.
  - intros st0 m H. exact H.
Qed.

(** *** The errors of a load *)

Lemma decode_not_unresolvable contents contentType e :
  decode P contents contentType = Err e -> not_unresolvable e.
Proof.
  unfold decode, parseSchema. intros H msg ->.
  repeat match type of H with
         | context [if ?b then _ else _] => destruct b
         | context [match ?x with inl _ => _ | inr _ => _ end] => destruct x
         end; discriminate.
Qed.

Lemma obtain_url_not_unresolvable u e :
  obtain P o (SrcURL u) = Err e -> not_unresolvable e.
Proof.
  unfold obtain, receive. intros H.
  destruct (isFile u).
  - destruct (fs_readFile P u); [now apply decode_not_unresolvable in H|].
    intros msg ->. discriminate.
  - destruct (fetch P _ _ _) as [[ct body]|]; [now apply decode_not_unresolvable in H|].
    intros msg ->. discriminate.
Qed.

Lemma transform_reviver_other subschemaURL k d s :
  own_pointer k d = [] -> transform_reviver P o subschemaURL k d s = (Ok d, s).
Proof.
  destruct d; try reflexivity. simpl.
  destruct (is_ref_key k); [discriminate | reflexivity].
Qed.

Lemma transform_ref_not_unresolvable subschemaURL ref e :
  transform_ref P o subschemaURL ref = Err e -> not_unresolvable e.
Proof.
  unfold transform_ref. intros H msg ->.
  destruct (negb _); [discriminate|]. destruct (parseRef ref) as [url parts].
  repeat match type of H with
         | context [if ?b then _ else _] => destruct b
         | context [match new_URL ?a ?b ?c with _ => _ end] => destruct (new_URL a b c)
         end; discriminate.
Qed.

Lemma transform_entry_not_unresolvable subschemaURL m e m' :
  transform_entry P o subschemaURL m = (Err e, m') -> not_unresolvable e.
Proof.
  unfold transform_entry. destruct (obj_get subschemaURL m) as [[d|]|].
  - pose proof (internalize_outcome (transform_reviver P o subschemaURL)
                  (fun _ => True) (fun _ => True) not_unresolvable) as H.
    specialize (H (fun k d s Ho => ex_intro _ d (ex_intro _ s
                     (transform_reviver_other subschemaURL k d s Ho)))).
    assert (Hptr : forall k ref s, own_pointer k (JString ref) = [ref] -> True ->
              match transform_reviver P o subschemaURL k (JString ref) s with
              | (Ok _, _) => True
              | (Err e, _) => not_unresolvable e
              end).
    { intros k ref s Hown _. simpl in Hown. unfold transform_reviver.
      destruct (is_ref_key k); [|discriminate].
      destruct (transform_ref P o subschemaURL ref) eqn:E; [exact I|].
      now apply transform_ref_not_unresolvable in E. }
    specialize (H Hptr d KRoot tt (proj2 (Forall_forall _ _) (fun _ _ => I))).
    destruct (internalize _ _ _ _) as [[d'|e'] []].
    + repeat match goal with
             | |- context [if ?b then _ else _] => destruct b
             | |- context [match new_URL ?a ?b ?c with _ => _ end] => destruct (new_URL a b c)
             end; intros [= <- <-] || discriminate.
      intros msg; discriminate.
    + now intros [= <- <-].
  - intros [= <- <-] msg. discriminate.
  - intros [= <- <-] msg. discriminate.
Qed.

Lemma transform_keys_not_unresolvable keys m e m' :
  transform_keys P o keys m = (Err e, m') -> not_unresolvable e.
Proof.
  revert m. induction keys as [|k rest IH]; intros m; simpl.
  - discriminate.
  - unfold bind. destruct (transform_entry P o k m) as [[[]|e1] m1] eqn:E.
    + apply IH.
    + intros [= <- <-]. now apply transform_entry_not_unresolvable in E.
Qed.

Lemma join_all_not_unresolvable (recur : URL -> M Store unit) children st e st' :
  (forall c st e st', recur c st = (Err e, st') -> not_unresolvable e) ->
  join_all recur children st = (Err e, st') -> not_unresolvable e.
Proof.
  intros Hrec. revert st. induction children as [|c rest IH]; intros st; simpl.
  - discriminate.
  - unfold bind. destruct (recur c st) as [[[]|e1] st1] eqn:E.
    + apply IH.
    + intros [= <- <-]. now apply Hrec in E.
Qed.

Lemma load_document_not_unresolvable (recur : URL -> M Store unit) schema d st e st' :
  (forall c st e st', recur c st = (Err e, st') -> not_unresolvable e) ->
  (match schema with
   | SrcJSON _ => Forall (fun ref => ~ relative_pointer ref) (pointers d)
   | SrcURL _ => True
   end) ->
  load_document P recur o schema d st = (Err e, st') -> not_unresolvable e.
Proof.
  intros Hrec Hmode. unfold load_document.
  pose proof (scan_not_unresolvable P o schema d
                (set_schema (schema_id schema) (Value d) st, []) Hmode) as Hscan.
  destruct (internalize _ _ _ _) as [[d'|e1] [st2 pend]].
  - destruct (join_all _ _ _) as [[[]|e2] st4] eqn:Ej.
    + destruct (String.eqb _ _); [|discriminate].
      destruct (transform P o (schemas st4)) as [[[]|e3] m] eqn:Et; [discriminate|].
      intros [= <- <-]. now apply transform_keys_not_unresolvable in Et.
    + intros [= <- <-]. now apply join_all_not_unresolvable in Ej.
  - now intros [= <- <-].
Qed.

Lemma load_rest_url_not_unresolvable fuel u st e st' :
  load_rest P fuel o (SrcURL u) st = (Err e, st') -> not_unresolvable e.
Proof.
  revert u st e st'. induction fuel as [|fuel IH]; intros u st e st'.
  - intros [= <- <-] msg. discriminate.
  - rewrite load_rest_S. destruct (obtain P o (SrcURL u)) as [[d|]|e1] eqn:Eo.
    + apply load_document_not_unresolvable; [|exact I].
      intros c st1 e1 st1'. apply IH.
    + intros [= <- <-] msg. discriminate.
    + intros [= <- <-]. now apply obtain_url_not_unresolvable in Eo.
Qed.

End LoadFacts.

(** ** Visited documents *)

(** C5 as amended: a call of [load] on a URL that is in the set of
    visited URLs returns the schemas as they are and leaves the whole
    store as it is: nothing is read, requested or decoded, and neither the
    schemas nor the set changes (a document passed in by the caller is not
    tested against the set).  So, in a session that starts with no URL read
    twice and every URL read in the set, every load leaves it so: each URL
    is read or requested at most once. *)
Theorem C5_visited_short_circuit (P : Platform) (fuel : nat) (o : LoadOptions)
    (u : URL) (st : Store) :
  (href u ∈ urlCache st -> load P fuel o (SrcURL u) st = (Ok (schemas st), st))
  /\ (forall schema, fetched_once st -> fetched_once (snd (load P fuel o schema st))).
Proof.
  split.
  - intros Hc. unfold load, load_begin. now rewrite decide_True by exact Hc.
  - intros schema. apply load_once.
Qed.

Lemma C5_visited_short_circuit_witness :
  load Demo.platform 0 (Demo.options_for Demo.root_a)
    (SrcURL (Demo.file_url VIRTUAL_JSON_URL)) Demo.virtual_visited
  = (Ok [], Demo.virtual_visited).
Proof.
  apply (proj1 (C5_visited_short_circuit Demo.platform 0 (Demo.options_for Demo.root_a)
                  (Demo.file_url VIRTUAL_JSON_URL) Demo.virtual_visited)).
  vm_compute. reflexivity.
Defined.

(** C5 as stated fails for a document passed in by the caller: its key,
    the reserved URL, is in the set of visited URLs, and yet the call
    stores the document, requests the document it refers to and adds that
    one to the set. *)
Lemma C5_counterexample :
  schema_id (SrcJSON Demo.doc_remote) ∈ urlCache Demo.virtual_visited
  /\ schemas (snd (load Demo.platform 2 (Demo.options_for Demo.root_a)
                     (SrcJSON Demo.doc_remote) Demo.virtual_visited))
     = [(VIRTUAL_JSON_URL, Value Demo.doc_remote);
        ("https://example.com/pet.json", Value (JObject [("type", JString "object")]))]
  /\ events (snd (load Demo.platform 2 (Demo.options_for Demo.root_a)
                    (SrcJSON Demo.doc_remote) Demo.virtual_visited))
     = [EvFetch "https://example.com/pet.json" "GET"
          [("User-Agent", Value "openapi-typescript")]]
  /\ elements (urlCache (snd (load Demo.platform 2 (Demo.options_for Demo.root_a)
                                (SrcJSON Demo.doc_remote) Demo.virtual_visited)))
     = [VIRTUAL_JSON_URL; "https://example.com/pet.json"].
Proof.
  split; [vm_compute; reflexivity|].
  split; [vm_compute; reflexivity|]. split; vm_compute; reflexivity.
Qed.

(** ** The pointers after the scan *)

(** C3, at an input on which the code departs from it: the URL of the
    child has [$&] in it, which [String.prototype.replace] expands to the
    matched text, so the url-part of the stored pointer is not the URL of
    the child that was requested. *)
Theorem C3_dollar_in_url :
  next_URL Demo.platform (SrcJSON Demo.doc_dollar) "https://example.com/a$&b.json"
  = Some (mkURL "https://example.com/a$&b.json" "https:")
  /\ load Demo.platform 3 (Demo.options_for Demo.root_a)
       (SrcJSON Demo.doc_dollar) Demo.empty
     = (Ok [(VIRTUAL_JSON_URL,
             Value (JObject [("pet", Demo.ref
               "https://example.com/ahttps://example.com/a$&b.jsonb.json#/Pet")]));
            ("https://example.com/a$&b.json",
             Value (JObject [("type", JString "object")]))],
        snd (load Demo.platform 3 (Demo.options_for Demo.root_a)
               (SrcJSON Demo.doc_dollar) Demo.empty))
  /\ url_part "https://example.com/ahttps://example.com/a$&b.jsonb.json#/Pet"
     <> "https://example.com/a$&b.json".
Proof.
  split; [reflexivity|]. split; [|vm_compute; discriminate].
  vm_compute. reflexivity.
Qed.

(** ** The keys after the transformation *)

Section TransformFacts.
Context (P : Platform) (o : LoadOptions).

Lemma transform_entry_ok k m m' :
  transform_entry P o k m = (Ok tt, m') ->
  exists d d' r,
    obj_get k m = Some (Value d)
    /\ internalize (transform_reviver P o k) KRoot d tt = (Ok d', tt)
    /\ final_key P o k = Some r
    /\ obj_get r m' = Some (Value d')
    /\ (r <> k -> obj_get k m' = None)
    /\ (forall x, x <> k -> x <> r -> obj_get x m' = obj_get x m).
Proof.
  unfold transform_entry, final_key.
  destruct (obj_get k m) as [[d|]|]; [|discriminate|discriminate].
  destruct (internalize (transform_reviver P o k) KRoot d tt) as [[d'|e] []] eqn:Ei;
    [|discriminate].
  destruct (String.eqb k (href (rootURL o))); cbn [negb].
  - intros [= <-]. exists d, d', k. repeat split; try reflexivity; try exact Ei.
    + apply obj_get_set_eq.
    + congruence.
    + intros x Hx _. apply obj_get_set_ne. congruence.
  - destruct (new_URL P k None) as [u|]; [|discriminate].
    destruct (String.eqb_spec (relative_id P o u k) k) as [Heq|Hne]; cbn [negb].
    + intros [= <-]. exists d, d', (relative_id P o u k). rewrite Heq.
      repeat split; try reflexivity; try exact Ei.
      * apply obj_get_set_eq.
      * congruence.
      * intros x Hx _. apply obj_get_set_ne. congruence.
    + intros [= <-]. exists d, d', (relative_id P o u k).
      repeat split; try reflexivity; try exact Ei.
      * rewrite obj_get_delete_ne by congruence. apply obj_get_set_eq.
      * intros _. apply obj_get_delete_eq.
      * intros x Hx Hr. rewrite obj_get_delete_ne by congruence.
        rewrite obj_get_set_ne by congruence. apply obj_get_set_ne. congruence.
Qed.

Section Loop.
Context (m0 : SchemaMap).
Context (keys_NoDup : NoDup (obj_keys m0)).
Context (keys_ok : keys_compatible P o (obj_keys m0)).

Lemma transform_keys_invariant (todo : list string) :
  forall (done : list string) (m m' : SchemaMap),
    obj_keys m0 = done ++ todo ->
    untouched m0 todo m -> moved P o m0 done m -> accounted P o done todo m ->
    transform_keys P o todo m = (Ok tt, m') ->
    moved P o m0 (obj_keys m0) m' /\ accounted P o (obj_keys m0) [] m'.
Proof.
  induction todo as [|k todo IH]; intros done m m' Hkeys Hun Hmv Hacc.
  - simpl. intros [= <-]. rewrite app_nil_r in Hkeys. rewrite Hkeys. now split.
  - simpl. unfold bind.
    destruct (transform_entry P o k m) as [[[]|e] m1] eqn:E; [|discriminate].
    apply transform_entry_ok in E as (d & d' & r & Hd & Hint & Hr & Hget & Hgone & Hrest).
    destruct keys_ok as [Hinj Hcol].
    assert (NoDup (done ++ k :: todo)) as Hnd by (rewrite <- Hkeys; exact keys_NoDup).
    apply NoDup_app in Hnd as (Hnd1 & Hdisj & Hnd2).
    apply NoDup_cons in Hnd2 as [Hk_todo Hnd2].
    assert (k ∉ done) as Hk_done.
    { intros Hin. apply (Hdisj k Hin). apply list_elem_of_here. }
    assert (forall x, x ∈ done -> x ∈ obj_keys m0) as Hdone_in.
    { intros x Hx. rewrite Hkeys. apply elem_of_app. now left. }
    assert (forall x, x ∈ todo -> x ∈ obj_keys m0) as Htodo_in.
    { intros x Hx. rewrite Hkeys. apply elem_of_app. right. now apply list_elem_of_further. }
    assert (k ∈ obj_keys m0) as Hk_in.
    { rewrite Hkeys. apply elem_of_app. right. apply list_elem_of_here. }
    apply (IH (done ++ [k]) m1 m').
    + rewrite Hkeys, <- app_assoc. reflexivity.
    + (* untouched *)
      intros k2 Hk2. rewrite Hrest.
      * apply Hun. now apply list_elem_of_further.
      * intros ->. contradiction.
      * intros ->. destruct (decide (r = k)) as [->|Hne]; [contradiction|].
        exact (Hcol k r r Hk_in (Htodo_in _ Hk2) Hr Hne eq_refl).
    + (* moved *)
      intros k0 d0 Hk0 Hd0. apply elem_of_app in Hk0 as [Hk0|Hk0].
      * destruct (Hmv k0 d0 Hk0 Hd0) as (r0 & d0' & Hr0 & Hint0 & Hget0 & Hgone0).
        assert (k0 <> k) as Hne0 by (intros ->; contradiction).
        assert (r0 <> r) as Hrr.
        { intros ->. apply Hne0. exact (Hinj k0 k r (Hdone_in _ Hk0) Hk_in Hr0 Hr). }
        assert (r0 <> k) as Hrk.
        { destruct (decide (r0 = k0)) as [->|Hn]; [exact Hne0|].
          exact (Hcol k0 k r0 (Hdone_in _ Hk0) Hk_in Hr0 Hn). }
        exists r0, d0'. repeat split; try assumption.
        -- rewrite Hrest by assumption. exact Hget0.
        -- intros Hn. rewrite Hrest; [now apply Hgone0 | exact Hne0 |].
           destruct (decide (r = k)) as [->|Hnk]; [exact Hne0|].
           intros ->. exact (Hcol k r r Hk_in (Hdone_in _ Hk0) Hr Hnk eq_refl).
      * apply list_elem_of_singleton in Hk0 as ->.
        rewrite <- (Hun k (list_elem_of_here _ _)) in Hd0.
        rewrite Hd in Hd0. injection Hd0 as <-.
        exists r, d'. repeat split; assumption.
    + (* accounted *)
      intros x Hx. destruct (decide (x = r)) as [->|Hxr].
      * right. exists k. split; [|exact Hr]. apply elem_of_app. right. apply list_elem_of_here.
      * destruct (decide (x = k)) as [->|Hxk].
        -- exfalso. apply Hx. apply Hgone. congruence.
        -- rewrite Hrest in Hx by assumption.
           destruct (Hacc x Hx) as [Hin|(k0 & Hk0 & Hf)].
           ++ apply elem_of_cons in Hin as [->|Hin]; [contradiction | now left].
           ++ right. exists k0. split; [|exact Hf]. apply elem_of_app. now left.
Qed.

Lemma transform_spec (m' : SchemaMap) :
  transform P o m0 = (Ok tt, m') ->
  moved P o m0 (obj_keys m0) m' /\ accounted P o (obj_keys m0) [] m'.
Proof.
  unfold transform. apply (transform_keys_invariant (obj_keys m0) [] m0 m').
  - reflexivity.
  - intros k _. reflexivity.
  - intros k d Hk. now apply elem_of_nil in Hk.
  - intros x Hx. left. destruct (obj_get x m0) as [v|] eqn:E; [|congruence].
    now apply obj_get_Some_keys in E.
Qed.

End Loop.
End TransformFacts.

(** ** Relative paths *)

Lemma split_names (s x : string) :
  x ∈ Js.split "/" s -> x = "" \/ is_name x.
Proof.
  revert x. induction s as [|c s IH]; intros x; simpl.
  - intros H. apply list_elem_of_singleton in H. now left.
  - destruct (Ascii.eqb_spec c "/") as [->|Hc].
    + intros H. apply elem_of_cons in H as [->|H]; [now left | now apply IH].
    + destruct (Js.split "/" s) as [|y r] eqn:E.
      * intros H. apply list_elem_of_singleton in H as ->. right. exact Hc.
      * intros H. apply elem_of_cons in H as [->|H]; [right; exact Hc|].
        apply IH. now apply list_elem_of_further.
Qed.

Lemma segments_names (s : string) : Forall is_name (PathPosix.segments s).
Proof.
  apply Forall_forall. intros x Hx. unfold PathPosix.segments in Hx.
  apply list_elem_of_filter in Hx as [Ht Hx].
  destruct (split_names s x Hx) as [->|H]; [discriminate | exact H].
Qed.

Lemma normalize_names (stack segs : list string) :
  Forall is_name stack -> Forall is_name segs ->
  Forall is_name (PathPosix.normalize stack segs).
Proof.
  revert stack. induction segs as [|x r IH]; intros stack Hs Hr; simpl.
  - now apply Forall_rev.
  - apply Forall_cons in Hr as [Hx Hr].
    destruct (String.eqb x "."); [now apply IH|].
    destruct (String.eqb x "..").
    + apply IH; [|exact Hr]. destruct stack; [constructor|].
      now apply Forall_cons in Hs as [_ Hs].
    + apply IH; [|exact Hr]. now constructor.
Qed.

Lemma resolve_names (cwd path : string) : Forall is_name (PathPosix.resolve cwd path).
Proof.
  unfold PathPosix.resolve. destruct (Js.startsWith path "/");
    apply normalize_names; try constructor; try apply segments_names.
  apply Forall_app. split; apply segments_names.
Qed.

Lemma drop_common_names (a b : list string) :
  Forall is_name b -> Forall is_name (snd (PathPosix.drop_common a b)).
Proof.
  revert b. induction a as [|x a IH]; intros b Hb; simpl.
  - destruct b; exact Hb.
  - destruct b as [|y b]; [exact Hb|].
    destruct (String.eqb x y); [|exact Hb].
    apply IH. now apply Forall_cons in Hb as [_ Hb].
Qed.

Lemma join_names (l : list string) :
  Forall is_name l -> Js.startsWith (Js.join "/" l) "/" = false.
Proof.
  intros Hl. destruct l as [|x r]; [reflexivity|].
  apply Forall_cons in Hl as [Hx _].
  destruct x as [|a x]; [contradiction|]. simpl in Hx.
  assert (Ascii.eqb "/" a = false) as Ha.
  { rewrite Ascii.eqb_sym. now apply Ascii.eqb_neq. }
  assert (forall t, Js.startsWith (String a t) "/" = false) as H.
  { intros t. unfold Js.startsWith. cbn [Js.strip_prefix]. now rewrite Ha. }
  destruct r as [|y r]; [apply H|].
  exact (H (x +:+ "/" +:+ Js.join "/" (y :: r))).
Qed.

(** The result of [path.posix.relative] is never an absolute path. *)
Lemma relative_not_absolute (cwd from to : string) :
  Js.startsWith (PathPosix.relative cwd from to) "/" = false.
Proof.
  unfold PathPosix.relative. destruct (String.eqb from to); [reflexivity|].
  pose proof (drop_common_names (PathPosix.resolve cwd from) (PathPosix.resolve cwd to)
                (resolve_names cwd to)) as Hd.
  destruct (PathPosix.drop_common _ _) as [up down]. cbn [snd] in Hd.
  apply join_names. apply Forall_app. split; [|exact Hd].
  apply Forall_forall. intros x Hx. apply list_elem_of_fmap in Hx as (y & -> & _).
  discriminate.
Qed.

(** C2 as amended: when the transformation ends well on schemas whose
    relative keys are distinct and differ from the keys in use, every
    schema is transformed and found under its final key, its former key is
    gone when the two differ (moved, not copied), and the map has no other
    key.  The final key of the root is its own; the final key of another
    schema is its URL made relative to the directory of the root when both
    are file URLs, which is never an absolute path, and is its absolute URL
    otherwise (a remote schema, or a remote root). *)
Theorem C2_keys_relativized (P : Platform) (o : LoadOptions) (m m' : SchemaMap) :
  NoDup (obj_keys m) ->
  keys_compatible P o (obj_keys m) ->
  transform P o m = (Ok tt, m') ->
  (forall k d, obj_get k m = Some (Value d) ->
     exists r d',
       final_key P o k = Some r
       /\ internalize (transform_reviver P o k) KRoot d tt = (Ok d', tt)
       /\ obj_get r m' = Some (Value d')
       /\ (r <> k -> k ∉ obj_keys m'))
  /\ (forall x, x ∈ obj_keys m' -> exists k, k ∈ obj_keys m /\ final_key P o k = Some x)
  /\ (forall k u, k <> href (rootURL o) -> new_URL P k None = Some u ->
        final_key P o k
        = Some (if isFile u && isFile (rootURL o)
                then PathPosix.relative (cwd P) (PathPosix.dirname (href (rootURL o))) k
                else k)
        /\ (isFile u = true -> isFile (rootURL o) = true ->
            forall r, final_key P o k = Some r -> Js.startsWith r "/" = false)).
Proof.
  intros Hnd Hok Ht.
  destruct (transform_spec P o m Hnd Hok m' Ht) as [Hmv Hacc].
  split; [|split].
  - intros k d Hd.
    destruct (Hmv k d (obj_get_Some_keys _ _ _ Hd) Hd) as (r & d' & Hr & Hi & Hg & Hgone).
    exists r, d'. repeat split; try assumption.
    intros Hne. apply obj_get_None_keys. now apply Hgone.
  - intros x Hx.
    destruct (Hacc x) as [Hin|(k & Hk & Hf)].
    + intros Hn. now apply obj_get_None_keys in Hn.
    + now apply elem_of_nil in Hin.
    + now exists k.
  - intros k u Hk Hu.
    assert (final_key P o k = Some (relative_id P o u k)) as Hf.
    { unfold final_key. apply String.eqb_neq in Hk. now rewrite Hk, Hu. }
    split; [exact Hf|].
    intros Hfu Hfr r Hr. rewrite Hf in Hr. injection Hr as <-.
    unfold relative_id. rewrite Hfu, Hfr. apply relative_not_absolute.
Qed.

Lemma C2_keys_relativized_witness :
  exists r d',
    final_key Demo.platform (Demo.options_for Demo.root_a) "file:///specs/b.json" = Some r
    /\ internalize
         (transform_reviver Demo.platform (Demo.options_for Demo.root_a)
            "file:///specs/b.json")
         KRoot (JObject [("cat", Demo.ref "#/components/schemas/Cat")]) tt
       = (Ok d', tt)
    /\ obj_get r Demo.transformed_ab = Some (Value d')
    /\ (r <> "file:///specs/b.json" ->
        "file:///specs/b.json" ∉ obj_keys Demo.transformed_ab).
Proof.
  apply (proj1 (C2_keys_relativized Demo.platform (Demo.options_for Demo.root_a)
                  Demo.scanned_ab Demo.transformed_ab
                  ltac:(apply (bool_decide_unpack _); vm_compute; exact I)
                  ltac:(split; intros k1 k2 r H1 H2;
                        apply list_elem_of_In in H1, H2; simpl in H1, H2;
                        destruct H1 as [<-|[<-|[]]]; destruct H2 as [<-|[<-|[]]];
                        vm_compute; congruence)
                  ltac:(vm_compute; reflexivity))
           "file:///specs/b.json").
  reflexivity.
Defined.

(** C2 as stated fails for a remote schema under a file root: the schema
    stays under its absolute URL. *)
Lemma C2_counterexample :
  isFile Demo.root_c = true
  /\ fst (load Demo.platform 3 (Demo.options_for Demo.root_c)
            (SrcURL Demo.root_c) Demo.empty)
     = Ok [ ("file:///specs/c.json",
             Value (JObject [("pet", Demo.ref (external_form "https://example.com/pet.json"
                                                ["Pet"]))]));
            ("https://example.com/pet.json",
             Value (JObject [("type", JString "object")])) ]
  /\ "https://example.com/pet.json" <> href Demo.root_c
  /\ is_remote "https://example.com/pet.json" = true.
Proof. repeat split; try (vm_compute; reflexivity). discriminate. Qed.

(** * Further properties *)

(** ** The errors of the decoder *)

Lemma decode_declared (P : Platform) (contents contentType : string) :
  (yaml_type contentType -> decode P contents contentType = parseSchema P contents YAML)
  /\ (json_type contentType -> decode P contents contentType = parseSchema P contents JSON).
Proof.
  split.
  - intros [->| ->]; reflexivity.
  - intros [->|[->| ->]]; reflexivity.
Qed.

Lemma known_type_cases (contentType : string) :
  known_type contentType <-> yaml_type contentType \/ json_type contentType.
Proof.
  unfold known_type, yaml_type, json_type. rewrite !elem_of_cons.
  split.
  - intros [?|[?|[?|[?|[?|Hn]]]]]; auto. now apply elem_of_nil in Hn.
  - tauto.
Qed.

(** X1: a declared type never falls back to the other decoder: with a
    YAML content type the decoder returns what [yaml.load] returns and
    fails when it fails, with its error after [YAML: ], whether or not the
    text is valid JSON; with a JSON content type it does the same with
    [JSON.parse] and [JSON: ].  So the decoder fails in three ways, and in
    these only: [yaml.load] fails on a text of YAML type, [JSON.parse]
    fails on a text of JSON type, or both fail on a text of another type,
    with the Unknown format error. *)
Theorem X1_decode_errors (P : Platform) (contents contentType : string) (e : LoadError) :
  (yaml_type contentType ->
     decode P contents contentType =
       match yaml_load P contents with
       | inr v => Ok v
       | inl err => Err (ParseError ("YAML: " +:+ err))
       end)
  /\ (json_type contentType ->
       decode P contents contentType =
         match JSON_parse P contents with
         | inr d => Ok (Value d)
         | inl err => Err (ParseError ("JSON: " +:+ err))
         end)
  /\ (decode P contents contentType = Err e <->
      (yaml_type contentType
       /\ exists err, yaml_load P contents = inl err /\ e = ParseError ("YAML: " +:+ err))
      \/ (json_type contentType
          /\ exists err, JSON_parse P contents = inl err
                         /\ e = ParseError ("JSON: " +:+ err))
      \/ (~ known_type contentType
          /\ (exists err, JSON_parse P contents = inl err)
          /\ (exists err, yaml_load P contents = inl err)
          /\ e = UnknownFormat (unknown_format contentType))).
Proof.
  destruct (decode_declared P contents contentType) as [Hy Hj].
  split; [exact Hy|]. split; [exact Hj|].
  split.
  - intros H.
    destruct (decide (known_type contentType)) as [Hk|Hk].
    + apply known_type_cases in Hk as [Hk|Hk].
      * left. split; [exact Hk|]. rewrite (Hy Hk) in H. unfold parseSchema in H.
        destruct (yaml_load P contents) as [err|d]; [|discriminate].
        exists err. split; [reflexivity | congruence].
      * right. left. split; [exact Hk|]. rewrite (Hj Hk) in H. unfold parseSchema in H.
        destruct (JSON_parse P contents) as [err|d]; [|discriminate].
        exists err. split; [reflexivity | congruence].
    + right. right. split; [exact Hk|].
      rewrite (decode_unknown_type P _ _ Hk) in H. unfold parseSchema in H.
      destruct (JSON_parse P contents) as [e1|d]; [|discriminate].
      destruct (yaml_load P contents) as [e2|d]; [|discriminate].
      split; [now exists e1|]. split; [now exists e2 | congruence].
  - intros [[Hk (err & Hl & ->)]|[[Hk (err & Hl & ->)]|(Hk & [e1 H1] & [e2 H2] & ->)]].
    + rewrite (Hy Hk). unfold parseSchema. now rewrite Hl.
    + rewrite (Hj Hk). unfold parseSchema. now rewrite Hl.
    + rewrite (decode_unknown_type P _ _ Hk). unfold parseSchema. now rewrite H1, H2.
Qed.

(** The text [<d.yaml>], which only [yaml.load] accepts, is not decoded
    when its type is declared as JSON. *)
Lemma X1_decode_errors_witness :
  json_type "application/json"
  /\ yaml_load Demo.platform "<d.yaml>"
     = inr (Value (JObject [("openapi", JString "3.0.0")]))
  /\ decode Demo.platform "<d.yaml>" "application/json"
     = Err (ParseError "JSON: SyntaxError: unexpected input").
Proof.
  assert (json_type "application/json") as Hj by (left; reflexivity).
  split; [exact Hj|]. split; [reflexivity|].
  apply (proj2 (proj2 (X1_decode_errors Demo.platform "<d.yaml>" "application/json"
                         (ParseError "JSON: SyntaxError: unexpected input")))).
  right. left. split; [exact Hj|].
  exists "SyntaxError: unexpected input". split; reflexivity.
Defined.

(** ** References inside external schemas, and into the root *)

(** X2: in a schema other than the root, a reference with no url-part
    is wrapped as external under the relative key of the schema that holds
    it: [external["id"]["p1"]["p2"]...], and [external["id"][""]] when it
    has no Part. *)
Theorem X2_implicit_external (P : Platform) (o : LoadOptions)
    (subschemaURL ref : string) (parts : list string) (u : URL) :
  Js.includes ref "#" = true ->
  parseRef ref = ("", parts) ->
  subschemaURL <> href (rootURL o) ->
  new_URL P subschemaURL None = Some u ->
  transform_reviver P o subschemaURL (KProp "$ref") (JString ref) tt =
    (Ok (JString match parts with
                 | [] => "external" +:+ bracket (relative_id P o u subschemaURL)
                         +:+ bracket ""
                 | _ => external_form (relative_id P o u subschemaURL) parts
                 end), tt).
Proof.
  intros Hi Hp Hne Hu.
  unfold transform_reviver. cbn [is_ref_key]. rewrite String.eqb_refl.
  unfold transform_ref. rewrite Hi. cbn [negb]. rewrite Hp. cbn [Js.truthy].
  apply String.eqb_neq in Hne. rewrite Hne. cbn [negb]. rewrite Hu.
  now rewrite emit_external_form.
Qed.

Lemma X2_implicit_external_witness :
  transform_reviver Demo.platform (Demo.options_for Demo.root_a)
    "file:///specs/b.json" (KProp "$ref") (JString "#/components/schemas/Cat") tt
  = (Ok (JString (external_form "b.json" ["components"; "schemas"; "Cat"])), tt).
Proof.
  apply (X2_implicit_external Demo.platform (Demo.options_for Demo.root_a)
           "file:///specs/b.json" "#/components/schemas/Cat"
           ["components"; "schemas"; "Cat"] (Demo.file_url "file:///specs/b.json"));
    [reflexivity | reflexivity | discriminate | reflexivity].
Defined.

Lemma collapse_properties_other (parts : list string) :
  (2 <= length parts -> parts !! (length parts - 2) <> Some "properties") ->
  collapse_properties parts = parts.
Proof.
  intros H. unfold collapse_properties.
  destruct (Nat.leb_spec 2 (length parts)) as [Hle|]; [|reflexivity].
  specialize (H Hle).
  destruct (parts !! (length parts - 2)) as [x|]; [|reflexivity].
  destruct (String.eqb_spec x "properties") as [->|]; [congruence | reflexivity].
Qed.

(** X3: a reference into the root (no url-part inside the root
    document, or the URL of the root as url-part) whose second-to-last
    Part is not [properties] keeps all its Parts: it becomes
    [p1["p2"]["p3"]...], [p1[""]] when it has one Part, and
    [undefined[""]] when it has none. *)
Theorem X3_root_reference (P : Platform) (o : LoadOptions)
    (subschemaURL ref url : string) (parts : list string) :
  Js.includes ref "#" = true ->
  parseRef ref = (url, parts) ->
  (url = "" /\ subschemaURL = href (rootURL o))
  \/ (url <> "" /\ exists u, new_URL P url None = Some u /\ href u = href (rootURL o)) ->
  (2 <= length parts -> parts !! (length parts - 2) <> Some "properties") ->
  transform_reviver P o subschemaURL (KProp "$ref") (JString ref) tt =
    (Ok (JString match parts with
                 | [] => "undefined" +:+ bracket ""
                 | [base] => base +:+ bracket ""
                 | base :: rest => root_form base rest
                 end), tt).
Proof.
  intros Hi Hp Hroot Hprop.
  unfold transform_reviver. cbn [is_ref_key]. rewrite String.eqb_refl.
  unfold transform_ref. rewrite Hi. cbn [negb]. rewrite Hp.
  rewrite (collapse_properties_other parts Hprop).
  assert (emit_root parts =
          match parts with
          | [] => "undefined" +:+ bracket ""
          | [base] => base +:+ bracket ""
          | base :: rest => root_form base rest
          end) as Hemit.
  { destruct parts as [|base rest]; [reflexivity|].
    rewrite emit_root_form. destruct rest; reflexivity. }
  destruct Hroot as [[-> ->]|[Hurl (u & Hu & Hh)]].
  - cbn [Js.truthy]. rewrite String.eqb_refl. cbn [negb]. now rewrite Hemit.
  - rewrite (truthy_ne _ Hurl), Hu, Hh, String.eqb_refl. cbn [negb].
    now rewrite Hemit.
Qed.

Lemma X3_root_reference_witness :
  transform_reviver Demo.platform (Demo.options_for Demo.root_a)
    "file:///specs/b.json" (KProp "$ref")
    (JString "file:///specs/a.json#/components/schemas/Pet") tt
  = (Ok (JString (root_form "components" ["schemas"; "Pet"])), tt).
Proof.
  apply (X3_root_reference Demo.platform (Demo.options_for Demo.root_a)
           "file:///specs/b.json" "file:///specs/a.json#/components/schemas/Pet"
           "file:///specs/a.json" ["components"; "schemas"; "Pet"]);
    [reflexivity | reflexivity | | intros _; discriminate].
  right. split; [discriminate|]. exists Demo.root_a. split; reflexivity.
Defined.

(** ** Walks that change nothing, or only the document *)

Section WalkFrames.
Context {S : Type} (rv : Key -> Doc -> M S Doc).
Context (rv_other : forall k d s, own_pointer k d = [] -> rv k d s = (Ok d, s)).

(** A reviver that returns the pointers satisfying [pre] as they are
    leaves a document with such pointers, and the state, as they are. *)
Lemma internalize_id (pre : string -> Prop) :
  (forall k ref s, own_pointer k (JString ref) = [ref] -> pre ref ->
     rv k (JString ref) s = (Ok (JString ref), s)) ->
  forall d k s, Forall pre (pointers d ++ own_pointer k d) ->
    internalize rv k d s = (Ok d, s).
Proof.
  intros rv_pointer.
  induction d as [| b | n | str | items IH | props IH] using Doc_induction;
    intros k s Hpre; try (simpl; now apply rv_other).
  - simpl internalize. simpl in Hpre.
    destruct (is_ref_key k) eqn:Ek.
    + apply Forall_cons in Hpre as [Hpre _].
      apply rv_pointer; [simpl; now rewrite Ek | exact Hpre].
    + apply rv_other. simpl. now rewrite Ek.
  - rewrite internalize_array. simpl own_pointer in Hpre. rewrite app_nil_r in Hpre.
    assert (forall i s, Forall pre (pointers (JArray items)) ->
              internalize_elems rv i items s = (Ok items, s)) as Hl.
    { clear Hpre. induction IH as [|x r Hx _ IHr]; intros i s0 Hpre; simpl; [reflexivity|].
      simpl in Hpre. apply Forall_app in Hpre as [Hpx Hpr].
      rewrite (Hx (KIndex i) s0).
      - now rewrite (IHr (Datatypes.S i) s0 Hpr).
      - assert (own_pointer (KIndex i) x = []) as -> by (destruct x; reflexivity).
        now rewrite app_nil_r. }
    rewrite (Hl 0 s Hpre). now apply rv_other.
  - rewrite internalize_object. simpl own_pointer in Hpre. rewrite app_nil_r in Hpre.
    assert (forall s, Forall pre (pointers (JObject props)) ->
              internalize_fields rv props s = (Ok props, s)) as Hl.
    { clear Hpre. induction IH as [|[name x] r Hx _ IHr]; intros s0 Hpre; simpl; [reflexivity|].
      simpl in Hpre. rewrite app_assoc in Hpre. apply Forall_app in Hpre as [Hpx Hpr].
      simpl snd in Hx. rewrite (Hx (KProp name) s0 Hpx).
      now rewrite (IHr s0 Hpr). }
    rewrite (Hl s Hpre). now apply rv_other.
Qed.

(** A reviver that, in the state [s0], returns on the pointers satisfying
    [pre] without changing the state, walks a document with such pointers
    without changing the state. *)
Lemma internalize_frame (pre : string -> Prop) (s0 : S) :
  (forall k ref, own_pointer k (JString ref) = [ref] -> pre ref ->
     exists v, rv k (JString ref) s0 = (Ok v, s0)) ->
  forall d k, Forall pre (pointers d ++ own_pointer k d) ->
    exists d', internalize rv k d s0 = (Ok d', s0).
Proof.
  intros rv_pointer.
  induction d as [| b | n | str | items IH | props IH] using Doc_induction;
    intros k Hpre; try (eexists; simpl; now apply rv_other).
  - simpl internalize. simpl in Hpre.
    destruct (is_ref_key k) eqn:Ek.
    + apply Forall_cons in Hpre as [Hpre _].
      apply rv_pointer; [simpl; now rewrite Ek | exact Hpre].
    + eexists. apply rv_other. simpl. now rewrite Ek.
  - rewrite internalize_array. simpl own_pointer in Hpre. rewrite app_nil_r in Hpre.
    assert (forall i, Forall pre (pointers (JArray items)) ->
              exists items', internalize_elems rv i items s0 = (Ok items', s0)) as Hl.
    { clear Hpre. induction IH as [|x r Hx _ IHr]; intros i Hpre; simpl; [now eexists|].
      simpl in Hpre. apply Forall_app in Hpre as [Hpx Hpr].
      destruct (Hx (KIndex i)) as [x' Ex].
      { assert (own_pointer (KIndex i) x = []) as -> by (destruct x; reflexivity).
        now rewrite app_nil_r. }
      rewrite Ex. destruct (IHr (Datatypes.S i) Hpr) as [r' Er]. rewrite Er. now eexists. }
    destruct (Hl 0 Hpre) as [items' E]. rewrite E. eexists. now apply rv_other.
  - rewrite internalize_object. simpl own_pointer in Hpre. rewrite app_nil_r in Hpre.
    assert (Forall pre (pointers (JObject props)) ->
              exists props', internalize_fields rv props s0 = (Ok props', s0)) as Hl.
    { clear Hpre. induction IH as [|[name x] r Hx _ IHr]; intros Hpre; simpl; [now eexists|].
      simpl in Hpre. rewrite app_assoc in Hpre. apply Forall_app in Hpre as [Hpx Hpr].
      simpl snd in Hx. destruct (Hx (KProp name) Hpx) as [x' Ex]. rewrite Ex.
      destruct (IHr Hpr) as [r' Er]. rewrite Er. now eexists. }
    destruct (Hl Hpre) as [props' E]. rewrite E. eexists. now apply rv_other.
Qed.

(** A reviver that returns [f] of the pointer, on every pointer it
    returns from, makes of a document the same document with [f] applied
    to its pointers. *)
Lemma internalize_maps (f : string -> string) :
  (forall k ref s d' s', own_pointer k (JString ref) = [ref] ->
     rv k (JString ref) s = (Ok d', s') -> d' = JString (f ref)) ->
  forall d k s d' s', internalize rv k d s = (Ok d', s') -> d' = map_at f k d.
Proof.
  intros rv_pointer.
  induction d as [| b | n | str | items IH | props IH] using Doc_induction;
    intros k s d' s' H.
  - simpl in H. rewrite (rv_other k JNull s eq_refl) in H. now injection H as <- _.
  - simpl in H. rewrite (rv_other k (JBool b) s eq_refl) in H. now injection H as <- _.
  - simpl in H. rewrite (rv_other k (JNumber n) s eq_refl) in H. now injection H as <- _.
  - simpl internalize in H. unfold map_at.
    destruct (is_ref_key k) eqn:Ek.
    + apply (rv_pointer k str s d' s'); [simpl; now rewrite Ek | exact H].
    + rewrite (rv_other k (JString str) s) in H by (simpl; now rewrite Ek).
      now injection H as <- _.
  - rewrite internalize_array in H.
    assert (forall i s items' s', internalize_elems rv i items s = (Ok items', s') ->
              JArray items' = map_pointers f (JArray items)) as Hl.
    { clear H. induction IH as [|x r Hx _ IHr]; intros i s0 items' s0' H; simpl in H.
      - now injection H as <- _.
      - destruct (internalize rv (KIndex i) x s0) as [[x'|e] s1] eqn:Ex; [|discriminate].
        destruct (internalize_elems rv (Datatypes.S i) r s1) as [[r'|e] s2] eqn:Er;
          [|discriminate].
        injection H as <- _. apply Hx in Ex. apply IHr in Er.
        simpl in Er |- *. injection Er as ->. f_equal. f_equal.
        rewrite Ex. unfold map_at. now destruct x. }
    destruct (internalize_elems rv 0 items s) as [[items'|e] s1] eqn:El; [|discriminate].
    rewrite (rv_other k (JArray items') s1 eq_refl) in H. injection H as <- _.
    exact (Hl 0 s items' s1 El).
  - rewrite internalize_object in H.
    assert (forall s props' s', internalize_fields rv props s = (Ok props', s') ->
              JObject props' = map_pointers f (JObject props)) as Hl.
    { clear H. induction IH as [|[name x] r Hx _ IHr]; intros s0 props' s0' H; simpl in H.
      - now injection H as <- _.
      - destruct (internalize rv (KProp name) x s0) as [[x'|e] s1] eqn:Ex; [|discriminate].
        destruct (internalize_fields rv r s1) as [[r'|e] s2] eqn:Er; [|discriminate].
        injection H as <- _. apply Hx in Ex. apply IHr in Er.
        simpl in Er |- *. injection Er as ->. f_equal. f_equal.
        rewrite Ex. reflexivity. }
    destruct (internalize_fields rv props s) as [[props'|e] s1] eqn:El; [|discriminate].
    rewrite (rv_other k (JObject props') s1 eq_refl) in H. injection H as <- _.
    exact (Hl s props' s1 El).
Qed.

(** A property of the state that the reviver keeps at every pointer
    satisfying [pre] holds after the walk of a document with such
    pointers, if it held before. *)
Lemma internalize_invariant (pre : string -> Prop) (Inv : S -> Prop) :
  (forall k ref s, own_pointer k (JString ref) = [ref] -> pre ref -> Inv s ->
     Inv (snd (rv k (JString ref) s))) ->
  forall d k s, Forall pre (pointers d ++ own_pointer k d) -> Inv s ->
    Inv (snd (internalize rv k d s)).
Proof.
  intros rv_pointer.
  induction d as [| b | n | str | items IH | props IH] using Doc_induction;
    intros k s Hpre Hinv.
  - simpl. now rewrite (rv_other k JNull s eq_refl).
  - simpl. now rewrite (rv_other k (JBool b) s eq_refl).
  - simpl. now rewrite (rv_other k (JNumber n) s eq_refl).
  - simpl internalize. simpl in Hpre.
    destruct (is_ref_key k) eqn:Ek.
    + apply Forall_cons in Hpre as [Hpre _].
      apply rv_pointer; [simpl; now rewrite Ek | exact Hpre | exact Hinv].
    + rewrite (rv_other k (JString str) s) by (simpl; now rewrite Ek). exact Hinv.
  - rewrite internalize_array. simpl own_pointer in Hpre. rewrite app_nil_r in Hpre.
    assert (forall i s, Forall pre (pointers (JArray items)) -> Inv s ->
              Inv (snd (internalize_elems rv i items s))) as Hl.
    { clear Hpre Hinv.
      induction IH as [|x r Hx _ IHr]; intros i s0 Hpre Hinv; simpl; [exact Hinv|].
      simpl in Hpre. apply Forall_app in Hpre as [Hpx Hpr].
      specialize (Hx (KIndex i) s0).
      assert (own_pointer (KIndex i) x = []) as Hown by (destruct x; reflexivity).
      rewrite Hown, app_nil_r in Hx. specialize (Hx Hpx Hinv).
      destruct (internalize rv (KIndex i) x s0) as [[x'|e] s1]; [|exact Hx].
      specialize (IHr (Datatypes.S i) s1 Hpr Hx).
      now destruct (internalize_elems rv (Datatypes.S i) r s1) as [[r'|e] s2]. }
    specialize (Hl 0 s Hpre Hinv).
    destruct (internalize_elems rv 0 items s) as [[items'|e] s1]; [|exact Hl].
    now rewrite (rv_other k (JArray items') s1 eq_refl).
  - rewrite internalize_object. simpl own_pointer in Hpre. rewrite app_nil_r in Hpre.
    assert (forall s, Forall pre (pointers (JObject props)) -> Inv s ->
              Inv (snd (internalize_fields rv props s))) as Hl.
    { clear Hpre Hinv.
      induction IH as [|[name x] r Hx _ IHr]; intros s0 Hpre Hinv; simpl; [exact Hinv|].
      simpl in Hpre. rewrite app_assoc in Hpre. apply Forall_app in Hpre as [Hpx Hpr].
      specialize (Hx (KProp name) s0 Hpx Hinv). simpl snd in Hx.
      destruct (internalize rv (KProp name) x s0) as [[x'|e] s1]; [|exact Hx].
      specialize (IHr s1 Hpr Hx).
      now destruct (internalize_fields rv r s1) as [[r'|e] s2]. }
    specialize (Hl s Hpre Hinv).
    destruct (internalize_fields rv props s) as [[props'|e] s1]; [|exact Hl].
    now rewrite (rv_other k (JObject props') s1 eq_refl).
Qed.

(** A property of a pointer and a state, kept along a relation the
    reviver respects, and established by the reviver on every pointer it
    returns from, holds of every pointer in the state after the walk. *)
Section Established.
Context (R : S -> S -> Prop).
Context (R_refl : forall s, R s s) (R_trans : forall a b c, R a b -> R b c -> R a c).
Context (rv_R : forall k d s, R s (snd (rv k d s))).
Context (good : string -> S -> Prop).
Context (good_kept : forall ref a b, good ref a -> R a b -> good ref b).
Context (rv_good : forall k ref s, own_pointer k (JString ref) = [ref] ->
           match rv k (JString ref) s with
           | (Ok _, s') => good ref s'
           | (Err _, _) => True
           end).

Lemma internalize_established (d : Doc) :
  forall k s,
    match internalize rv k d s with
    | (Ok _, s') => Forall (fun ref => good ref s') (pointers d ++ own_pointer k d)
    | (Err _, _) => True
    end.
Proof.
  induction d as [| b | n | str | items IH | props IH] using Doc_induction; intros k s.
  - simpl. rewrite (rv_other k JNull s eq_refl). constructor.
  - simpl. rewrite (rv_other k (JBool b) s eq_refl). constructor.
  - simpl. rewrite (rv_other k (JNumber n) s eq_refl). constructor.
  - simpl internalize. simpl.
    destruct (is_ref_key k) eqn:Ek.
    + assert (own_pointer k (JString str) = [str]) as Hown by (simpl; now rewrite Ek).
      pose proof (rv_good k str s Hown) as H.
      destruct (rv k (JString str) s) as [[d'|e] s']; [|exact I].
      constructor; [exact H | constructor].
    + rewrite (rv_other k (JString str) s) by (simpl; now rewrite Ek). constructor.
  - rewrite internalize_array. simpl own_pointer. rewrite app_nil_r.
    assert (forall i s,
              match internalize_elems rv i items s with
              | (Ok _, s') => R s s' /\ Forall (fun ref => good ref s') (pointers (JArray items))
              | (Err _, _) => True
              end) as Hl.
    { induction IH as [|x r Hx _ IHr]; intros i s0; simpl; [split; [apply R_refl | constructor]|].
      specialize (Hx (KIndex i) s0).
      assert (own_pointer (KIndex i) x = []) as Hown by (destruct x; reflexivity).
      rewrite Hown, app_nil_r in Hx.
      pose proof (internalize_preserves rv R R_refl R_trans rv_R x (KIndex i) s0) as HR1.
      destruct (internalize rv (KIndex i) x s0) as [[x'|e] s1]; [|exact I].
      specialize (IHr (Datatypes.S i) s1).
      destruct (internalize_elems rv (Datatypes.S i) r s1) as [[r'|e] s2]; [|exact I].
      destruct IHr as [HR2 Hr]. cbn [snd] in HR1. split; [eapply R_trans; eassumption|].
      apply Forall_app. split; [|exact Hr].
      eapply Forall_impl; [exact Hx|]. intros ref Hg. exact (good_kept _ _ _ Hg HR2). }
    specialize (Hl 0 s).
    destruct (internalize_elems rv 0 items s) as [[items'|e] s']; [|exact I].
    destruct Hl as [_ Hl]. rewrite (rv_other k (JArray items') s' eq_refl). exact Hl.
  - rewrite internalize_object. simpl own_pointer. rewrite app_nil_r.
    assert (forall s,
              match internalize_fields rv props s with
              | (Ok _, s') => R s s' /\ Forall (fun ref => good ref s') (pointers (JObject props))
              | (Err _, _) => True
              end) as Hl.
    { induction IH as [|[name x] r Hx _ IHr]; intros s0; simpl; [split; [apply R_refl | constructor]|].
      specialize (Hx (KProp name) s0). simpl snd in Hx.
      pose proof (internalize_preserves rv R R_refl R_trans rv_R x (KProp name) s0) as HR1.
      destruct (internalize rv (KProp name) x s0) as [[x'|e] s1]; [|exact I].
      specialize (IHr s1).
      destruct (internalize_fields rv r s1) as [[r'|e] s2]; [|exact I].
      destruct IHr as [HR2 Hr]. cbn [snd] in HR1. split; [eapply R_trans; eassumption|].
      rewrite app_assoc. apply Forall_app. split; [|exact Hr].
      eapply Forall_impl; [exact Hx|]. intros ref Hg. exact (good_kept _ _ _ Hg HR2). }
    specialize (Hl s).
    destruct (internalize_fields rv props s) as [[props'|e] s']; [|exact I].
    destruct Hl as [_ Hl]. rewrite (rv_other k (JObject props') s' eq_refl). exact Hl.
Qed.
End Established.

End WalkFrames.

(** ** More on the scan *)

Section ScanMore.
Context (P : Platform) (o : LoadOptions).

Lemma load_begin_cached u st :
  href u ∈ urlCache st -> load_begin P o u st = (false, st).
Proof. intros Hc. unfold load_begin. now rewrite decide_True by exact Hc. Qed.

Lemma load_begin_visited u st : href u ∈ urlCache (snd (load_begin P o u st)).
Proof.
  destruct (decide (href u ∈ urlCache st)) as [Hc|Hc].
  - now rewrite load_begin_cached.
  - now destruct (load_begin_fresh P o u st Hc) as (_ & H & _).
Qed.

Lemma load_begin_schemas u st : schemas (snd (load_begin P o u st)) = schemas st.
Proof.
  destruct (decide (href u ∈ urlCache st)) as [Hc|Hc].
  - now rewrite load_begin_cached.
  - now destruct (load_begin_fresh P o u st Hc) as (_ & _ & H).
Qed.

Lemma scan_reviver_pointer schema k ref s :
  own_pointer k (JString ref) = [ref] ->
  scan_reviver P o schema k (JString ref) s =
    if Js.truthy (url_part ref) then
      if (match schema with SrcJSON _ => true | SrcURL _ => false end)
         && negb (is_remote (url_part ref))
      then (Err (UnresolvableReference (cannot_load_dynamic (url_part ref))), s)
      else
        match next_URL P schema (url_part ref) with
        | None => (Err (InvalidURL (url_part ref)), s)
        | Some nextURL =>
            (Ok (JString (Js.replace ref (url_part ref) (href nextURL))),
             (snd (load_begin P o nextURL (fst s)),
              if fst (load_begin P o nextURL (fst s))
              then snd s ++ [nextURL] else snd s))
        end
    else (Ok (JString ref), s).
Proof.
  simpl. unfold scan_reviver. destruct (is_ref_key k); [|discriminate]. intros _.
  fold (url_part ref). destruct (Js.truthy (url_part ref)); [|reflexivity].
  destruct (_ && _); [reflexivity|].
  destruct (next_URL P schema (url_part ref)) as [nextURL|]; [|reflexivity].
  now destruct (load_begin P o nextURL (fst s)).
Qed.

Lemma scan_reviver_schemas schema k d (s : Store * list URL) :
  schemas (fst (snd (scan_reviver P o schema k d s))) = schemas (fst s).
Proof.
  unfold scan_reviver.
  destruct d; try reflexivity.
  destruct (is_ref_key k); [|reflexivity].
  destruct (Js.truthy _); [|reflexivity].
  destruct (_ && _); [reflexivity|].
  destruct (next_URL P schema _) as [nextURL|]; [|reflexivity].
  pose proof (load_begin_schemas nextURL (fst s)) as H.
  destruct (load_begin P o nextURL (fst s)) as [pending st']. exact H.
Qed.

End ScanMore.

Lemma scan_local_only (P : Platform) (o : LoadOptions) (schema : Source)
    (d : Doc) (s : Store * list URL) :
  Forall local_pointer (pointers d) ->
  internalize (scan_reviver P o schema) KRoot d s = (Ok d, s).
Proof.
  intros Hall.
  apply (internalize_id (scan_reviver P o schema)
           (scan_reviver_other P o schema) local_pointer).
  - intros k ref s0 Hown Hloc. rewrite (scan_reviver_pointer P o schema k ref s0 Hown).
    unfold local_pointer in Hloc. now rewrite Hloc.
  - destruct d; simpl own_pointer; now rewrite app_nil_r.
Qed.

(** The document a scan returns is the document scanned, with its
    pointers rewritten. *)
Lemma scan_result (P : Platform) (o : LoadOptions) (schema : Source)
    (d d' : Doc) (s s' : Store * list URL) :
  internalize (scan_reviver P o schema) KRoot d s = (Ok d', s') ->
  d' = map_pointers (rewrite_pointer P schema) d.
Proof.
  intros H.
  assert (d' = map_at (rewrite_pointer P schema) KRoot d) as ->.
  { apply (internalize_maps (scan_reviver P o schema) (scan_reviver_other P o schema)
             (rewrite_pointer P schema)) with (s := s) (s' := s'); [|exact H].
    intros k ref s0 d0 s0' Hown. rewrite (scan_reviver_pointer P o schema k ref s0 Hown).
    unfold rewrite_pointer. destruct (Js.truthy (url_part ref)).
    - destruct (_ && _); [discriminate|].
      destruct (next_URL P schema (url_part ref)); [|discriminate].
      now intros [= <- _].
    - now intros [= <- _]. }
  now destruct d.
Qed.

(** X4: the scan of a document whose pointers all lack a url-part
    returns the document as it is and leaves the store as it is: no child
    is started, nothing is read or requested. *)
Theorem X4_scan_local_only (P : Platform) (o : LoadOptions) (schema : Source)
    (d : Doc) (s : Store * list URL) :
  Forall local_pointer (pointers d) ->
  internalize (scan_reviver P o schema) KRoot d s = (Ok d, s).
Proof. apply scan_local_only. Qed.

Lemma X4_scan_local_only_witness :
  internalize (scan_reviver Demo.platform (Demo.options_for Demo.root_a)
                 (SrcURL (Demo.file_url "file:///specs/b.json")))
    KRoot (JObject [("cat", Demo.ref "#/components/schemas/Cat")]) (Demo.empty, [])
  = (Ok (JObject [("cat", Demo.ref "#/components/schemas/Cat")]), (Demo.empty, [])).
Proof.
  apply (X4_scan_local_only Demo.platform).
  repeat constructor.
Defined.

(** X5: the transformation returns a document whose pointers have no
    fragment delimiter as it is, whatever the schema that holds it: a
    document already transformed is not transformed again, and no URL of
    it is parsed. *)
Theorem X5_transform_skips (P : Platform) (o : LoadOptions) (subschemaURL : string)
    (d : Doc) :
  Forall transformed_pointer (pointers d) ->
  internalize (transform_reviver P o subschemaURL) KRoot d tt = (Ok d, tt).
Proof.
  intros Hall.
  apply (internalize_id (transform_reviver P o subschemaURL)
           (transform_reviver_other P o subschemaURL) transformed_pointer).
  - intros k ref s Hown Ht. simpl in Hown. unfold transform_reviver.
    destruct (is_ref_key k); [|discriminate].
    unfold transform_ref. unfold transformed_pointer in Ht. rewrite Ht.
    now destruct s.
  - destruct d; simpl own_pointer; now rewrite app_nil_r.
Qed.

Lemma X5_transform_skips_witness :
  internalize (transform_reviver Demo.platform (Demo.options_for Demo.root_a) "b.json")
    KRoot (JObject [("cat", Demo.ref (external_form "b.json" ["Cat"]))]) tt
  = (Ok (JObject [("cat", Demo.ref (external_form "b.json" ["Cat"]))]), tt).
Proof.
  apply (X5_transform_skips Demo.platform).
  repeat constructor.
Defined.

(** X6: what the scan does at one pointer with a url-part, when the URL
    of the child has no dollar sign: the pointer becomes that URL, the
    delimiter and the fragment as it was; the child is started, which adds
    its URL to the set and starts its read or request unless it is in the
    set already; a child in the set returns at once, so that only a child
    started now is left to await. *)
Theorem X6_scan_pointer (P : Platform) (o : LoadOptions) (schema : Source)
    (ref url fragment : string) (nextURL : URL) (s : Store * list URL) :
  Js.find_sub "#" ref = Some (url, fragment) ->
  url <> "" ->
  (match schema with SrcJSON _ => is_remote url = true | SrcURL _ => True end) ->
  next_URL P schema url = Some nextURL ->
  plain (href nextURL) = true ->
  scan_reviver P o schema (KProp "$ref") (JString ref) s =
    (Ok (JString (href nextURL +:+ "#" +:+ fragment)),
     (snd (load_begin P o nextURL (fst s)),
      if decide (href nextURL ∈ urlCache (fst s)) then snd s else snd s ++ [nextURL])).
Proof.
  intros Hf Hurl Hmode Hnext Hplain.
  rewrite (scan_reviver_pointer P o schema (KProp "$ref") ref s eq_refl).
  assert (url_part ref = url) as -> by (unfold url_part, parseRef; now rewrite Hf).
  rewrite (truthy_ne _ Hurl).
  assert ((match schema with SrcJSON _ => true | SrcURL _ => false end)
          && negb (is_remote url) = false) as ->.
  { destruct schema; [reflexivity|]. now rewrite Hmode. }
  rewrite Hnext, (find_sub_Some _ _ _ _ Hf), replace_prefix,
    get_substitution_plain by exact Hplain.
  f_equal. f_equal.
  destruct (decide (href nextURL ∈ urlCache (fst s))) as [Hc|Hc].
  - now rewrite load_begin_cached.
  - now destruct (load_begin_fresh P o nextURL (fst s) Hc) as (-> & _ & _).
Qed.

Lemma X6_scan_pointer_witness :
  scan_reviver Demo.platform (Demo.options_for Demo.root_a) (SrcURL Demo.root_a)
    (KProp "$ref") (JString "./b.json#/components/schemas/Dog") (Demo.empty, [])
  = (Ok (JString ("file:///specs/b.json" +:+ "#" +:+ "/components/schemas/Dog")),
     (snd (load_begin Demo.platform (Demo.options_for Demo.root_a)
             (Demo.file_url "file:///specs/b.json") Demo.empty),
      if decide ("file:///specs/b.json" ∈ urlCache Demo.empty)
      then [] else [] ++ [Demo.file_url "file:///specs/b.json"])).
Proof.
  apply (X6_scan_pointer Demo.platform (Demo.options_for Demo.root_a)
           (SrcURL Demo.root_a) "./b.json#/components/schemas/Dog" "./b.json"
           "/components/schemas/Dog" (Demo.file_url "file:///specs/b.json")
           (Demo.empty, []));
    [reflexivity | discriminate | exact I | reflexivity | reflexivity].
Defined.

(** X7: when a scan returns, the URL of the child of every pointer with
    a url-part is in the set of visited URLs: every document referred to
    has been started, by this call or before it. *)
Theorem X7_scan_visits_targets (P : Platform) (o : LoadOptions) (schema : Source)
    (d d' : Doc) (s s' : Store * list URL) :
  internalize (scan_reviver P o schema) KRoot d s = (Ok d', s') ->
  Forall (target_visited P schema (urlCache (fst s'))) (pointers d).
Proof.
  intros H.
  pose proof (internalize_established (scan_reviver P o schema)
                (scan_reviver_other P o schema)
                (fun a b => cache_grows (fst a) (fst b))
                (fun a => cache_grows_refl (fst a))
                (fun a b c => cache_grows_trans (fst a) (fst b) (fst c))) as Hest.
  specialize (Hest (fun k d0 s0 =>
                      scan_reviver_rel P o cache_grows cache_grows_refl
                        (load_begin_grows P o) schema k d0 s0)).
  specialize (Hest (fun ref st => target_visited P schema (urlCache (fst st)) ref)).
  assert (Hkept : forall ref (a b : Store * list URL),
            target_visited P schema (urlCache (fst a)) ref ->
            cache_grows (fst a) (fst b) ->
            target_visited P schema (urlCache (fst b)) ref).
  { intros ref a b [Hl|(n & Hn & Hin)] Hg; [now left|].
    right. exists n. split; [exact Hn|]. unfold cache_grows in Hg. set_solver. }
  assert (Hgood : forall k ref s0, own_pointer k (JString ref) = [ref] ->
            match scan_reviver P o schema k (JString ref) s0 with
            | (Ok _, st) => target_visited P schema (urlCache (fst st)) ref
            | (Err _, _) => True
            end).
  { intros k ref s0 Hown. rewrite (scan_reviver_pointer P o schema k ref s0 Hown).
    destruct (Js.truthy (url_part ref)) eqn:Et.
    - destruct (_ && _); [exact I|].
      destruct (next_URL P schema (url_part ref)) as [n|] eqn:En; [|exact I].
      right. exists n. split; [exact En|]. cbn [fst]. apply load_begin_visited.
    - left. destruct (url_part ref); [reflexivity | discriminate]. }
  specialize (Hest Hkept Hgood d KRoot s). rewrite H in Hest.
  destruct d; simpl own_pointer in Hest; now rewrite app_nil_r in Hest.
Qed.

Lemma X7_scan_visits_targets_witness :
  Forall (target_visited Demo.platform (SrcURL Demo.root_a)
            (urlCache (snd (load_begin Demo.platform (Demo.options_for Demo.root_a)
                              (Demo.file_url "file:///specs/b.json") Demo.empty))))
    (pointers (Demo.ref "./b.json#/components/schemas/Dog")).
Proof.
  apply (X7_scan_visits_targets Demo.platform (Demo.options_for Demo.root_a)
           (SrcURL Demo.root_a) (Demo.ref "./b.json#/components/schemas/Dog")
           (Demo.ref "file:///specs/b.json#/components/schemas/Dog")
           (Demo.empty, [])
           (snd (load_begin Demo.platform (Demo.options_for Demo.root_a)
                   (Demo.file_url "file:///specs/b.json") Demo.empty),
            [Demo.file_url "file:///specs/b.json"])).
  vm_compute. reflexivity.
Defined.

(** X8: the scan writes nothing to the schemas; so, when it throws, the
    load fails with its error and the document of the call is stored as it
    was decoded, the schemas being otherwise as before the call. *)
Theorem X8_scan_keeps_schemas (P : Platform) (o : LoadOptions) (schema : Source)
    (d : Doc) :
  (forall k s, schemas (fst (snd (internalize (scan_reviver P o schema) k d s)))
               = schemas (fst s))
  /\ (forall recur st e s',
        internalize (scan_reviver P o schema) KRoot d
          (set_schema (schema_id schema) (Value d) st, []) = (Err e, s') ->
        load_document P recur o schema d st = (Err e, fst s')
        /\ schemas (fst s') = obj_set (schema_id schema) (Value d) (schemas st)).
Proof.
  assert (forall k s, schemas (fst (snd (internalize (scan_reviver P o schema) k d s)))
                      = schemas (fst s)) as Hk.
  { intros k s. symmetry.
    apply (internalize_preserves (scan_reviver P o schema)
             (fun a b => schemas (fst a) = schemas (fst b))).
    - reflexivity.
    - intros a b c. congruence.
    - intros k0 d0 s0. symmetry. apply scan_reviver_schemas. }
  split; [exact Hk|].
  intros recur st e s' H. unfold load_document. rewrite H. destruct s' as [st2 pend].
  split; [reflexivity|].
  specialize (Hk KRoot (set_schema (schema_id schema) (Value d) st, [])).
  now rewrite H in Hk.
Qed.

(** ** More on calls of [load] *)

Lemma obj_set_set {V} (k : string) (v v' : V) (o : list (string * V)) :
  obj_set k v' (obj_set k v o) = obj_set k v' o.
Proof.
  induction o as [|[k2 v2] o IH]; simpl.
  - now rewrite String.eqb_refl.
  - destruct (String.eqb k k2) eqn:E; simpl.
    + now rewrite String.eqb_refl.
    + now rewrite E, IH.
Qed.

Section LoadMore.
Context (P : Platform) (o : LoadOptions).

(** A call on a URL not yet visited, whose document is at hand and whose
    scan starts no child and leaves the store as it is. *)
Lemma load_without_children fuel u st d d' :
  href u ∉ urlCache st ->
  obtain P o (SrcURL u) = Ok (Value d) ->
  href u <> href (rootURL o) ->
  internalize (scan_reviver P o (SrcURL u)) KRoot d
    (set_schema (href u) (Value d) (snd (load_begin P o u st)), [])
  = (Ok d', (set_schema (href u) (Value d) (snd (load_begin P o u st)), [])) ->
  load P (S fuel) o (SrcURL u) st =
    (Ok (obj_set (href u) (Value d') (schemas st)),
     set_schema (href u) (Value d') (snd (load_begin P o u st))).
Proof.
  intros Hc Ho Hroot Hscan. unfold load.
  destruct (load_begin_fresh P o u st Hc) as (Hp & _ & Hs).
  destruct (load_begin P o u st) as [pending st1]. cbn [fst snd] in *. subst pending.
  rewrite load_rest_S, Ho. unfold load_document. cbn [schema_id].
  rewrite Hscan.
  cbn [join_all ret]. apply String.eqb_neq in Hroot. rewrite Hroot.
  unfold set_schema. cbn [schemas urlCache events]. rewrite obj_set_set, Hs.
  reflexivity.
Qed.

Lemma load_marks_visited fuel u st :
  href u ∈ urlCache (snd (load P fuel o (SrcURL u) st)).
Proof.
  destruct (decide (href u ∈ urlCache st)) as [Hc|Hc].
  - unfold load. now rewrite load_begin_cached.
  - unfold load. destruct (load_begin_fresh P o u st Hc) as (Hp & Hin & _).
    destruct (load_begin P o u st) as [pending st1]. cbn [fst snd] in *. subst pending.
    pose proof (load_rest_grows P o fuel (SrcURL u) st1) as Hg.
    destruct (load_rest P fuel o (SrcURL u) st1) as [[[]|e] st'];
      unfold cache_grows in Hg; cbn [snd] in *; set_solver.
Qed.

End LoadMore.

(** X9: the load of a document, from a URL not yet visited that is not
    the root, whose pointers all lack a url-part, ends well with one unit
    of fuel: the store is the one after the start of the call with the
    document stored, as it was decoded, under its URL.  Nothing else is
    read, and no pointer is transformed. *)
Theorem X9_load_leaf (P : Platform) (o : LoadOptions) (fuel : nat) (u : URL)
    (st : Store) (d : Doc) :
  href u ∉ urlCache st ->
  obtain P o (SrcURL u) = Ok (Value d) ->
  href u <> href (rootURL o) ->
  Forall local_pointer (pointers d) ->
  load P (S fuel) o (SrcURL u) st =
    (Ok (obj_set (href u) (Value d) (schemas st)),
     set_schema (href u) (Value d) (snd (load_begin P o u st))).
Proof.
  intros Hc Ho Hroot Hall.
  apply (load_without_children P o fuel u st d d); try assumption.
  now apply scan_local_only.
Qed.

Lemma X9_load_leaf_witness :
  load Demo.platform 1 (Demo.options_for Demo.root_a)
    (SrcURL (Demo.file_url "file:///specs/b.json")) Demo.empty
  = (Ok (obj_set "file:///specs/b.json"
           (Value (JObject [("cat", Demo.ref "#/components/schemas/Cat")])) []),
     set_schema "file:///specs/b.json"
       (Value (JObject [("cat", Demo.ref "#/components/schemas/Cat")]))
       (snd (load_begin Demo.platform (Demo.options_for Demo.root_a)
               (Demo.file_url "file:///specs/b.json") Demo.empty))).
Proof.
  apply (X9_load_leaf Demo.platform (Demo.options_for Demo.root_a) 0
           (Demo.file_url "file:///specs/b.json") Demo.empty
           (JObject [("cat", Demo.ref "#/components/schemas/Cat")])).
  - vm_compute. intros H. discriminate H.
  - reflexivity.
  - discriminate.
  - repeat constructor.
Defined.

(** X10: references back to documents already visited, the document
    itself included, end the recursion.  The load of a document from a URL
    not yet visited that is not the root, all of whose pointers with a
    url-part resolve to the URL of the document or to a visited URL, ends
    well with one unit of fuel and starts no other load: nothing is read or
    requested but the document.  What it stores under the URL is the
    document with each of these pointers rewritten, its url-part replaced
    by the URL it resolves to. *)
Theorem X10_load_back_references (P : Platform) (o : LoadOptions) (fuel : nat)
    (u : URL) (st : Store) (d : Doc) :
  href u ∉ urlCache st ->
  obtain P o (SrcURL u) = Ok (Value d) ->
  href u <> href (rootURL o) ->
  Forall (target_visited P (SrcURL u) ({[href u]} ∪ urlCache st)) (pointers d) ->
  load P (S fuel) o (SrcURL u) st =
    (Ok (obj_set (href u) (Value (map_pointers (rewrite_pointer P (SrcURL u)) d))
           (schemas st)),
     set_schema (href u) (Value (map_pointers (rewrite_pointer P (SrcURL u)) d))
       (snd (load_begin P o u st))).
Proof.
  intros Hc Ho Hroot Hall.
  pose proof (load_begin_io P o u st Hc) as [_ Hcache].
  set (s0 := (set_schema (href u) (Value d) (snd (load_begin P o u st)), @nil URL)).
  destruct (internalize_frame (scan_reviver P o (SrcURL u))
              (scan_reviver_other P o (SrcURL u))
              (target_visited P (SrcURL u) ({[href u]} ∪ urlCache st)) s0) with (d := d) (k := KRoot)
    as [d' Hd'].
  - intros k ref Hown Hv. rewrite (scan_reviver_pointer P o (SrcURL u) k ref s0 Hown).
    destruct (Js.truthy (url_part ref)) eqn:Et; [|now eexists].
    cbn [andb]. destruct Hv as [He|(n & Hn & Hin)].
    + rewrite He in Et. discriminate.
    + rewrite Hn.
      assert (href n ∈ urlCache (fst s0)) as Hin'.
      { unfold s0. cbn [fst set_schema urlCache]. now rewrite Hcache. }
      rewrite (load_begin_cached P o n (fst s0) Hin'). cbn [fst snd].
      destruct s0. now eexists.
  - destruct d; simpl own_pointer; now rewrite app_nil_r.
  - rewrite <- (scan_result P o (SrcURL u) d d' s0 s0 Hd').
    now apply (load_without_children P o fuel u st d d').
Qed.

Lemma X10_load_back_references_witness :
  load Demo.platform 1 (Demo.options_for Demo.root_c) (SrcURL Demo.root_a)
    Demo2.b_visited
  = (Ok [("file:///specs/a.json",
          Value (JObject
                   [("dog", Demo.ref "file:///specs/b.json#/components/schemas/Dog");
                    ("name", Demo.ref "#/components/schemas/Pet/properties/name")]))],
     mkStore
       [("file:///specs/a.json",
         Value (JObject
                  [("dog", Demo.ref "file:///specs/b.json#/components/schemas/Dog");
                   ("name", Demo.ref "#/components/schemas/Pet/properties/name")]))]
       (urlCache (snd (load_begin Demo.platform (Demo.options_for Demo.root_c)
                         Demo.root_a Demo2.b_visited)))
       [EvReadFile "file:///specs/a.json"]).
Proof.
  apply (X10_load_back_references Demo.platform (Demo.options_for Demo.root_c) 0
           Demo.root_a Demo2.b_visited
           (JObject [("dog", Demo.ref "./b.json#/components/schemas/Dog");
                     ("name", Demo.ref "#/components/schemas/Pet/properties/name")])).
  - vm_compute. intros H. discriminate H.
  - reflexivity.
  - discriminate.
  - constructor; [|constructor; [|constructor]].
    + right. exists (Demo.file_url "file:///specs/b.json").
      split; [reflexivity | vm_compute; reflexivity].
    + left. reflexivity.
Defined.

(** X11: the error of a relative reference in a document passed in is
    thrown for documents passed in only: a load from a URL never fails with
    it, whatever the documents it reaches. *)
Theorem X11_url_load_resolves (P : Platform) (o : LoadOptions) (fuel : nat)
    (u : URL) (st st' : Store) (e : LoadError) :
  load P fuel o (SrcURL u) st = (Err e, st') ->
  forall msg, e <> UnresolvableReference msg.
Proof.
  unfold load. destruct (load_begin P o u st) as [pending st1].
  destruct pending; [|discriminate].
  destruct (load_rest P fuel o (SrcURL u) st1) as [[[]|e1] st2] eqn:E; [discriminate|].
  intros [= <- <-]. exact (load_rest_url_not_unresolvable P o fuel u st1 e1 st2 E).
Qed.

Lemma X11_url_load_resolves_witness :
  fst (load Demo.platform 3 (Demo.options_for Demo.root_e) (SrcURL Demo.root_e)
         Demo.empty)
  = Err (UnknownFormat "Unknown format. Only YAML or JSON supported.")
  /\ not_unresolvable (UnknownFormat "Unknown format. Only YAML or JSON supported.").
Proof.
  split; [vm_compute; reflexivity|].
  refine (X11_url_load_resolves Demo.platform (Demo.options_for Demo.root_e) 3
            Demo.root_e Demo.empty _ _ _).
  vm_compute. reflexivity.
Defined.

(** X12: once a URL has been loaded in a session, with or without
    success, a load of the same URL in that session, with any options,
    returns the schemas as they are and changes nothing. *)
Theorem X12_second_load (P : Platform) (o o' : LoadOptions) (fuel fuel' : nat)
    (u : URL) (st : Store) :
  load P fuel' o' (SrcURL u) (snd (load P fuel o (SrcURL u) st))
  = (Ok (schemas (snd (load P fuel o (SrcURL u) st))),
     snd (load P fuel o (SrcURL u) st)).
Proof.
  unfold load at 1. rewrite load_begin_cached; [reflexivity|].
  apply load_marks_visited.
Qed.

(** ** More on the headers *)

Section HeaderMore.
Context (P : Platform).




End HeaderMore.




(** X15: every request carries a [User-Agent], [openapi-typescript]
    unless the caller gives one; without a token (no [auth], or an empty
    one) the loader adds no [Authorizaton]; and any other header of the
    request is one of the caller's. *)
Theorem X15_request_headers (P : Platform) (o : LoadOptions) :
  obj_get "User-Agent" (fst (request_headers P o))
  = Some (default (Value "openapi-typescript")
            (obj_get "User-Agent" (custom_headers P o)))
  /\ (auth o = None \/ auth o = Some "" ->
      obj_get "Authorizaton" (fst (request_headers P o))
      = obj_get "Authorizaton" (custom_headers P o))
  /\ (forall k, k <> "User-Agent" -> k <> "Authorizaton" ->
        obj_get k (fst (request_headers P o)) = obj_get k (custom_headers P o)).
Proof.
  assert (forall k, k <> "Authorizaton" ->
            obj_get k (own_headers o)
            = obj_get k [("User-Agent", Value "openapi-typescript")])
    as Hown.
  { intros k Hk. unfold own_headers. destruct (auth o) as [token|]; [|reflexivity].
    destruct (Js.truthy token); [|reflexivity]. apply obj_get_set_ne. congruence. }
  split; [|split].
  - rewrite request_headers_get, Hown by discriminate.
    now destruct (obj_get "User-Agent" (custom_headers P o)).
  - intros Ha. rewrite request_headers_get.
    destruct (obj_get "Authorizaton" (custom_headers P o)); [reflexivity|].
    unfold own_headers. destruct Ha as [-> | ->]; reflexivity.
  - intros k Hu Ha. rewrite request_headers_get, Hown by exact Ha.
    destruct (obj_get k (custom_headers P o)); [reflexivity|].
    simpl. apply String.eqb_neq in Hu. now rewrite Hu.
Qed.

(** ** [resolveSchema] *)

(** X16: [resolveSchema] returns a URL in two cases, and in these only:
    for a remote address, the URL the constructor makes of it, whatever
    the file system holds; for another address, its local URL, when that
    exists and is not a directory.  It throws its own two errors for local
    addresses, and exactly so: Could not locate, with the address as it was
    given, when the local URL does not exist; is a directory, with the URL,
    when it exists and is one. *)
Theorem X16_resolveSchema (P : Platform) (F : Files) (url : string) :
  (forall u, resolveSchema P F url = inr u <->
     (is_remote url = true /\ new_URL P url None = Some u)
     \/ (is_remote url = false /\ local_path P F url = Some u
         /\ fs_existsSync F u = true /\ fs_isDirectory F u = false))
  /\ (forall msg, resolveSchema P F url = inl (CouldNotLocate msg) <->
        is_remote url = false
        /\ exists u, local_path P F url = Some u /\ fs_existsSync F u = false
                     /\ msg = "Could not locate " +:+ url)
  /\ (forall msg, resolveSchema P F url = inl (IsDirectory msg) <->
        is_remote url = false
        /\ exists u, local_path P F url = Some u
                     /\ fs_existsSync F u = true /\ fs_isDirectory F u = true
                     /\ msg = href u +:+ " is a directory not a file")
  /\ (is_remote url = true -> forall F', resolveSchema P F' url = resolveSchema P F url).
Proof.
  unfold resolveSchema. fold (is_remote url).
  destruct (is_remote url) eqn:Er.
  - split; [|split; [|split; [|reflexivity]]].
    + intros u. destruct (new_URL P url None) as [u0|]; split.
      * intros [= <-]. now left.
      * intros [[_ [= <-]]|[H _]]; [reflexivity | discriminate].
      * discriminate.
      * intros [[_ H]|[H _]]; discriminate.
    + intros msg. split.
      * destruct (new_URL P url None); discriminate.
      * intros [H _]. discriminate.
    + intros msg. split.
      * destruct (new_URL P url None); discriminate.
      * intros [H _]. discriminate.
  - split; [|split; [|split; [|discriminate]]].
    + intros u. destruct (local_path P F url) as [localPath|]; split.
      * destruct (fs_existsSync F localPath) eqn:Ee; cbn [negb]; [|discriminate].
        destruct (fs_isDirectory F localPath) eqn:Ed; [discriminate|].
        intros [= <-]. right. now repeat split.
      * intros [[H _]|(_ & [= <-] & Hex & Hd)]; [discriminate|].
        now rewrite Hex, Hd.
      * discriminate.
      * intros [[H _]|(_ & H & _)]; discriminate.
    + intros msg. destruct (local_path P F url) as [localPath|]; split.
      * destruct (fs_existsSync F localPath) eqn:Ee; cbn [negb].
        -- destruct (fs_isDirectory F localPath); discriminate.
        -- intros [= <-]. split; [reflexivity|]. now exists localPath.
      * intros (_ & u & [= <-] & Hex & ->). now rewrite Hex.
      * discriminate.
      * intros (_ & u & H & _). discriminate.
    + intros msg. destruct (local_path P F url) as [localPath|]; split.
      * destruct (fs_existsSync F localPath) eqn:Ee; cbn [negb]; [|discriminate].
        destruct (fs_isDirectory F localPath) eqn:Ed; [|discriminate].
        intros [= <-]. split; [reflexivity|]. now exists localPath.
      * intros (_ & u & [= <-] & Hex & Hd & ->). now rewrite Hex, Hd.
      * discriminate.
      * intros (_ & u & H & _). discriminate.
Qed.

(** A remote address, a file in the current directory, a file that is
    not there, and the directory [/specs]. *)
Lemma X16_resolveSchema_witness :
  resolveSchema Demo2.platform Demo2.files "https://example.com/pet.json"
  = inr Demo.pet_url
  /\ resolveSchema Demo2.platform Demo2.files "a.json"
     = inr (Demo.file_url "file:///specs/a.json")
  /\ resolveSchema Demo2.platform Demo2.files "nothing.json"
     = inl (CouldNotLocate "Could not locate nothing.json")
  /\ resolveSchema Demo2.platform Demo2.files "/specs"
     = inl (IsDirectory "file:///specs is a directory not a file").
Proof.
  split; [|split; [|split]].
  - apply (proj1 (X16_resolveSchema Demo2.platform Demo2.files
                    "https://example.com/pet.json")).
    left. split; reflexivity.
  - apply (proj1 (X16_resolveSchema Demo2.platform Demo2.files "a.json")).
    right. repeat split; reflexivity.
  - apply (proj1 (proj2 (X16_resolveSchema Demo2.platform Demo2.files "nothing.json"))).
    split; [reflexivity|].
    exists (Demo.file_url "file:///specs/nothing.json"). repeat split; reflexivity.
  - apply (proj1 (proj2 (proj2 (X16_resolveSchema Demo2.platform Demo2.files "/specs")))).
    split; [reflexivity|].
    exists (Demo.file_url "file:///specs"). repeat split; reflexivity.
Defined.

(** ** Keys that are not URLs *)

Lemma transform_keys_final (P : Platform) (o : LoadOptions) (keys : list string)
    (m m' : SchemaMap) :
  transform_keys P o keys m = (Ok tt, m') ->
  forall k, k ∈ keys -> final_key P o k <> None.
Proof.
  revert m. induction keys as [|k0 rest IH]; intros m H k Hk.
  - now apply elem_of_nil in Hk.
  - simpl in H. unfold bind in H.
    destruct (transform_entry P o k0 m) as [[[]|e] m1] eqn:E; [|discriminate].
    apply elem_of_cons in Hk as [->|Hk].
    + apply transform_entry_ok in E as (_ & _ & r & _ & _ & Hr & _). congruence.
    + exact (IH m1 H k Hk).
Qed.

(** X17: the transformation throws when a key of the schemas, other
    than that of the root, is not a URL the constructor accepts; so it
    throws on schemas that hold a relative key left by an earlier
    transformation. *)
Theorem X17_transform_needs_urls (P : Platform) (o : LoadOptions) (m : SchemaMap)
    (k : string) :
  k ∈ obj_keys m ->
  k <> href (rootURL o) ->
  new_URL P k None = None ->
  exists e m', transform P o m = (Err e, m').
Proof.
  intros Hk Hroot Hnew. unfold transform.
  destruct (transform_keys P o (obj_keys m) m) as [[[]|e] m'] eqn:E; [|now eauto].
  exfalso. apply (transform_keys_final P o _ _ _ E k Hk).
  unfold final_key. apply String.eqb_neq in Hroot. now rewrite Hroot, Hnew.
Qed.

Lemma X17_transform_needs_urls_witness :
  exists e m',
    transform Demo.platform (Demo.options_for Demo.root_a) Demo.transformed_ab
    = (Err e, m').
Proof.
  apply (X17_transform_needs_urls Demo.platform (Demo.options_for Demo.root_a)
           Demo.transformed_ab "b.json").
  - apply list_elem_of_In. simpl. tauto.
  - discriminate.
  - reflexivity.
Defined.

(** ** Keys of the files under the directory of the root *)

Lemma chars_app (a b : string) :
  list_ascii_of_string (a +:+ b) = list_ascii_of_string a ++ list_ascii_of_string b.
Proof. induction a as [|c a IH]; simpl; [reflexivity | now rewrite IH]. Qed.

Lemma drop_while_all (f : ascii -> bool) (l1 l2 : list ascii) :
  Forall (fun c => f c = true) l1 ->
  PathPosix.drop_while f (l1 ++ l2) = PathPosix.drop_while f l2.
Proof.
  induction 1 as [|c l1 Hc _ IH]; simpl; [reflexivity|]. now rewrite Hc.
Qed.

Lemma split_nonempty (s : string) : Js.split "/" s <> [].
Proof.
  destruct s as [|c s]; simpl; [discriminate|].
  destruct (Ascii.eqb c "/"); [discriminate|].
  destruct (Js.split "/" s); discriminate.
Qed.

(** A string that splits into itself has no slash. *)
Lemma split_single_chars (x : string) :
  Js.split "/" x = [x] ->
  Forall (fun c => negb (PathPosix.is_slash c) = true) (list_ascii_of_string x).
Proof.
  induction x as [|c x IH]; simpl; [constructor|].
  unfold PathPosix.is_slash.
  destruct (Ascii.eqb c "/") eqn:Ec; [discriminate|].
  destruct (Js.split "/" x) as [|y r] eqn:E; [now destruct (split_nonempty x)|].
  intros [= -> ->]. constructor; [now rewrite Ec | now apply IH].
Qed.

Lemma split_app_sep (a b : string) :
  Js.split "/" (a +:+ "/" +:+ b) = Js.split "/" a ++ Js.split "/" b.
Proof.
  induction a as [|c a IH]; [reflexivity|].
  change (String c a +:+ "/" +:+ b) with (String c (a +:+ "/" +:+ b)).
  cbn [Js.split]. rewrite IH.
  destruct (Ascii.eqb c "/"); [reflexivity|].
  destruct (Js.split "/" a) as [|y r] eqn:E; [now destruct (split_nonempty a)|].
  reflexivity.
Qed.

Lemma split_join_names (names : list string) :
  Forall plain_name names -> names <> [] ->
  Js.split "/" (Js.join "/" names) = names.
Proof.
  induction 1 as [|x r Hx Hr IH]; intros Hne; [congruence|].
  destruct r as [|y r]; [exact (proj1 Hx)|].
  change (Js.join "/" (x :: y :: r)) with (x +:+ "/" +:+ Js.join "/" (y :: r)).
  rewrite split_app_sep, (proj1 Hx), IH by discriminate. reflexivity.
Qed.

Lemma filter_names (names : list string) :
  Forall plain_name names ->
  filter (fun x => Js.truthy x = true) names = names.
Proof.
  induction 1 as [|x r Hx _ IH]; [reflexivity|].
  rewrite filter_cons_True; [now rewrite IH|].
  destruct Hx as (_ & Hne & _). now apply truthy_ne.
Qed.

Lemma segments_under (dir : string) (names : list string) :
  Forall plain_name names -> names <> [] ->
  PathPosix.segments (dir +:+ "/" +:+ Js.join "/" names)
  = PathPosix.segments dir ++ names.
Proof.
  intros Hn Hne. unfold PathPosix.segments.
  rewrite split_app_sep, filter_app, (split_join_names names Hn Hne).
  now rewrite (filter_names names Hn).
Qed.

Lemma normalize_names_end (stack segs names : list string) :
  Forall plain_name names ->
  PathPosix.normalize stack (segs ++ names) = PathPosix.normalize stack segs ++ names.
Proof.
  intros Hn. revert stack. induction segs as [|x r IH]; intros stack.
  - simpl. revert stack. induction Hn as [|y names Hy _ IHn]; intros stack; simpl.
    + now rewrite app_nil_r.
    + destruct Hy as (_ & _ & Hd & Hdd).
      apply String.eqb_neq in Hd, Hdd. rewrite Hd, Hdd, IHn. simpl.
      now rewrite <- app_assoc.
  - simpl. destruct (String.eqb x "."); [apply IH|].
    destruct (String.eqb x ".."); apply IH.
Qed.

Lemma resolve_under (cwd dir : string) (names : list string) :
  dir <> "" -> Forall plain_name names -> names <> [] ->
  PathPosix.resolve cwd (dir +:+ "/" +:+ Js.join "/" names)
  = PathPosix.resolve cwd dir ++ names.
Proof.
  intros Hd Hn Hne. unfold PathPosix.resolve.
  assert (Js.startsWith (dir +:+ "/" +:+ Js.join "/" names) "/" = Js.startsWith dir "/")
    as ->.
  { destruct dir as [|c dir]; [congruence|]. unfold Js.startsWith.
    change (String c dir +:+ "/" +:+ Js.join "/" names)
      with (String c (dir +:+ "/" +:+ Js.join "/" names)).
    cbn [Js.strip_prefix]. now destruct (Ascii.eqb "/" c). }
  rewrite (segments_under dir names Hn Hne).
  destruct (Js.startsWith dir "/").
  - now apply normalize_names_end.
  - rewrite app_assoc. now apply normalize_names_end.
Qed.

Lemma drop_common_prefix (a b : list string) :
  PathPosix.drop_common a (a ++ b) = ([], b).
Proof.
  induction a as [|x a IH]; simpl; [now destruct b|].
  now rewrite String.eqb_refl.
Qed.

Lemma dirname_of_file (dir name : string) :
  dir <> "" -> dir <> "/" -> plain_name name ->
  PathPosix.dirname (dir +:+ "/" +:+ name) = dir.
Proof.
  intros Hd Hroot (Hsplit & Hne & _).
  destruct dir as [|c0 dir]; [congruence|].
  unfold PathPosix.dirname.
  change (String c0 dir +:+ "/" +:+ name) with (String c0 (dir +:+ "/" +:+ name)).
  cbn [list_ascii_of_string]. rewrite chars_app.
  change (list_ascii_of_string ("/" +:+ name)) with ("/"%char :: list_ascii_of_string name).
  rewrite rev_app_distr. simpl rev. rewrite <- !app_assoc. simpl app.
  pose proof (split_single_chars name Hsplit) as Hchars.
  assert (Forall (fun c => negb (PathPosix.is_slash c) = true)
            (rev (list_ascii_of_string name))) as Hrev
    by (apply Forall_rev; exact Hchars).
  (* the reversed name starts with a character that is not a slash *)
  destruct (rev (list_ascii_of_string name)) as [|c r] eqn:Er.
  { exfalso. destruct name as [|a n]; [congruence|].
    simpl in Er. now destruct (rev (list_ascii_of_string n)). }
  apply Forall_cons in Hrev as [Hc Hr].
  apply negb_true_iff in Hc.
  cbn [app PathPosix.drop_while]. rewrite Hc.
  change (c :: r ++ "/"%char :: rev (list_ascii_of_string dir))
    with ((c :: r) ++ "/"%char :: rev (list_ascii_of_string dir)).
  rewrite drop_while_all by (constructor; [now rewrite Hc | exact Hr]).
  cbn [PathPosix.drop_while PathPosix.is_slash]. cbn.
  destruct (rev (list_ascii_of_string dir)) as [|d0 rd] eqn:Ed.
  - assert (dir = "") as ->.
    { destruct dir as [|a n]; [reflexivity|].
      simpl in Ed. now destruct (rev (list_ascii_of_string n)). }
    unfold PathPosix.is_slash.
    destruct (Ascii.eqb_spec c0 "/") as [->|]; [congruence | reflexivity].
  - rewrite <- Ed, rev_involutive. cbn [string_of_list_ascii].
    now rewrite string_of_list_ascii_of_string.
Qed.

Lemma relative_under (cwd dir : string) (names : list string) :
  dir <> "" -> Forall plain_name names -> names <> [] ->
  PathPosix.relative cwd dir (dir +:+ "/" +:+ Js.join "/" names) = Js.join "/" names.
Proof.
  intros Hd Hn Hne. unfold PathPosix.relative.
  assert (String.eqb dir (dir +:+ "/" +:+ Js.join "/" names) = false) as ->.
  { apply String.eqb_neq. intros H. rewrite <- (app_empty_r dir) in H at 1.
    apply (inj (String.append dir)) in H. discriminate H. }
  rewrite (resolve_under cwd dir names Hd Hn Hne), drop_common_prefix.
  reflexivity.
Qed.

(** X18: under a file root, the relative key of a file schema that lies
    in the directory of the root, or below it, is its path from that
    directory: a file next to the root is keyed by its bare name, whatever
    the working directory. *)
Theorem X18_key_under_root (P : Platform) (o : LoadOptions) (u : URL)
    (dir rootname : string) (names : list string) :
  isFile u = true ->
  isFile (rootURL o) = true ->
  href (rootURL o) = dir +:+ "/" +:+ rootname ->
  dir <> "" -> dir <> "/" ->
  plain_name rootname ->
  Forall plain_name names -> names <> [] ->
  relative_id P o u (dir +:+ "/" +:+ Js.join "/" names) = Js.join "/" names.
Proof.
  intros Hu Hr Hhref Hd Hroot Hname Hn Hne.
  unfold relative_id. rewrite Hu, Hr, Hhref. cbn [andb].
  rewrite (dirname_of_file dir rootname Hd Hroot Hname).
  now apply relative_under.
Qed.

Lemma X18_key_under_root_witness :
  relative_id Demo.platform (Demo.options_for Demo.root_a)
    (Demo.file_url "file:///specs/parts/pet.json")
    ("file:///specs" +:+ "/" +:+ Js.join "/" ["parts"; "pet.json"])
  = Js.join "/" ["parts"; "pet.json"].
Proof.
  assert (forall x, Js.split "/" x = [x] -> x <> "" -> x <> "." -> x <> ".." ->
                    plain_name x) as Hplain by (intros; repeat split; assumption).
  apply (X18_key_under_root Demo.platform (Demo.options_for Demo.root_a)
           (Demo.file_url "file:///specs/parts/pet.json") "file:///specs" "a.json"
           ["parts"; "pet.json"]);
    try reflexivity; try discriminate.
  - apply Hplain; [reflexivity | discriminate..].
  - repeat constructor; apply Hplain; first [reflexivity | discriminate].
Defined.

(** ** The schemas grow until the root is transformed *)

Section KeysKept.
Context (P : Platform) (o : LoadOptions).

Lemma keys_kept_refl st : keys_kept o st st.
Proof. split; [reflexivity | right; auto]. Qed.

Lemma keys_kept_trans a b c : keys_kept o a b -> keys_kept o b c -> keys_kept o a c.
Proof.
  intros [Hab Kab] [Hbc Kbc]. split; [now transitivity (urlCache b)|].
  destruct Kbc as [Hr|Kbc]; [now left|].
  destruct Kab as [Hr|Kab]; [left; now apply Hbc | right; auto].
Qed.

Lemma keys_kept_same_schemas st st' :
  urlCache st ⊆ urlCache st' -> schemas st' = schemas st -> keys_kept o st st'.
Proof. intros Hc Hs. split; [exact Hc|]. right. rewrite Hs. auto. Qed.

Lemma keys_kept_set schemaID d st : keys_kept o st (set_schema schemaID d st).
Proof.
  split; [simpl; set_solver|]. right. intros k Hk. simpl.
  apply obj_keys_set. now right.
Qed.

Lemma scan_keys_kept schema d (s : Store * list URL) :
  keys_kept o (fst s) (fst (snd (internalize (scan_reviver P o schema) KRoot d s))).
Proof.
  apply keys_kept_same_schemas.
  - apply (scan_rel P o cache_grows cache_grows_refl cache_grows_trans
             (load_begin_grows P o)).
  - apply (internalize_preserves (scan_reviver P o schema)
             (fun a b => schemas (fst b) = schemas (fst a))).
    + reflexivity.
    + intros a b c. congruence.
    + intros k d0 s0. apply scan_reviver_schemas.
Qed.

Lemma scan_children_started schema d (s : Store * list URL) :
  children_started s ->
  children_started (snd (internalize (scan_reviver P o schema) KRoot d s)).
Proof.
  apply (internalize_preserves (scan_reviver P o schema)
           (fun a b => children_started a -> children_started b)).
  - auto.
  - auto.
  - intros k d0 s0 Hs0. unfold scan_reviver.
    destruct d0; try exact Hs0.
    destruct (is_ref_key k); [|exact Hs0].
    destruct (Js.truthy _); [|exact Hs0].
    destruct (_ && _); [exact Hs0|].
    destruct (next_URL P schema _) as [nextURL|]; [|exact Hs0].
    pose proof (load_begin_grows P o nextURL (fst s0)) as Hg.
    pose proof (load_begin_visited P o nextURL (fst s0)) as Hv.
    destruct (load_begin P o nextURL (fst s0)) as [pending st']. cbn [fst snd] in *.
    unfold children_started, cache_grows in *. cbn [fst snd].
    intros c Hc. destruct pending.
    + apply elem_of_app in Hc as [Hc|Hc]; [apply Hg; now apply Hs0|].
      apply list_elem_of_singleton in Hc as ->. exact Hv.
    + apply Hg. now apply Hs0.
Qed.

Lemma join_all_keys_kept (recur : URL -> M Store unit) children st :
  (forall c st, href c ∈ urlCache st -> keys_kept o st (snd (recur c st))) ->
  (forall c, c ∈ children -> href c ∈ urlCache st) ->
  keys_kept o st (snd (join_all recur children st)).
Proof.
  intros Hrec. revert st. induction children as [|c rest IH]; intros st Hin; simpl.
  - apply keys_kept_refl.
  - unfold bind.
    pose proof (Hrec c st (Hin c (list_elem_of_here _ _))) as Hc.
    destruct (recur c st) as [[[]|e] st1]; [|exact Hc]. cbn [snd] in Hc.
    eapply keys_kept_trans; [exact Hc|]. apply IH.
    intros c' Hc'. apply (proj1 Hc). apply Hin. now apply list_elem_of_further.
Qed.

Lemma load_document_keys_kept (recur : URL -> M Store unit) schema d st :
  (forall c st, href c ∈ urlCache st -> keys_kept o st (snd (recur c st))) ->
  call_started o schema st ->
  keys_kept o st (snd (load_document P recur o schema d st)).
Proof.
  intros Hrec Hstart. unfold load_document.
  pose proof (keys_kept_set (schema_id schema) (Value d) st) as H1.
  pose proof (scan_keys_kept schema d (set_schema (schema_id schema) (Value d) st, []))
    as H2.
  pose proof (scan_children_started schema d
                (set_schema (schema_id schema) (Value d) st, [])) as H3.
  destruct (internalize _ _ _ _) as [[d'|e] [st2 pend]]; cbn [fst snd] in *;
    [|eapply keys_kept_trans; eassumption].
  assert (keys_kept o st st2) as H12 by (eapply keys_kept_trans; eassumption).
  pose proof (keys_kept_set (schema_id schema) (Value d') st2) as H4.
  assert (children_started (st2, pend)) as Hpend.
  { apply H3. intros c Hc. now apply elem_of_nil in Hc. }
  pose proof (join_all_keys_kept recur pend
                (set_schema (schema_id schema) (Value d') st2) Hrec) as H5.
  assert (keys_kept o st
            (snd (join_all recur pend (set_schema (schema_id schema) (Value d') st2))))
    as H.
  { eapply keys_kept_trans; [exact H12|]. eapply keys_kept_trans; [exact H4|].
    apply H5. intros c Hc. exact (Hpend c Hc). }
  destruct (join_all _ _ _) as [[[]|e] st4]; cbn [snd] in *; [|exact H].
  destruct (String.eqb_spec (schema_id schema) (href (rootURL o))) as [Heq|Hne]; [|exact H].
  destruct schema as [u|d0]; cbn [schema_id call_started] in *.
  - assert (href (rootURL o) ∈ urlCache st4) as Hr.
    { rewrite <- Heq. apply (proj1 H). exact Hstart. }
    destruct (transform P o (schemas st4)) as [[[]|e] m]; cbn [snd];
      (split; [exact (proj1 H) | now left]).
  - congruence.
Qed.

Lemma load_rest_keys_kept fuel schema st :
  call_started o schema st ->
  keys_kept o st (snd (load_rest P fuel o schema st)).
Proof.
  revert schema st. induction fuel as [|fuel IH]; intros schema st Hstart.
  - apply keys_kept_refl.
  - rewrite load_rest_S.
    destruct (obtain P o schema) as [[d|]|e];
      [|apply keys_kept_set|apply keys_kept_refl].
    apply load_document_keys_kept; [|exact Hstart].
    intros c st' Hc. apply IH. exact Hc.
Qed.

Lemma load_keys_kept fuel schema st :
  href (rootURL o) <> VIRTUAL_JSON_URL ->
  keys_kept o st (snd (load P fuel o schema st)).
Proof.
  intros Hv. unfold load. destruct schema as [u|d].
  - pose proof (load_begin_grows P o u st) as Hg.
    pose proof (load_begin_schemas P o u st) as Hs.
    pose proof (load_begin_visited P o u st) as Hin.
    destruct (load_begin P o u st) as [pending st1]. cbn [snd] in *.
    assert (keys_kept o st st1) as H1 by now apply keys_kept_same_schemas.
    destruct pending; [|exact H1].
    pose proof (load_rest_keys_kept fuel (SrcURL u) st1 Hin) as H2.
    destruct (load_rest P fuel o (SrcURL u) st1) as [[[]|e] st'];
      eapply keys_kept_trans; eassumption.
  - pose proof (load_rest_keys_kept fuel (SrcJSON d) st Hv) as H2.
    now destruct (load_rest P fuel o (SrcJSON d) st) as [[[]|e] st'].
Qed.

End KeysKept.

(** X19: while the root has not been visited, a load only adds to the
    schemas: every key they had is still a key after the load, whether it
    ends well or throws, and a document loaded from a URL not yet visited
    is among them under its URL.  (The root is not the reserved URL of the
    documents passed in.) *)
Theorem X19_schemas_grow (P : Platform) (o : LoadOptions) (fuel : nat)
    (schema : Source) (st : Store) :
  href (rootURL o) <> VIRTUAL_JSON_URL ->
  href (rootURL o) ∉ urlCache (snd (load P fuel o schema st)) ->
  (forall k, k ∈ obj_keys (schemas st) ->
             k ∈ obj_keys (schemas (snd (load P fuel o schema st))))
  /\ (forall u m, schema = SrcURL u -> href u ∉ urlCache st ->
        fst (load P fuel o schema st) = Ok m -> href u ∈ obj_keys m).
Proof.
  intros Hv Hroot. split.
  - destruct (load_keys_kept P o fuel schema st Hv) as [_ [Hr|Hk]];
      [contradiction | exact Hk].
  - intros u m -> Hc Hok.
    assert (href u <> href (rootURL o)) as Hne.
    { intros Heq. apply Hroot. rewrite <- Heq. apply load_marks_visited. }
    revert Hroot Hok. unfold load.
    destruct (load_begin_fresh P o u st Hc) as (Hp & Hin & _).
    destruct (load_begin P o u st) as [pending st1]. cbn [fst snd] in *. subst pending.
    destruct fuel as [|fuel]; [discriminate|]. rewrite load_rest_S.
    destruct (obtain P o (SrcURL u)) as [[d|]|e]; [|discriminate|discriminate].
    unfold load_document. cbn [schema_id].
    pose proof (scan_children_started P o (SrcURL u) d
                  (set_schema (href u) (Value d) st1, [])) as Hpend.
    destruct (internalize _ _ _ _) as [[d'|e] [st2 pend]]; [|discriminate].
    pose proof (join_all_keys_kept o (fun c => load_rest P fuel o (SrcURL c)) pend
                  (set_schema (href u) (Value d') st2)
                  (fun c st0 Hc0 => load_rest_keys_kept P o fuel (SrcURL c) st0 Hc0))
      as Hjoin.
    destruct (join_all _ _ _) as [[[]|e] st4]; [|discriminate].
    assert (keys_kept o (set_schema (href u) (Value d') st2) st4) as [Hcache Hkeys].
    { apply Hjoin. intros c Hc0. refine (Hpend _ c Hc0).
      intros c0 H0. now apply elem_of_nil in H0. }
    assert (href u ∈ obj_keys (schemas (set_schema (href u) (Value d') st2))) as Hkey.
    { simpl. apply obj_keys_set. now left. }
    apply String.eqb_neq in Hne. rewrite Hne. cbn [fst snd]. intros Hroot [= <-].
    destruct Hkeys as [Hr|Hk]; [contradiction | now apply Hk].
Qed.

Lemma X19_schemas_grow_witness :
  "file:///specs/b.json"
  ∈ obj_keys [("file:///specs/b.json",
               Value (JObject [("cat", Demo.ref "#/components/schemas/Cat")]))].
Proof.
  refine (proj2 (X19_schemas_grow Demo.platform (Demo.options_for Demo.root_a) 1
                   (SrcURL (Demo.file_url "file:///specs/b.json")) Demo.empty _ _)
            (Demo.file_url "file:///specs/b.json") _ eq_refl _ _).
  - discriminate.
  - vm_compute. intros H. discriminate H.
  - vm_compute. intros H. discriminate H.
  - vm_compute. reflexivity.
Defined.

(** ** A self-contained document passed in *)

Lemma transform_local_in_root (P : Platform) (o : LoadOptions) (d : Doc) :
  Forall local_pointer (pointers d) ->
  exists d',
    internalize (transform_reviver P o (href (rootURL o))) KRoot d tt = (Ok d', tt).
Proof.
  intros Hall.
  apply (internalize_frame (transform_reviver P o (href (rootURL o)))
           (transform_reviver_other P o (href (rootURL o))) local_pointer tt).
  - intros k ref Hown Hloc. simpl in Hown. unfold transform_reviver.
    destruct (is_ref_key k); [|discriminate].
    unfold transform_ref. destruct (negb (Js.includes ref "#")); [now eexists|].
    unfold local_pointer, url_part in Hloc.
    destruct (parseRef ref) as [url parts]. cbn [fst] in Hloc. subst url.
    cbn [Js.truthy]. rewrite String.eqb_refl. cbn [negb]. now eexists.
  - destruct d; simpl own_pointer; now rewrite app_nil_r.
Qed.

(** X20: the load of a document passed in, as the root of a new
    session, whose pointers all lack a url-part, ends well with one unit
    of fuel: the schemas are the one entry of the reserved URL, holding the
    transformed document; nothing is read or requested, and the set of
    visited URLs is as it was (the reserved URL is never added to it). *)
Theorem X20_load_dynamic_alone (P : Platform) (o : LoadOptions) (fuel : nat)
    (d : Doc) (cache : gset string) (trace : list Event) :
  href (rootURL o) = VIRTUAL_JSON_URL ->
  Forall local_pointer (pointers d) ->
  exists d',
    internalize (transform_reviver P o VIRTUAL_JSON_URL) KRoot d tt = (Ok d', tt)
    /\ load P (S fuel) o (SrcJSON d) (mkStore [] cache trace)
       = (Ok [(VIRTUAL_JSON_URL, Value d')],
          mkStore [(VIRTUAL_JSON_URL, Value d')] cache trace).
Proof.
  intros Hroot Hall.
  destruct (transform_local_in_root P o d Hall) as [d' Hd']. rewrite Hroot in Hd'.
  exists d'. split; [exact Hd'|].
  unfold load. rewrite load_rest_S. cbn [obtain]. unfold load_document.
  cbn [schema_id]. rewrite (scan_local_only P o (SrcJSON d) d _ Hall).
  cbn [join_all ret]. rewrite Hroot, String.eqb_refl.
  unfold transform, set_schema. cbn [schemas obj_set obj_keys map fst transform_keys].
  rewrite String.eqb_refl. cbn [obj_keys map fst transform_keys].
  unfold bind, transform_entry. cbn [obj_get]. rewrite String.eqb_refl, Hd'.
  rewrite Hroot, String.eqb_refl. cbn [negb obj_set]. rewrite String.eqb_refl.
  reflexivity.
Qed.

Lemma X20_load_dynamic_alone_witness :
  exists d',
    internalize
      (transform_reviver Demo.platform
         (Demo.options_for (Demo.file_url VIRTUAL_JSON_URL)) VIRTUAL_JSON_URL)
      KRoot (JObject [("cat", Demo.ref "#/components/schemas/Cat")]) tt
    = (Ok d', tt)
    /\ load Demo.platform 1 (Demo.options_for (Demo.file_url VIRTUAL_JSON_URL))
         (SrcJSON (JObject [("cat", Demo.ref "#/components/schemas/Cat")]))
         (mkStore [] ∅ [])
       = (Ok [(VIRTUAL_JSON_URL, Value d')],
          mkStore [(VIRTUAL_JSON_URL, Value d')] ∅ []).
Proof.
  apply (X20_load_dynamic_alone Demo.platform
           (Demo.options_for (Demo.file_url VIRTUAL_JSON_URL)) 0
           (JObject [("cat", Demo.ref "#/components/schemas/Cat")]) ∅ []).
  - reflexivity.
  - repeat constructor.
Defined.

(** * Whole loads *)

(** ** What a load that ends well has read *)

Section Answered.
Context (P : Platform) (o : LoadOptions).











End Answered.

(** ** The error of a load that fails *)

Section Raised.
Context (P : Platform) (o : LoadOptions).

Lemma visited_mono cache cache' schema :
  cache ⊆ cache' -> visited cache schema -> visited cache' schema.
Proof. destruct schema; simpl; [set_solver | auto]. Qed.

Lemma raised_mono cache cache' e :
  cache ⊆ cache' -> raised P o cache e -> raised P o cache' e.
Proof.
  intros Hsub [(s & Hv & H)|[(s & Hv & H)|[(s & d & a & b & Hv & H)|[H|H]]]].
  - left. exists s. split; [now apply (visited_mono cache) | exact H].
  - right. left. exists s. split; [now apply (visited_mono cache) | exact H].
  - right. right. left. exists s, d, a, b.
    split; [now apply (visited_mono cache) | exact H].
  - right. right. right. now left.
  - right. right. right. now right.
Qed.





End Raised.

(** ** The entries of the schemas a load leaves alone *)

Section EntryKept.
Context (P : Platform) (o : LoadOptions).











End EntryKept.

(** ** Failed loads *)

Section OwnDocument.
Context (P : Platform) (o : LoadOptions).




End OwnDocument.




(** ** The decoded document *)




(** ** Documents passed in by the caller *)

Section Children.
Context (P : Platform) (o : LoadOptions).

(** The load of a document that refers to no other document, and is not
    the root, stores it and ends well. *)
Lemma load_rest_leaf fuel c d st :
  obtain P o (SrcURL c) = Ok (Value d) ->
  Forall local_pointer (pointers d) ->
  href c <> href (rootURL o) ->
  load_rest P (S fuel) o (SrcURL c) st = (Ok tt, set_schema (href c) (Value d) st).
Proof.
  intros Ho Hall Hroot. rewrite load_rest_S, Ho. unfold load_document. cbn [schema_id].
  rewrite (scan_local_only P o (SrcURL c) d _ Hall). cbn [join_all ret].
  apply String.eqb_neq in Hroot. rewrite Hroot.
  unfold set_schema. cbn [schemas urlCache events]. now rewrite obj_set_set.
Qed.

Lemma join_all_succeeds (recur : URL -> M Store unit) children st :
  (forall c, c ∈ children -> forall st, exists st', recur c st = (Ok tt, st')) ->
  exists st', join_all recur children st = (Ok tt, st').
Proof.
  revert st. induction children as [|c rest IH]; intros st Hall; simpl.
  - now exists st.
  - unfold bind. destruct (Hall c (list_elem_of_here _ _) st) as [st1 ->].
    apply IH. intros x Hx. apply Hall. now apply list_elem_of_further.
Qed.

(** The children a scan leaves to await are documents its pointers refer
    to. *)
Lemma scan_children_load fuel schema d s :
  children_load P fuel o schema d ->
  (forall c, c ∈ snd s ->
     forall st, exists st', load_rest P fuel o (SrcURL c) st = (Ok tt, st')) ->
  forall c, c ∈ snd (snd (internalize (scan_reviver P o schema) KRoot d s)) ->
    forall st, exists st', load_rest P fuel o (SrcURL c) st = (Ok tt, st').
Proof.
  intros Hch.
  apply (internalize_invariant (scan_reviver P o schema) (scan_reviver_other P o schema)
           (fun ref => url_part ref <> "" ->
              exists c, next_URL P schema (url_part ref) = Some c
                /\ forall st, exists st', load_rest P fuel o (SrcURL c) st = (Ok tt, st'))
           (fun s => forall c, c ∈ snd s ->
              forall st, exists st', load_rest P fuel o (SrcURL c) st = (Ok tt, st'))).
  - intros k ref s0 Hown Hpre Hinv.
    rewrite (scan_reviver_pointer P o schema k ref s0 Hown).
    destruct (Js.truthy (url_part ref)) eqn:Et; [|exact Hinv].
    destruct (_ && _); [exact Hinv|].
    destruct (Hpre (proj1 (truthy_true _) Et)) as (c & Hc & Hload). rewrite Hc.
    cbn [snd]. destruct (fst (load_begin P o c (fst s0))); [|exact Hinv].
    intros x Hx. apply elem_of_app in Hx as [Hx|Hx]; [now apply Hinv|].
    apply list_elem_of_singleton in Hx as ->. exact Hload.
  - apply Forall_forall. intros ref Hin.
    assert (ref ∈ pointers d) as Hin'.
    { destruct d; simpl own_pointer in Hin; now rewrite app_nil_r in Hin. }
    intros Hne. exact (Hch ref Hin' Hne).
Qed.

Lemma children_load_valid fuel d0 d :
  children_load P fuel o (SrcJSON d0) d -> Forall (valid_remote P) (pointers d).
Proof.
  intros Hch. apply Forall_forall. intros ref Hin Hrem.
  destruct (decide (url_part ref = "")) as [He|Hne].
  - rewrite He in Hrem. discriminate.
  - destruct (Hch ref Hin Hne) as (c & Hc & _). unfold next_URL in Hc.
    rewrite Hrem in Hc. congruence.
Qed.

End Children.

(** C8 as amended: the load of a document passed in by the caller, when
    every remote url-part in it is a valid URL, fails with the error of a
    relative reference as soon as one of its pointers has a url-part that
    is not remote.  When no pointer has such a url-part, the load never
    fails with that error; and when, moreover, the load of every document
    it refers to ends well, the load of the document ends well: it returns
    the schemas, transformed if the document is the root (and then fails
    only if the transformation does). *)
Theorem C8_dynamic_json (P : Platform) (fuel : nat) (o : LoadOptions)
    (d : Doc) (st : Store) :
  (Forall (valid_remote P) (pointers d) ->
   Exists relative_pointer (pointers d) ->
   exists ref st',
     relative_pointer ref
     /\ load P (S fuel) o (SrcJSON d) st
        = (Err (UnresolvableReference (cannot_load_dynamic (url_part ref))), st'))
  /\ (Forall (fun ref => ~ relative_pointer ref) (pointers d) ->
      (forall e st', load P fuel o (SrcJSON d) st = (Err e, st') ->
                     not_unresolvable e)
      /\ (children_load P fuel o (SrcJSON d) d ->
          exists st4,
            (VIRTUAL_JSON_URL <> href (rootURL o) ->
             load P (S fuel) o (SrcJSON d) st = (Ok (schemas st4), st4))
            /\ (VIRTUAL_JSON_URL = href (rootURL o) ->
                load P (S fuel) o (SrcJSON d) st =
                  match transform P o (schemas st4) with
                  | (Ok _, m) => (Ok m, mkStore m (urlCache st4) (events st4))
                  | (Err e, m) => (Err e, mkStore m (urlCache st4) (events st4))
                  end))).
Proof.
  split.
  - intros Hv Hex. unfold load. rewrite load_rest_S. cbn [obtain].
    unfold load_document.
    pose proof (scan_json_outcome P o d d
                  (set_schema (schema_id (SrcJSON d)) (Value d) st, []) Hv) as Hscan.
    destruct (internalize _ _ _ _) as [[d'|e] [st2 pend]].
    + exfalso. apply Exists_exists in Hex as (ref & Hin & Hrel).
      rewrite Forall_forall in Hscan. exact (Hscan ref Hin Hrel).
    + destruct Hscan as (ref & Hrel & ->). exists ref, st2. split; [exact Hrel | reflexivity].
  - intros Hall. split.
    + intros e st'. unfold load.
      destruct (load_rest P fuel o (SrcJSON d) st) as [[[]|e1] st1] eqn:E; [discriminate|].
      intros [= <- <-]. destruct fuel as [|fuel].
      * injection E as <- <-. intros msg. discriminate.
      * rewrite load_rest_S in E. cbn [obtain] in E.
        eapply load_document_not_unresolvable; [| |exact E].
        -- intros c st2 e2 st2'. apply load_rest_url_not_unresolvable.
        -- exact Hall.
    + intros Hch. unfold load. rewrite load_rest_S. cbn [obtain].
      unfold load_document. cbn [schema_id].
      set (s1 := (set_schema VIRTUAL_JSON_URL (Value d) st, @nil URL)).
      destruct (scan_json_succeeds P o d d s1 Hall (children_load_valid P o fuel d d Hch))
        as (d' & [st2 pend] & Hscan).
      pose proof (scan_children_load P o fuel (SrcJSON d) d s1 Hch) as Hpend.
      rewrite Hscan in Hpend |- *. cbn [snd] in Hpend.
      destruct (join_all_succeeds (fun c => load_rest P fuel o (SrcURL c)) pend
                  (set_schema VIRTUAL_JSON_URL (Value d') st2)) as [st4 Hj].
      { intros c Hc. apply Hpend; [|exact Hc].
        intros x Hx. now apply elem_of_nil in Hx. }
      rewrite Hj. exists st4. split.
      * intros Hne. apply String.eqb_neq in Hne. now rewrite Hne.
      * intros Heq. apply String.eqb_eq in Heq. rewrite Heq.
        now destruct (transform P o (schemas st4)) as [[[]|e] m].
Qed.

(** A document with a relative pointer, and a document that refers to a
    remote document with no pointer to another. *)
Lemma C8_dynamic_json_witness :
  (exists ref st',
     relative_pointer ref
     /\ load Demo.platform 1 (Demo.options_for Demo.root_a)
          (SrcJSON Demo.doc_relative) Demo.empty
        = (Err (UnresolvableReference (cannot_load_dynamic (url_part ref))), st'))
  /\ (exists st4,
        load Demo.platform 2 (Demo.options_for Demo.root_a)
          (SrcJSON Demo.doc_remote) Demo.empty
        = (Ok (schemas st4), st4)).
Proof.
  split.
  - apply (proj1 (C8_dynamic_json Demo.platform 0 (Demo.options_for Demo.root_a)
                    Demo.doc_relative Demo.empty)).
    + constructor; [|constructor]. intros H. vm_compute in H. discriminate H.
    + constructor. split; [vm_compute; discriminate | vm_compute; reflexivity].
  - destruct (proj2 (proj2 (C8_dynamic_json Demo.platform 1 (Demo.options_for Demo.root_a)
                              Demo.doc_remote Demo.empty)
                       ltac:(constructor; [|constructor]; intros [_ H]; discriminate H)))
      as [st4 [H _]].
    + intros ref Hin Hne. apply list_elem_of_singleton in Hin as ->.
      exists Demo.pet_url. split; [reflexivity|]. intros st. eexists.
      apply (load_rest_leaf Demo.platform (Demo.options_for Demo.root_a) 0 Demo.pet_url
               (JObject [("type", JString "object")]) st);
        [reflexivity | constructor | discriminate].
    + exists st4. apply H. discriminate.
Defined.

(** C8 as stated fails twice.  When an invalid remote URL comes before
    the relative pointer, the load fails with the error of the URL
    constructor.  And a document whose only reference is remote and
    absolute does not load when the document referred to cannot be
    requested. *)
Lemma C8_counterexample :
  ("./b.json#/y" ∈ pointers Demo.doc_invalid_first
   /\ relative_pointer "./b.json#/y"
   /\ fst (load Demo.platform 3 (Demo.options_for Demo.root_a)
             (SrcJSON Demo.doc_invalid_first) Demo.empty)
      = Err (InvalidURL "http://"))
  /\ (pointers Demo.doc_missing = ["https://example.com/missing.json#/X"]
      /\ is_remote (url_part "https://example.com/missing.json#/X") = true
      /\ fst (load Demo.platform 3 (Demo.options_for Demo.root_a)
                (SrcJSON Demo.doc_missing) Demo.empty)
         = Err (TransportError "https://example.com/missing.json")).
Proof.
  split.
  - split; [apply list_elem_of_In; simpl; tauto|].
    split; [split; [vm_compute; discriminate | vm_compute; reflexivity]|].
    vm_compute. reflexivity.
  - split; [reflexivity|]. split; vm_compute; reflexivity.
Qed.

(** ** What a load stores *)

(** X21: the document a scan returns is the document scanned with its
    pointers rewritten, and nothing else changed: a pointer with a url-part
    has it replaced by the URL it resolves to, by [String.prototype.replace],
    and a pointer with none is kept. *)
Theorem X21_scan_result (P : Platform) (o : LoadOptions) (schema : Source)
    (d d' : Doc) (s s' : Store * list URL) :
  internalize (scan_reviver P o schema) KRoot d s = (Ok d', s') ->
  d' = map_pointers (rewrite_pointer P schema) d.
Proof. apply scan_result. Qed.

Lemma X21_scan_result_witness :
  JObject [("dog", Demo.ref "file:///specs/b.json#/components/schemas/Dog");
           ("name", Demo.ref "#/components/schemas/Pet/properties/name")]
  = map_pointers (rewrite_pointer Demo.platform (SrcURL Demo.root_a))
      (JObject [("dog", Demo.ref "./b.json#/components/schemas/Dog");
                ("name", Demo.ref "#/components/schemas/Pet/properties/name")]).
Proof.
  apply (X21_scan_result Demo.platform (Demo.options_for Demo.root_a)
           (SrcURL Demo.root_a)
           (JObject [("dog", Demo.ref "./b.json#/components/schemas/Dog");
                     ("name", Demo.ref "#/components/schemas/Pet/properties/name")])
           _ (Demo.empty, [])
           (snd (load_begin Demo.platform (Demo.options_for Demo.root_a)
                   (Demo.file_url "file:///specs/b.json") Demo.empty),
            [Demo.file_url "file:///specs/b.json"])).
  vm_compute. reflexivity.
Defined.


